(** * Custom STL Creator: the geometry pipeline of the basketball-jersey design

    A shallow embedding of the parametric geometry generator
    (designs/basketball-jersey/geometry.js), of the JSCAD-to-Three.js bridge
    (js/core/viewer.js), of the STL exporter (js/core/stl-exporter.js) and
    of the colour state (js/core/color-manager.js), followed by the
    properties the specification states about them and by further properties
    of the code.

    Numbers.  A JavaScript number is read as a real number ([R]): the
    arithmetic of the code without its rounding, which the code follows up
    to rounding as long as no intermediate value leaves the range of
    binary64.  A division by zero is explicit: [div] gives [NonFinite] where
    JavaScript goes on with [NaN] or an infinity.  [NonFinite] is where this
    reading ends, not an exception of the code, and nothing is stated of the
    code beyond it.  Where the difference matters, [shrinkPolygon] is
    transcribed a second time in binary64 itself ([Binary64]): there an edge
    difference can overflow, a squared length can underflow, and two unit
    normals that cancel in the reals need not cancel.

    Strings.  A JavaScript string is the list of its UTF-16 code units.

    Objects.  An object used as a map (the Region Map, [meshMap], [_colors])
    is a finite map on its own keys; what a key would inherit from
    [Object.prototype] is not part of this reading.

    Calls that fail.  [generate] is read from the point where its two
    awaits have delivered the modeling library and the font.  Of the calls
    into the libraries only [primitives.polygon] is given a way to throw,
    the one exception the code catches; what is stated of [generate] and of
    [buildText] is stated of the runs that return. *)

From Stdlib Require Import Floats QArith.
From Stdlib Require Import Reals Lra Lia ZArith NArith List String Ascii Bool.
From Stdlib.Strings Require Import Byte.
From stdpp Require Import base option list strings gmap.

#[global] Set Warnings "-register-all,-inexact-float".

(* ===================================================================== *)
(** * Part I: the program                                                 *)
(* ===================================================================== *)

(** ** JavaScript values, strings and failure *)

Module Js.

(** A string as its sequence of UTF-16 code units. *)
Definition jsstring : Type := list N.

(** A string literal of the source. *)
Definition js (s : string) : jsstring :=
  map N_of_ascii (list_ascii_of_string s).

(** The primitive values a form field can hold. *)
Inductive value : Type :=
| VUndefined
| VNull
| VBool (b : bool)
| VNum (r : R)
| VStr (s : jsstring).

(** The built-ins of the language that the program calls and whose tables
    are not part of the repository: [Number::toString] and
    [String.prototype.toUpperCase]. *)
Class Builtins : Type := {
  numberToString : R -> jsstring;
  toUpperCase : jsstring -> jsstring;
}.

(** [String(v)]. *)
Definition ToString `{Builtins} (v : value) : jsstring :=
  match v with
  | VUndefined => js "undefined"
  | VNull => js "null"
  | VBool true => js "true"
  | VBool false => js "false"
  | VNum r => numberToString r
  | VStr s => s
  end.

(** [ToBoolean(v)]: what [if (v)], [!v] and [v || d] test. *)
Definition truthy (v : value) : bool :=
  match v with
  | VUndefined | VNull => false
  | VBool b => b
  | VNum r => if Req_dec_T r 0 then false else true
  | VStr s => match s with [] => false | _ :: _ => true end
  end.

(** A destructuring default [{ f = d } = obj]: it applies to [undefined]
    only. *)
Definition withDefault (v d : value) : value :=
  match v with VUndefined => d | _ => v end.

(** [WhiteSpace] and [LineTerminator] code units of ECMAScript, the ones
    [String.prototype.trim] strips. *)
Definition isWhiteSpace (c : N) : bool :=
  ((c =? 9) || (c =? 10) || (c =? 11) || (c =? 12) || (c =? 13) || (c =? 32)
   || (c =? 160) || (c =? 5760) || ((8192 <=? c) && (c <=? 8202))
   || (c =? 8232) || (c =? 8233) || (c =? 8239) || (c =? 8287)
   || (c =? 12288) || (c =? 65279))%N.

Fixpoint trimStart (s : jsstring) : jsstring :=
  match s with
  | [] => []
  | c :: s' => if isWhiteSpace c then trimStart s' else s
  end.

(** [s.trim()]. *)
Definition trim (s : jsstring) : jsstring :=
  rev (trimStart (rev (trimStart s))).

(** [s.substring(from, to)] for non-negative integer arguments (the smaller
    one is the start). *)
Definition substring (s : jsstring) (from to : nat) : jsstring :=
  take (Nat.max from to - Nat.min from to) (drop (Nat.min from to) s).

(** The result of a computation on numbers: a value, or a number that is
    not finite ([NaN], an infinity), or a thrown exception. *)
Inductive outcome (A : Type) : Type :=
| Ok (a : A)
| NonFinite
| Throws.
Arguments Ok {A} a.
Arguments NonFinite {A}.
Arguments Throws {A}.

#[export] Instance outcome_ret : MRet outcome := fun A a => Ok a.
#[export] Instance outcome_bind : MBind outcome := fun A B f m =>
  match m with
  | Ok a => f a
  | NonFinite => NonFinite
  | Throws => Throws
  end.

(** [x / y]: not finite when the divisor is zero. *)
Definition div (x y : R) : outcome R :=
  if Req_dec_T y 0 then NonFinite else Ok (x / y)%R.

(** [x || d] on numbers: [d] replaces a zero.  ([NaN] is falsy too:
    [Math.sqrt] of a negative number is [NaN] in JavaScript and [0] for
    [sqrt] here, and both are replaced.) *)
Definition orElse (x d : R) : R :=
  if Req_dec_T x 0 then d else x.

(** [arr[k]] followed by a property access: reading from [undefined]
    throws. *)
Definition index {A : Type} (arr : list A) (k : Z) : outcome A :=
  if (k <? 0)%Z then Throws
  else match arr !! Z.to_nat k with
       | Some a => Ok a
       | None => Throws
       end.

(** [arr.map((a, i) => f(i, a))], from index [i] on. *)
Fixpoint mapWithIndex {A B : Type} (f : nat -> A -> outcome B) (i : nat)
    (arr : list A) : outcome (list B) :=
  match arr with
  | [] => Ok []
  | a :: arr' =>
      b ← f i a;
      bs ← mapWithIndex f (S i) arr';
      Ok (b :: bs)
  end.

End Js.

Export Js.

(** ** JSCAD solids and the externally loaded libraries *)

Module Jscad.

(** A vertex of a JSCAD polygon as [pushVertex] tells the shapes apart:
    [[x,y,z]] (newer API), [{pos:[x,y,z]}] (old API), an object with a
    numeric [x], or anything else. *)
Inductive vertex : Type :=
| VertexArray (x y z : R)
| VertexPos (x y z : R)
| VertexXYZ (x y z : R)
| VertexOther.

(** A polygon of a geom3: [{ vertices }], the list possibly missing. *)
Record face : Type := { vertices : option (list vertex) }.

(** A geometry handed to the viewer and to the exporter: one geom3
    ([{ polygons }], the list possibly missing) or an array of
    geometries. *)
Inductive geom : Type :=
| Geom3 (polygons : option (list face))
| GeomArray (gs : list geom).

Definition point : Type := R * R.

(** The part of [@jscad/modeling] that geometry.js calls.  [polygon] may
    throw ([None]); buildText catches that.  The other functions, which the
    code calls outside any [try], are taken to return: a run in which one of
    them throws is not one of the runs described here. *)
Record Modeling : Type := {
  geom2 : Type;
  polygon : list point -> option geom2;
  extrudeLinear : R -> geom2 -> geom;
  translate : R * R * R -> geom -> geom;
  union : list geom -> geom;
  subtract : geom2 -> geom2 -> geom2;
}.

(** One command of an opentype.js path. *)
Inductive command : Type :=
| CmdM (x y : R)
| CmdL (x y : R)
| CmdC (x1 y1 x2 y2 x y : R)
| CmdQ (x1 y1 x y : R)
| CmdZ
| CmdOther.

(** The part of an opentype.js font that geometry.js reads; its functions
    are taken to return, like those of the modeling library. *)
Record Glyph : Type := {
  advanceWidth : option R;
  getPath : R -> R -> R -> list command;
}.

Record Font : Type := {
  unitsPerEm : R;
  stringToGlyphs : jsstring -> list Glyph;
  getKerningValue : Glyph -> Glyph -> R;
}.

End Jscad.

Export Jscad.

(** ** designs/basketball-jersey/geometry.js *)

Module Geometry.

Local Open Scope R_scope.

(** *** shrinkPolygon *)

(** The callback of [points.map] in [shrinkPolygon], in exact arithmetic.
    Binary64 departs from it beyond rounding in three places, for which
    [Binary64.shrinkVertex] transcribes the callback again: an edge
    difference that overflows, a squared length that underflows to 0, and a
    corner where the polygon turns back on itself, whose two unit normals
    cancel here and may leave a rounding error there. *)
Definition shrinkVertex (points : list point) (amount : R) (i : nat)
    (p : point) : outcome point :=
  let n := Z.of_nat (length points) in
  prev ← index points (Z.rem (Z.of_nat i - 1 + n) n);
  next ← index points (Z.rem (Z.of_nat i + 1) n);
  (* Edge vectors *)
  let e1x := p.1 - prev.1 in
  let e1y := p.2 - prev.2 in
  let e2x := next.1 - p.1 in
  let e2y := next.2 - p.2 in
  (* Normals *)
  let n1x := e1y in
  let n1y := - e1x in
  let n2x := e2y in
  let n2y := - e2x in
  (* Normalize *)
  let l1 := orElse (sqrt (n1x * n1x + n1y * n1y)) 1 in
  let l2 := orElse (sqrt (n2x * n2x + n2y * n2y)) 1 in
  a1 ← div n1x l1;
  a2 ← div n2x l2;
  let bx := a1 + a2 in
  c1 ← div n1y l1;
  c2 ← div n2y l2;
  let by_ := c1 + c2 in
  let lb := orElse (sqrt (bx * bx + by_ * by_)) 1 in
  ux ← div bx lb;
  uy ← div by_ lb;
  Ok (p.1 + ux * amount, p.2 + uy * amount).

Definition shrinkPolygon (points : list point) (amount : R)
    : outcome (list point) :=
  mapWithIndex (shrinkVertex points amount) 0 points.

(** *** sampleCubic, sampleQuadratic *)

(** [for (let i = 1; i <= steps; i++)] runs its body at [i = 1 .. steps]. *)
Definition sampleCubic (x0 y0 x1 y1 x2 y2 x3 y3 : R) (steps : nat)
    : list point :=
  map (fun i : nat =>
         let t := INR i / INR steps in
         let mt := 1 - t in
         let x := mt*mt*mt*x0 + 3*mt*mt*t*x1 + 3*mt*t*t*x2 + t*t*t*x3 in
         let y := mt*mt*mt*y0 + 3*mt*mt*t*y1 + 3*mt*t*t*y2 + t*t*t*y3 in
         (x, y))
      (seq 1 steps).

Definition sampleQuadratic (x0 y0 x1 y1 x2 y2 : R) (steps : nat)
    : list point :=
  map (fun i : nat =>
         let t := INR i / INR steps in
         let mt := 1 - t in
         let x := mt*mt*x0 + 2*mt*t*x1 + t*t*x2 in
         let y := mt*mt*y0 + 2*mt*t*y1 + t*t*y2 in
         (x, y))
      (seq 1 steps).

(** *** pathToContours *)

Definition BEZIER_STEPS : nat := 8.

(** The variables of the loop in [pathToContours]. *)
Record pathState : Type := {
  contours : list (list point);
  current : list point;
  cx : R;
  cy : R;
}.

Definition pathInit : pathState :=
  {| contours := []; current := []; cx := 0; cy := 0 |}.

(** [if (current.length > 2) contours.push(current)]. *)
Definition flush (st : pathState) : list (list point) :=
  if (2 <? length (current st))%nat
  then contours st ++ [current st]
  else contours st.

(** One turn of the [switch]. *)
Definition pathStep (st : pathState) (cmd : command) : pathState :=
  match cmd with
  | CmdM x y =>
      {| contours := flush st; current := [(x, y)]; cx := x; cy := y |}
  | CmdL x y =>
      {| contours := contours st; current := current st ++ [(x, y)];
         cx := x; cy := y |}
  | CmdC x1 y1 x2 y2 x y =>
      let pts := sampleCubic (cx st) (cy st) x1 y1 x2 y2 x y BEZIER_STEPS in
      {| contours := contours st; current := current st ++ pts;
         cx := x; cy := y |}
  | CmdQ x1 y1 x y =>
      let pts := sampleQuadratic (cx st) (cy st) x1 y1 x y BEZIER_STEPS in
      {| contours := contours st; current := current st ++ pts;
         cx := x; cy := y |}
  | CmdZ =>
      {| contours := flush st; current := []; cx := cx st; cy := cy st |}
  | CmdOther => st
  end.

(** The [scale] argument is not read by the function. *)
Definition pathToContours (commands : list command) (scale : R)
    : list (list point) :=
  flush (fold_left pathStep commands pathInit).

(** *** jerseyPoints *)

Definition styleIs (style : value) (name : string) : bool :=
  match style with
  | VStr s => bool_decide (s = js name)
  | _ => false
  end.

Definition jerseyPoints (style : value) : list point :=
  let W := 100 in
  let H := 120 in
  let shoulderDrop := if styleIs style "Retro" then 18 else 14 in
  let armholeWidth := if styleIs style "College" then 22 else 18 in
  let armholeDepth := if styleIs style "Retro" then 30 else 24 in
  let collarW := if styleIs style "NBA Modern" then 20 else 16 in
  let collarDepth := if styleIs style "NBA Modern" then 12 else 10 in
  [ (0, 0);
    (W, 0);
    (W, H - shoulderDrop);
    (W - armholeWidth, H - shoulderDrop);
    (W - armholeWidth, H - armholeDepth);
    (W - armholeWidth, H);
    (W / 2 + collarW, H);
    (W / 2, H - collarDepth);
    (W / 2 - collarW, H);
    (armholeWidth, H);
    (armholeWidth, H - armholeDepth);
    (armholeWidth, H - shoulderDrop);
    (0, H - shoulderDrop) ].

(** *** buildBody *)

(** [primitives.polygon] where nothing catches what it throws. *)
Definition polygonOrThrow (jscad : Modeling) (points : list point)
    : outcome (geom2 jscad) :=
  match polygon jscad points with
  | Some poly => Ok poly
  | None => Throws
  end.

Definition buildBody (jscad : Modeling) (points : list point) (thickness : R)
    : outcome geom :=
  poly ← polygonOrThrow jscad points;
  Ok (extrudeLinear jscad thickness poly).

(** *** buildText *)

(** The [opts] object; a missing property is [None]. *)
Record textOpts : Type := {
  opt_size : option R;
  opt_z : option R;
  opt_height : option R;
  opt_centerX : option R;
  opt_centerY : option R;
}.

(** The callback of [contours.forEach]: a contour of at least 3 points is
    made a polygon and recorded with the current cursor; a throwing
    [primitives.polygon] is caught and the contour skipped. *)
Definition pushContour (jscad : Modeling) (cursorX : R)
    (allPolygons : list (geom2 jscad * R)) (pts : list point)
    : list (geom2 jscad * R) :=
  if (3 <=? length pts)%nat then
    match polygon jscad pts with
    | Some poly => allPolygons ++ [(poly, cursorX)]
    | None => allPolygons
    end
  else allPolygons.

(** The loop over the glyphs, [gi] running along the list; [glyphs[gi + 1]]
    is the head of the rest. *)
Fixpoint glyphLoop (jscad : Modeling) (font : Font) (size scale : R)
    (glyphs : list Glyph) (cursorX : R) (allPolygons : list (geom2 jscad * R))
    : R * list (geom2 jscad * R) :=
  match glyphs with
  | [] => (cursorX, allPolygons)
  | glyph :: rest =>
      let path := getPath glyph 0 0 size in
      let contours := pathToContours path scale in
      let allPolygons := fold_left (pushContour jscad cursorX) contours allPolygons in
      (* Advance cursor *)
      let adv := match advanceWidth glyph with
                 | Some w => orElse w (size * (6 / 10))
                 | None => size * (6 / 10)
                 end in
      let cursorX := cursorX + adv * scale in
      (* Kerning *)
      let cursorX := match rest with
                     | next :: _ => cursorX + getKerningValue font glyph next * scale
                     | [] => cursorX
                     end in
      glyphLoop jscad font size scale rest cursorX allPolygons
  end.

(** [None] is the [null] the function returns.  With [font.unitsPerEm] 0
    the scale is an infinity or [NaN] and the code goes on with it; the
    reading as reals ends there ([NonFinite]). *)
Definition buildText (jscad : Modeling) (font : Font) (text : jsstring)
    (opts : textOpts) : outcome (option geom) :=
  let size := default 20 (opt_size opts) in
  let z := default 3 (opt_z opts) in
  let height := default 2 (opt_height opts) in
  let centerX := default 50 (opt_centerX opts) in
  let centerY := default 50 (opt_centerY opts) in
  if negb (truthy (VStr text)) || bool_decide (trim text = []) then Ok None
  else
    scale ← div size (unitsPerEm font);
    let glyphs := stringToGlyphs font text in
    let '(cursorX, allPolygons) := glyphLoop jscad font size scale glyphs 0 [] in
    if (length allPolygons =? 0)%nat then Ok None
    else
      let textWidth := cursorX in
      let startX := centerX - textWidth / 2 in
      let extruded :=
        map (fun '(poly, offsetX) =>
               let solid := extrudeLinear jscad height poly in
               translate jscad (startX + offsetX, centerY, z) solid)
            allPolygons in
      match extruded with
      | [solid] => Ok (Some solid)
      | _ => Ok (Some (union jscad extruded))
      end.

(** *** buildTrim *)

Definition buildTrim (jscad : Modeling) (points : list point)
    (baseThickness trimWidth textHeight : R) : outcome geom :=
  outer ← polygonOrThrow jscad points;
  innerPts ← shrinkPolygon points trimWidth;
  inner ← polygonOrThrow jscad innerPts;
  let ring := subtract jscad outer inner in
  let height := baseThickness + textHeight in
  Ok (extrudeLinear jscad height ring).

(** *** generate *)

(** The [inputs] object: one field per input of the design's config, a
    missing property being [VUndefined] (or [None]). *)
Record Inputs : Type := {
  playerName : value;
  number : value;
  jerseyStyle : value;
  showTrim : value;
  baseThickness : option R;
}.

Definition numStr `{Builtins} (number : value) : jsstring :=
  substring (ToString number) 0 2.

Definition nameStr `{Builtins} (playerName : value) : jsstring :=
  substring (toUpperCase (ToString playerName)) 0 14.

(** The object returned is the Region Map: region identifier to geometry,
    [None] being [null].  [jscad] and [font] are what [await getJscad()] and
    [await getFont()] deliver; a run in which one of the two rejects ends
    there and is not described. *)
Definition generate `{Builtins} (jscad : Modeling) (font : Font)
    (inputs : Inputs) : outcome (gmap string (option geom)) :=
  let playerName := withDefault (playerName inputs) (VStr (js "SMITH")) in
  let number := withDefault (number inputs) (VStr (js "23")) in
  let jerseyStyle := withDefault (jerseyStyle inputs) (VStr (js "NBA Modern")) in
  let showTrim := withDefault (showTrim inputs) (VBool true) in
  let baseThickness := default 3 (baseThickness inputs) in
  let textH := 2 in
  let trimW := 15 / 10 in
  let silhouette := jerseyPoints jerseyStyle in
  bodyGeom ← buildBody jscad silhouette baseThickness;
  numberGeom ← buildText jscad font (numStr number)
    {| opt_size := Some 28; opt_z := Some baseThickness;
       opt_height := Some textH; opt_centerX := Some 50;
       opt_centerY := Some 68 |};
  nameGeom ← buildText jscad font (nameStr playerName)
    {| opt_size := Some 10; opt_z := Some baseThickness;
       opt_height := Some textH; opt_centerX := Some 50;
       opt_centerY := Some 26 |};
  trimGeom ← (if truthy showTrim
              then g ← buildTrim jscad silhouette baseThickness trimW textH;
                   Ok (Some g)
              else Ok None);
  Ok (<["body" := Some bodyGeom]>
      (<["number" := numberGeom]>
       (<["name" := nameGeom]>
        (<["trim" := trimGeom]> ∅)))).

End Geometry.

(** ** shrinkPolygon in binary64 *)

Module Binary64.

Local Open Scope float_scope.

(** The numbers of the language themselves: IEEE 754 binary64, each
    operation rounded to nearest, ties to even.  A point is [[x, y]]. *)
Definition point : Type := float * float.

(** [x || d]: [d] replaces [0], [-0] and [NaN]. *)
Definition orElse (x d : float) : float :=
  if orb (x =? 0) (is_nan x) then d else x.

(** The callback of [points.map] in [shrinkPolygon]. *)
Definition shrinkVertex (points : list point) (amount : float) (i : nat)
    (p : point) : outcome point :=
  let n := Z.of_nat (length points) in
  prev ← index points (Z.rem (Z.of_nat i - 1 + n) n);
  next ← index points (Z.rem (Z.of_nat i + 1) n);
  (* Edge vectors *)
  let e1x := p.1 - prev.1 in
  let e1y := p.2 - prev.2 in
  let e2x := next.1 - p.1 in
  let e2y := next.2 - p.2 in
  (* Normals *)
  let n1x := e1y in
  let n1y := - e1x in
  let n2x := e2y in
  let n2y := - e2x in
  (* Normalize *)
  let l1 := orElse (PrimFloat.sqrt (n1x * n1x + n1y * n1y)) 1 in
  let l2 := orElse (PrimFloat.sqrt (n2x * n2x + n2y * n2y)) 1 in
  let bx := n1x / l1 + n2x / l2 in
  let by_ := n1y / l1 + n2y / l2 in
  let lb := orElse (PrimFloat.sqrt (bx * bx + by_ * by_)) 1 in
  Ok (p.1 + (bx / lb) * amount, p.2 + (by_ / lb) * amount).

Definition shrinkPolygon (points : list point) (amount : float)
    : outcome (list point) :=
  mapWithIndex (shrinkVertex points amount) 0 points.

End Binary64.

(** ** js/core/viewer.js *)

Module Viewer.

(** [pushVertex(arr, v)]: three numbers for a vertex of a known shape,
    nothing otherwise. *)
Definition pushVertex (arr : list R) (v : vertex) : list R :=
  match v with
  | VertexArray x y z => arr ++ [x; y; z]
  | VertexPos x y z => arr ++ [x; y; z]
  | VertexXYZ x y z => arr ++ [x; y; z]
  | VertexOther => arr
  end.

(** [verts[k]]; an index out of range reads [undefined], which [pushVertex]
    ignores like any other unknown shape. *)
Definition vertexAt (verts : list vertex) (k : nat) : vertex :=
  default VertexOther (verts !! k).

(** The body of the fan loop at index [i]. *)
Definition fanStep (verts : list vertex) (positions : list R) (i : nat)
    : list R :=
  let positions := pushVertex positions (vertexAt verts 0) in
  let positions := pushVertex positions (vertexAt verts i) in
  pushVertex positions (vertexAt verts (i + 1)).

(** The callback of [polygons.forEach]; the loop
    [for (let i = 1; i < verts.length - 1; i++)] runs at
    [i = 1 .. verts.length - 2]. *)
Definition pushFace (positions : list R) (poly : face) : list R :=
  match vertices poly with
  | None => positions
  | Some verts =>
      if (length verts <? 3)%nat then positions
      else fold_left (fanStep verts) (seq 1 (length verts - 2)) positions
  end.

(** What a [Float32BufferAttribute] of item size 3 exposes through
    [count], [getX], [getY], [getZ]: the whole triples. *)
Definition wholeTriples (positions : list R) : list R :=
  take (3 * (length positions / 3)) positions.

(** The position buffer of the [BufferGeometry] that
    [jscadToThreeGeometry] returns. *)
Fixpoint jscadToThreeGeometry (jscadGeom : geom) : list R :=
  match jscadGeom with
  | GeomArray gs =>
      concat (List.map (fun g => wholeTriples (jscadToThreeGeometry g)) gs)
  | Geom3 polygons => fold_left pushFace (default [] polygons) []
  end.

(** An entry of [design.colorRegions]. *)
Record Region : Type := {
  region_id : string;
  region_label : string;
  region_default : option string;
}.

(** A [THREE.Mesh]: its position buffer and the colour of its material. *)
Record Mesh : Type := {
  mesh_positions : list R;
  mesh_color : string;
}.

(** [a || d] on an optional string: a missing or empty [a] gives [d]. *)
Definition strOr (a : option string) (d : string) : string :=
  match a with
  | Some s => if bool_decide (s = EmptyString) then d else s
  | None => d
  end.

(** The scene state that [loadGeometries] rebuilds. *)
Record Scene : Type := {
  meshMap : gmap string Mesh;
  modelGroup : list Mesh;
}.

(** The callback of [colorRegions.forEach]; a geometry that is [null]
    ([Some None]) or [undefined] ([None]) returns at once. *)
Definition loadRegion (geometries : gmap string (option geom))
    (colorMap : gmap string string) (sc : Scene) (region : Region) : Scene :=
  match geometries !! region_id region with
  | Some (Some jscadGeom) =>
      let threeGeom := jscadToThreeGeometry jscadGeom in
      let color :=
        strOr (colorMap !! region_id region)
              (strOr (region_default region) "#888888") in
      let mesh := {| mesh_positions := threeGeom; mesh_color := color |} in
      {| meshMap := <[region_id region := mesh]> (meshMap sc);
         modelGroup := modelGroup sc ++ [mesh] |}
  | _ => sc
  end.

(** The old meshes are removed first, so the scene starts empty. *)
Definition loadGeometries (geometries : gmap string (option geom))
    (colorRegions : list Region) (colorMap : gmap string string) : Scene :=
  fold_left (loadRegion geometries colorMap) colorRegions
            {| meshMap := ∅; modelGroup := [] |}.

End Viewer.

(** ** js/core/stl-exporter.js *)

Module StlExporter.

Import Viewer.

(** A design config, as far as the exporter reads it. *)
Record Design : Type := {
  design_id : string;
  colorRegions : list Region;
}.

(** What [serialize({ binary: true }, ...solids)] returns: one ArrayBuffer,
    or an array of ArrayBuffers. *)
Inductive rawData : Type :=
| RawBuffer (buffer : list byte)
| RawArray (buffers : list (list byte)).

(** The serializer of [@jscad/stl-serializer], imported at run time. *)
Definition Serializer : Type := list geom -> rawData.

(** A file handed to the browser: its name and the one part of the Blob
    ([None] when [rawData[0]] is [undefined]). *)
Record Download : Type := {
  filename : string;
  content : option (list byte);
}.

(** [exportRegionSTL]; [None] is a falsy [geometry]. *)
Definition exportRegionSTL (serialize : Serializer) (region : Region)
    (geometry : option geom) (inputs : Geometry.Inputs) (design : Design)
    : list Download :=
  match geometry with
  | None => []
  | Some geometry =>
      let solids := match geometry with
                    | GeomArray gs => gs
                    | _ => [geometry]
                    end in
      let rawData := serialize solids in
      let buffer := match rawData with
                    | RawBuffer b => Some b
                    | RawArray bs => bs !! 0%nat
                    end in
      let filename :=
        (design_id design ++ "__" ++ region_id region ++ ".stl")%string in
      [ {| filename := filename; content := buffer |} ]
  end.

(** One turn of the loop of [exportAllSTL]. *)
Definition exportStep (serialize : Serializer) (design : Design)
    (inputs : Geometry.Inputs) (geometries : gmap string (option geom))
    (downloads : list Download) (region : Region) : list Download :=
  match geometries !! region_id region with
  | Some (Some g) =>
      downloads ++ exportRegionSTL serialize region (Some g) inputs design
  | _ => downloads
  end.

(** [exportAllSTL]: the files downloaded, in order. *)
Definition exportAllSTL `{Builtins} (jscad : Modeling) (font : Font)
    (serialize : Serializer) (design : Design) (inputs : Geometry.Inputs)
    : outcome (list Download) :=
  geometries ← Geometry.generate jscad font inputs;
  Ok (fold_left (exportStep serialize design inputs geometries)
                (colorRegions design) []).

End StlExporter.

(** ** js/core/viewer.js: the meshes as shared objects *)

Module ViewerApi.

Import Viewer.

(** The closure of [initViewer] as [setRegionColor] needs it.  A mesh is an
    object that [meshMap] and [modelGroup] share, so it is kept once, in
    [modelGroup], where [loadGeometries] adds every mesh it creates, and
    [meshMap] holds its place there. *)
Record Closure : Type := {
  meshMap : gmap string nat;
  modelGroup : list Mesh;
}.

(** The state [initViewer] starts from: no mesh, an empty group. *)
Definition initViewer : Closure := {| meshMap := ∅; modelGroup := [] |}.

(** The callback of [colorRegions.forEach]. *)
Definition loadRegion (geometries : gmap string (option geom))
    (colorMap : gmap string string) (st : Closure) (region : Region)
    : Closure :=
  match geometries !! region_id region with
  | Some (Some jscadGeom) =>
      let threeGeom := jscadToThreeGeometry jscadGeom in
      let color :=
        strOr (colorMap !! region_id region)
              (strOr (region_default region) "#888888") in
      let mesh := {| mesh_positions := threeGeom; mesh_color := color |} in
      {| meshMap := <[region_id region := length (modelGroup st)]> (meshMap st);
         modelGroup := modelGroup st ++ [mesh] |}
  | _ => st
  end.

(** [loadGeometries]: the group is replaced by a new one and every key of
    [meshMap] deleted before the regions are loaded. *)
Definition loadGeometries (st : Closure)
    (geometries : gmap string (option geom)) (colorRegions : list Region)
    (colorMap : gmap string string) : Closure :=
  let st := {| meshMap := foldr delete (meshMap st)
                                (map fst (map_to_list (meshMap st)));
               modelGroup := [] |} in
  fold_left (loadRegion geometries colorMap) colorRegions st.

(** [mesh.material.color.set(hex)]. *)
Definition setMeshColor (hex : string) (mesh : Mesh) : Mesh :=
  {| mesh_positions := mesh_positions mesh; mesh_color := hex |}.

(** [setRegionColor]: a region without a mesh is left alone. *)
Definition setRegionColor (st : Closure) (regionId hex : string) : Closure :=
  match meshMap st !! regionId with
  | Some mesh =>
      {| meshMap := meshMap st;
         modelGroup := alter (setMeshColor hex) mesh (modelGroup st) |}
  | None => st
  end.

End ViewerApi.

(** ** js/core/color-manager.js *)

Module ColorManager.

Import Viewer.

(** The module state [_colors], region identifier to hex colour, is a
    [gmap string string] that every function takes and gives back.  The
    swatches and pickers that the module builds in the page are not part of
    this reading, nor is the input handler of a picker, which stores the
    picked colour under its region as [setColor] does. *)

(** The callback of [design.colorRegions.forEach], as far as [_colors]
    goes. *)
Definition initRegion (colors : gmap string string) (region : Region)
    : gmap string string :=
  <[region_id region := strOr (region_default region) "#888888"]> colors.

(** [buildColorPanel], given [design.colorRegions] ([None] when the design
    has none): every key is deleted first, and a design without colour
    regions, or with an empty list of them, leaves the state at that. *)
Definition buildColorPanel (colorRegions : option (list Region))
    (colors : gmap string string) : gmap string string :=
  let colors := foldr delete colors (map fst (map_to_list colors)) in
  match colorRegions with
  | None | Some [] => colors
  | Some regions => fold_left initRegion regions colors
  end.

(** [getColors]: a copy of the state. *)
Definition getColors (colors : gmap string string) : gmap string string :=
  colors.

(** [setColor], as far as [_colors] goes. *)
Definition setColor (colors : gmap string string) (regionId hex : string)
    : gmap string string :=
  <[regionId := hex]> colors.

End ColorManager.

(** ** designs/basketball-jersey/config.js *)

Module Config.

(** The identifier and the colour regions of the design. *)
Definition basketballJersey : StlExporter.Design := {|
  StlExporter.design_id := "basketball-jersey";
  StlExporter.colorRegions :=
    [ {| Viewer.region_id := "body"; Viewer.region_label := "Jersey Body";
         Viewer.region_default := Some "#C8102E" |};
      {| Viewer.region_id := "number"; Viewer.region_label := "Number";
         Viewer.region_default := Some "#FFFFFF" |};
      {| Viewer.region_id := "name"; Viewer.region_label := "Player Name";
         Viewer.region_default := Some "#FFFFFF" |};
      {| Viewer.region_id := "trim"; Viewer.region_label := "Trim / Border";
         Viewer.region_default := Some "#041E42" |} ];
|}.

End Config.

(** ** The notions the specification speaks in *)

Module Notions.

Local Open Scope R_scope.

(** The edges of a closed polygon: consecutive points, the last joined to
    the first. *)
Definition edges (pts : list point) : list (point * point) :=
  match pts with
  | [] => []
  | p0 :: rest => zip pts (rest ++ [p0])
  end.

Definition cross (a b : point) : R := a.1 * b.2 - b.1 * a.2.

(** The shoelace sum, twice the signed area. *)
Definition shoelace (pts : list point) : R :=
  fold_right (fun e acc => cross e.1 e.2 + acc) 0 (edges pts).

Definition signedArea (pts : list point) : R := shoelace pts / 2.

Definition area (pts : list point) : R := Rabs (signedArea pts).

(** Winding in the frame of the design: origin bottom-left, y upwards.
    A positive signed area is a counter-clockwise sequence. *)
Definition clockwise (pts : list point) : Prop := signedArea pts < 0.

Definition counterclockwise (pts : list point) : Prop := 0 < signedArea pts.

(** The corners of a closed polygon: each point between its predecessor and
    its successor. *)
Definition corners (pts : list point) : list (point * point * point) :=
  match pts with
  | [] => []
  | p0 :: rest =>
      zip (zip (default p0 (last pts) :: removelast pts) pts) (rest ++ [p0])
  end.

(** The turn at a corner: positive to the left, negative to the right. *)
Definition turn (c : point * point * point) : R :=
  let '(a, b, d) := c in
  (b.1 - a.1) * (d.2 - b.2) - (d.1 - b.1) * (b.2 - a.2).

(** A convex polygon turns the same way at every corner. *)
Definition convex (pts : list point) : Prop :=
  (3 <= length pts)%nat /\
  (Forall (fun c => turn c <= 0) (corners pts) \/
   Forall (fun c => 0 <= turn c) (corners pts)).

(** A corner where the polygon turns back on itself: the two edges have a
    length and point in opposite directions, so that their unit normals
    cancel. *)
Definition reversed (c : point * point * point) : Prop :=
  let '(a, b, d) := c in
  turn c = 0
  /\ (b.1 - a.1) * (d.1 - b.1) + (b.2 - a.2) * (d.2 - b.2) < 0.

(** A corner whose second edge is a multiple of the first: the polygon goes
    straight on, or back, or stays where it is. *)
Definition aligned (c : point * point * point) : Prop :=
  exists k : R,
    c.2.1 - c.1.2.1 = k * (c.1.2.1 - c.1.1.1)
    /\ c.2.2 - c.1.2.2 = k * (c.1.2.2 - c.1.1.2).

(** A point of the line through [A] in the direction [e]. *)
Definition onLine (A e x : point) : Prop :=
  exists s : R, x = (A.1 + s * e.1, A.2 + s * e.2).

Definition dist (p q : point) : R :=
  sqrt ((p.1 - q.1) * (p.1 - q.1) + (p.2 - q.2) * (p.2 - q.2)).

Definition onSegment (a b x : point) : Prop :=
  exists t : R, 0 <= t <= 1 /\
    x = (a.1 + t * (b.1 - a.1), a.2 + t * (b.2 - a.2)).

(** [v] is at distance at least [k] from the nearest edge of [pts]. *)
Definition clearOfEdges (pts : list point) (v : point) (k : R) : Prop :=
  forall a b x, In (a, b) (edges pts) -> onSegment a b x -> k <= dist v x.

(** A contour has three points that differ from one another. *)
Definition threeDistinct (c : list point) : Prop :=
  exists p q r : point, In p c /\ In q c /\ In r c /\ p <> q /\ q <> r /\ p <> r.

(** The standard parametric form of a Bezier curve, by repeated linear
    interpolation between the control points (de Casteljau). *)
Definition lerp (a b : point) (t : R) : point :=
  ((1 - t) * a.1 + t * b.1, (1 - t) * a.2 + t * b.2).

Definition bezier2 (p0 p1 p2 : point) (t : R) : point :=
  lerp (lerp p0 p1 t) (lerp p1 p2 t) t.

Definition bezier3 (p0 p1 p2 p3 : point) (t : R) : point :=
  lerp (bezier2 p0 p1 p2 t) (bezier2 p1 p2 p3 t) t.

(** The outline of the silhouette for a tuple of the five derived
    dimensions, on the fixed 100 by 120 box. *)
Definition outline (shoulderDrop armholeWidth armholeDepth collarW collarDepth : R)
    : list point :=
  [ (0, 0); (100, 0); (100, 120 - shoulderDrop);
    (100 - armholeWidth, 120 - shoulderDrop);
    (100 - armholeWidth, 120 - armholeDepth);
    (100 - armholeWidth, 120);
    (50 + collarW, 120); (50, 120 - collarDepth); (50 - collarW, 120);
    (armholeWidth, 120); (armholeWidth, 120 - armholeDepth);
    (armholeWidth, 120 - shoulderDrop); (0, 120 - shoulderDrop) ].

(** Text that [trim] empties: nothing but white space (or nothing). *)
Definition whitespaceOnly (text : jsstring) : Prop :=
  forallb isWhiteSpace text = true.

(** A vertex of one of the three shapes [pushVertex] knows, and its
    coordinates. *)
Definition knownShape (v : vertex) : Prop := v <> VertexOther.

Definition coords (v : vertex) : list R :=
  match v with
  | VertexArray x y z | VertexPos x y z | VertexXYZ x y z => [x; y; z]
  | VertexOther => []
  end.

(** Fan triangulation: the first vertex paired with every consecutive edge
    of the remaining ones. *)
Fixpoint fanFrom (v0 : vertex) (rest : list vertex)
    : list (vertex * vertex * vertex) :=
  match rest with
  | a :: (b :: _) as rest' => (v0, a, b) :: fanFrom v0 rest'
  | _ => []
  end.

Definition fanTriangles (verts : list vertex) : list (vertex * vertex * vertex) :=
  match verts with
  | v0 :: rest => fanFrom v0 rest
  | [] => []
  end.

Definition triangleCoords (t : vertex * vertex * vertex) : list R :=
  let '(a, b, c) := t in coords a ++ coords b ++ coords c.

(** The triangles of a face: its fan, nothing for a face without a vertex
    list. *)
Definition faceTriangles (poly : face) : list (vertex * vertex * vertex) :=
  match vertices poly with
  | Some verts => fanTriangles verts
  | None => []
  end.

(** The unit normal [(e_y, -e_x)] of the edge from [a] to [b], a zero-length
    edge taken as of length 1; it points to the right of the direction of
    travel. *)
Definition rightNormal (a b : point) : point :=
  let ex := b.1 - a.1 in
  let ey := b.2 - a.2 in
  let l := orElse (sqrt (ey * ey + - ex * - ex)) 1 in
  (ey / l, - ex / l).

(** The vertex [p], between [prev] and [next], moved by [amount] along the
    normalized sum of the two unit normals: the value the callback of
    [shrinkPolygon] computes. *)
Definition offsetVertex (prev p next : point) (amount : R) : point :=
  let n1 := rightNormal prev p in
  let n2 := rightNormal p next in
  let bx := n1.1 + n2.1 in
  let by_ := n1.2 + n2.2 in
  let lb := orElse (sqrt (bx * bx + by_ * by_)) 1 in
  (p.1 + bx / lb * amount, p.2 + by_ / lb * amount).

(** The scalar product; against a unit normal it is the signed distance
    along that normal. *)
Definition dot (a b : point) : R := a.1 * b.1 + a.2 * b.2.

(** The sum of the unit normals of the two edges at [p]. *)
Definition bisector (prev p next : point) : point :=
  ((rightNormal prev p).1 + (rightNormal p next).1,
   (rightNormal prev p).2 + (rightNormal p next).2).

(** The polygon turned by one place: each point replaced by its
    successor... *)
Definition rotl (pts : list point) : list point :=
  match pts with
  | [] => []
  | p0 :: rest => rest ++ [p0]
  end.

(** ... and by its predecessor. *)
Definition rotr (pts : list point) : list point :=
  match pts with
  | [] => []
  | p0 :: _ => default p0 (last pts) :: removelast pts
  end.

(** The direction a vertex is moved in: the sum of the two unit normals,
    normalized. *)
Definition unitBisector (c : point * point * point) : point :=
  let '(prev, p, next) := c in
  let b := bisector prev p next in
  let lb := orElse (sqrt (dot b b)) 1 in
  (b.1 / lb, b.2 / lb).

(** The point [p] moved by [d] along [u]. *)
Definition move (d : R) (p u : point) : point :=
  (p.1 + u.1 * d, p.2 + u.2 * d).

(** The shoelace sum over two lists of points taken pairwise. *)
Definition sumCross (l m : list point) : R :=
  fold_right (fun e acc => cross e.1 e.2 + acc) 0 (zip l m).

(** What a corner contributes to the first-order change of the shoelace sum
    when its point is moved along its direction. *)
Definition sweep (c : point * point * point) : R :=
  cross c.1.1 (unitBisector c) + cross (unitBisector c) c.2.

(** The sum of [f] over a list. *)
Definition sumOver {A : Type} (f : A -> R) (l : list A) : R :=
  fold_right (fun c acc => f c + acc) 0 l.

(** The direction of every vertex of a closed polygon. *)
Definition directions (pts : list point) : list point :=
  map unitBisector (corners pts).

(** The square with corners on the axes at distance [r] from the origin,
    listed clockwise and counter-clockwise. *)
Definition diamondCW (r : R) : list point :=
  [ (r, 0); (0, - r); (- r, 0); (0, r) ].

Definition diamondCCW (r : R) : list point :=
  [ (r, 0); (0, r); (- r, 0); (0, - r) ].

(** The point of a closed polygon at index [k], counted round the polygon;
    [p] stands in when the polygon is empty. *)
Definition neighbour (points : list point) (k : nat) (p : point) : point :=
  default p (points !! (k mod length points)%nat).

(** Every vertex moved as [offsetVertex] says, between its two neighbours:
    the polygon [shrinkPolygon] computes. *)
Definition offsetPolygon (points : list point) (amount : R) : list point :=
  imap (fun i p =>
          offsetVertex (neighbour points (i + length points - 1) p) p
                       (neighbour points (i + 1) p) amount)
       points.


(** A binary64 value that is a number, and not an infinity. *)
Definition finite64 (x : float) : bool :=
  negb (PrimFloat.is_nan x) && negb (PrimFloat.is_infinity x).

(** The rational number a finite binary64 value stands for. *)
Definition exact64 (x : float) : Q :=
  match Prim2SF x with
  | S754_finite s m e => (inject_Z (cond_Zopp s (Z.pos m)) * Qpower 2 e)%Q
  | _ => 0%Q
  end.

(** The shoelace sum of a polygon of finite binary64 points, twice its
    signed area, without rounding. *)
Definition shoelace64 (pts : list Binary64.point) : Q :=
  match pts with
  | [] => 0%Q
  | p0 :: rest =>
      fold_right
        (fun e acc =>
           (exact64 e.1.1 * exact64 e.2.2 - exact64 e.2.1 * exact64 e.1.2
            + acc)%Q)
        0%Q (zip pts (rest ++ [p0]))
  end.

(** A contour of at least three points. *)
Definition longEnough (c : list point) : Prop := (3 <= length c)%nat.

(** What [pushContour] makes of a contour: its polygon, if the contour has
    at least 3 points and [primitives.polygon] does not throw on it. *)
Definition contourPolygon (jscad : Modeling) (pts : list point)
    : option (geom2 jscad) :=
  if (3 <=? length pts)%nat then polygon jscad pts else None.

(** A modeling library whose [primitives.polygon] accepts every outline of
    at least 3 points. *)
Definition acceptsOutlines (jscad : Modeling) : Prop :=
  forall pts : list point, (3 <= length pts)%nat -> is_Some (polygon jscad pts).

(** The width a glyph takes: its advance width, or 0.6 of the size when
    that is missing or 0. *)
Definition glyphAdvance (size : R) (glyph : Glyph) : R :=
  match advanceWidth glyph with
  | Some w => orElse w (size * (6 / 10))
  | None => size * (6 / 10)
  end.

(** The way the pen moves on after a glyph: by the width of the glyph and,
    before another glyph, by the kerning between the two, both scaled. *)
Definition penStep (font : Font) (size scale : R) (glyph : Glyph)
    (rest : list Glyph) : R :=
  match rest with
  | next :: _ =>
      glyphAdvance size glyph * scale + getKerningValue font glyph next * scale
  | [] => glyphAdvance size glyph * scale
  end.

(** The polygons of a run of glyphs, each with the position of the pen at
    its glyph, the pen starting at [pen]. *)
Fixpoint placedPolygons (jscad : Modeling) (font : Font) (size scale : R)
    (glyphs : list Glyph) (pen : R) : list (geom2 jscad * R) :=
  match glyphs with
  | [] => []
  | glyph :: rest =>
      map (fun poly => (poly, pen))
          (omap (contourPolygon jscad)
                (Geometry.pathToContours (getPath glyph 0 0 size) scale))
      ++ placedPolygons jscad font size scale rest
           (pen + penStep font size scale glyph rest)
  end.

(** The width of a run of glyphs. *)
Fixpoint runWidth (font : Font) (size scale : R) (glyphs : list Glyph) : R :=
  match glyphs with
  | [] => 0
  | glyph :: rest =>
      penStep font size scale glyph rest + runWidth font size scale rest
  end.

(** A text rendered: nothing for a blank text or a text none of whose
    contours becomes a polygon; otherwise the polygons of its glyphs, each
    extruded by [height] and moved to its pen position, the run centred on
    [centerX], at [centerY] and at height [z]; one solid as it is, several
    as their union. *)
Definition textSolid (jscad : Modeling) (font : Font) (text : jsstring)
    (size z height centerX centerY : R) : option geom :=
  if bool_decide (trim text = []) then None
  else
    let scale := size / unitsPerEm font in
    let glyphs := stringToGlyphs font text in
    let startX := centerX - runWidth font size scale glyphs / 2 in
    match map (fun '(poly, offsetX) =>
                 translate jscad (startX + offsetX, centerY, z)
                           (extrudeLinear jscad height poly))
              (placedPolygons jscad font size scale glyphs 0) with
    | [] => None
    | [solid] => Some solid
    | solids => Some (union jscad solids)
    end.

(** The characters of a string: a high surrogate followed by a low one is
    one character of two code units, any other code unit a character by
    itself. *)
Definition isHighSurrogate (c : N) : bool :=
  ((55296 <=? c) && (c <=? 56319))%N.

Definition isLowSurrogate (c : N) : bool :=
  ((56320 <=? c) && (c <=? 57343))%N.

Fixpoint characters (s : jsstring) : list jsstring :=
  match s with
  | [] => []
  | c :: s' =>
      match s' with
      | c' :: s'' =>
          if isHighSurrogate c && isLowSurrogate c'
          then [c; c'] :: characters s''
          else [c] :: characters s'
      | [] => [[c]]
      end
  end.

(** The first [n] characters of a string. *)
Definition firstCharacters (n : nat) (s : jsstring) : jsstring :=
  concat (take n (characters s)).

(** A region without geometry: the Region Map holds [null] for it, or
    nothing. *)
Definition absent (geometries : gmap string (option geom)) (rid : string)
    : Prop :=
  geometries !! rid = Some None \/ geometries !! rid = None.

(** A region that has a geometry. *)
Definition present (geometries : gmap string (option geom))
    (region : Viewer.Region) : bool :=
  match geometries !! Viewer.region_id region with
  | Some (Some _) => true
  | _ => false
  end.

(** The export file name of a region:
    [<design-identifier>__<region-identifier>.stl]. *)
Definition stlName (design : StlExporter.Design) (rid : string) : string :=
  (StlExporter.design_id design ++ "__" ++ rid ++ ".stl")%string.

End Notions.

(** ** Further notions *)

Module Vocabulary.

Import Geometry Viewer StlExporter Notions.

Local Open Scope R_scope.

(** The mirror image of a point in the vertical centre line of the
    100 mm wide design, x = 50. *)
Definition mirror (p : point) : point := (100 - p.1, p.2).

(** A state of the path loop with contours [pre] emitted before its own. *)
Definition prefixed (pre : list (list point)) (st : pathState) : pathState :=
  {| contours := pre ++ contours st; current := current st;
     cx := cx st; cy := cy st |}.

(** The control points of the cubic that draws the quadratic with control
    points [p0], [p1], [p2] (degree elevation). *)
Definition elevate (p0 p1 : point) : point :=
  ((p0.1 + 2 * p1.1) / 3, (p0.2 + 2 * p1.2) / 3).

(** A point inside the axis-parallel box from [lo] to [hi]. *)
Definition inBox (lo hi p : point) : Prop :=
  lo.1 <= p.1 <= hi.1 /\ lo.2 <= p.2 <= hi.2.


(** A corner walked the other way round. *)
Definition flipCorner (c : point * point * point) : point * point * point :=
  (c.2, c.1.2, c.1.1).

(** The polygons of the glyphs of a text, in reading order. *)
Definition textPolygons (jscad : Modeling) (font : Font) (size scale : R)
    (text : jsstring) : list (geom2 jscad) :=
  flat_map (fun glyph =>
              omap (contourPolygon jscad)
                   (pathToContours (getPath glyph 0 0 size) scale))
           (stringToGlyphs font text).

(** The style and the trim switch [generate] works with: the fields of the
    inputs after their defaults. *)
Definition styleOf (inputs : Inputs) : value :=
  withDefault (jerseyStyle inputs) (VStr (js "NBA Modern")).

Definition trimWanted (inputs : Inputs) : bool :=
  truthy (withDefault (showTrim inputs) (VBool true)).

(** A face all of whose vertices have a shape [pushVertex] knows. *)
Definition knownFace (poly : face) : Prop :=
  match vertices poly with
  | Some verts => Forall knownShape verts
  | None => True
  end.

(** A buffer of whole vertices: its length is a multiple of 3. *)
Definition wholeVertices (positions : list R) : Prop :=
  (length positions mod 3 = 0)%nat.

(** The colour [loadGeometries] gives the mesh of a region, and the mesh it
    builds for it, if the region has a geometry. *)
Definition regionColor (colorMap : gmap string string) (region : Region)
    : string :=
  strOr (colorMap !! region_id region)
        (strOr (region_default region) "#888888").

Definition regionMesh (geometries : gmap string (option geom))
    (colorMap : gmap string string) (region : Region) : option Mesh :=
  match geometries !! region_id region with
  | Some (Some jscadGeom) =>
      Some {| mesh_positions := jscadToThreeGeometry jscadGeom;
              mesh_color := regionColor colorMap region |}
  | _ => None
  end.

(** The colour regions that carry a given identifier. *)
Definition regionsNamed (rid : string) (colorRegions : list Region)
    : list Region :=
  List.filter (fun region => bool_decide (region_id region = rid)) colorRegions.

(** The mesh a closure holds for a region identifier. *)
Definition meshOf (st : ViewerApi.Closure) (rid : string) : option Mesh :=
  ViewerApi.meshMap st !! rid ≫= fun mesh => ViewerApi.modelGroup st !! mesh.

(** A closure seen as a scene: each identifier with its mesh. *)
Definition sceneOf (st : ViewerApi.Closure) : Scene :=
  {| meshMap := omap (fun mesh => ViewerApi.modelGroup st !! mesh)
                     (ViewerApi.meshMap st);
     modelGroup := ViewerApi.modelGroup st |}.

(** The states the viewer goes through: the initial one, and those that
    [loadGeometries] and [setRegionColor] lead to. *)
Inductive reachable : ViewerApi.Closure -> Prop :=
| reach_init : reachable ViewerApi.initViewer
| reach_load (st : ViewerApi.Closure) (geometries : gmap string (option geom))
    (colorRegions : list Region) (colorMap : gmap string string) :
    reachable st ->
    reachable (ViewerApi.loadGeometries st geometries colorRegions colorMap)
| reach_color (st : ViewerApi.Closure) (regionId hex : string) :
    reachable st -> reachable (ViewerApi.setRegionColor st regionId hex).

(** Every identifier names a mesh of the group, and no two the same one. *)
Definition wellKept (st : ViewerApi.Closure) : Prop :=
  forall (rid : string) (mesh : nat),
    ViewerApi.meshMap st !! rid = Some mesh ->
    (mesh < length (ViewerApi.modelGroup st))%nat
    /\ forall rid' : string,
         ViewerApi.meshMap st !! rid' = Some mesh -> rid' = rid.

End Vocabulary.

(** ** The binary mesh format *)

Module StlFormat.

(** Modelled from the spec: the binary serializer.  The exporter calls
    [serialize] of [@jscad/stl-serializer], imported at run time from a CDN;
    its code is not part of the repository.  Section 6 of the specification
    fixes the layout: an 80-byte header, the triangle count as an unsigned
    32-bit little-endian integer, then 50 bytes per triangle (a face normal
    and three vertices of three float32 each, and 2 bytes of padding).  A
    float32 is kept as its 32-bit pattern. *)
Record vec3 : Type := { vx : N; vy : N; vz : N }.

Record triangle : Type := {
  normal : vec3;
  vertexA : vec3;
  vertexB : vec3;
  vertexC : vec3;
}.

Definition byteOf (n : N) : byte :=
  default x00 (Byte.of_N (n mod 256)).

(** A 32-bit word, least significant byte first. *)
Definition u32le (w : N) : list byte :=
  [ byteOf w; byteOf (w / 256); byteOf (w / 65536); byteOf (w / 16777216) ].

Definition vec3Bytes (v : vec3) : list byte :=
  u32le (vx v) ++ u32le (vy v) ++ u32le (vz v).

Definition triangleBytes (t : triangle) : list byte :=
  vec3Bytes (normal t) ++ vec3Bytes (vertexA t) ++ vec3Bytes (vertexB t)
  ++ vec3Bytes (vertexC t) ++ [x00; x00].

Definition headerBytes : list byte := repeat x00 80.

Definition countBytes (mesh : list triangle) : list byte :=
  u32le (N.of_nat (length mesh)).

Definition bodyBytes (mesh : list triangle) : list byte :=
  flat_map triangleBytes mesh.

(** Modelled from the spec: the buffer the binary serializer produces for a
    mesh, which is missing from the repository: header, count, triangle
    records. *)
Definition stlBytes (mesh : list triangle) : list byte :=
  headerBytes ++ countBytes mesh ++ bodyBytes mesh.

(** Reading the format back. *)
Definition readU32le (bs : list byte) : N :=
  match bs with
  | b0 :: b1 :: b2 :: b3 :: _ =>
      (Byte.to_N b0 + 256 * Byte.to_N b1 + 65536 * Byte.to_N b2
       + 16777216 * Byte.to_N b3)%N
  | _ => 0%N
  end.

Definition readVec3 (bs : list byte) : vec3 :=
  {| vx := readU32le bs;
     vy := readU32le (drop 4 bs);
     vz := readU32le (drop 8 bs) |}.

Definition readTriangle (bs : list byte) : triangle :=
  {| normal := readVec3 bs;
     vertexA := readVec3 (drop 12 bs);
     vertexB := readVec3 (drop 24 bs);
     vertexC := readVec3 (drop 36 bs) |}.

Fixpoint readTriangles (n : nat) (bs : list byte) : list triangle :=
  match n with
  | O => []
  | S n' => readTriangle bs :: readTriangles n' (drop 50 bs)
  end.

(** The triangle count and the triangles of a buffer. *)
Definition parseStl (bs : list byte) : N * list triangle :=
  let count := readU32le (drop 80 bs) in
  (count, readTriangles (N.to_nat count) (drop 84 bs)).

(** Words that fit 32 bits, and a triangle count that does. *)
Definition word32 (w : N) : Prop := (w < 4294967296)%N.

Definition vec3Ok (v : vec3) : Prop :=
  word32 (vx v) /\ word32 (vy v) /\ word32 (vz v).

Definition triangleOk (t : triangle) : Prop :=
  vec3Ok (normal t) /\ vec3Ok (vertexA t) /\ vec3Ok (vertexB t)
  /\ vec3Ok (vertexC t).

Definition meshOk (mesh : list triangle) : Prop :=
  word32 (N.of_nat (length mesh)) /\ Forall triangleOk mesh.

(** Modelled from the spec: [serialize] of the missing package, handing the
    buffer over as one ArrayBuffer; [toMesh] is its triangulation of the
    solids and their rounding to float32. *)
Definition wholeSerializer (toMesh : list geom -> list triangle)
    : StlExporter.Serializer :=
  fun solids => StlExporter.RawBuffer (stlBytes (toMesh solids)).

(** Modelled from the spec: [serialize] of the missing package, handing the
    same bytes over the way [@jscad/stl-serializer] 2.1.14 does for binary
    output and the way the comment in [exportRegionSTL] says ("rawData is an
    array of ArrayBuffers"): the header, the count and the triangle records
    as three ArrayBuffers, for a Blob to join. *)
Definition chunkedSerializer (toMesh : list geom -> list triangle)
    : StlExporter.Serializer :=
  fun solids =>
    StlExporter.RawArray
      [ headerBytes; countBytes (toMesh solids); bodyBytes (toMesh solids) ].

End StlFormat.

(** ** An environment to run the program in *)

Module Example.

Local Open Scope R_scope.

(** Upper-casing of the ASCII letters; no number is printed by the
    examples. *)
Definition asciiUpper (c : N) : N :=
  if ((97 <=? c) && (c <=? 122))%N then (c - 32)%N else c.

#[export] Instance builtins : Builtins := {|
  numberToString := fun _ => js "0";
  toUpperCase := map asciiUpper;
|}.

(** Upper-casing of the ASCII letters and of U+00DF, the sharp s, whose
    upper case is the two letters SS. *)
Definition upperSharpS (s : jsstring) : jsstring :=
  flat_map (fun c : N => if (c =? 223)%N then [83; 83]%N else [asciiUpper c]) s.

Definition builtinsSharpS : Builtins := {|
  numberToString := fun _ => js "0";
  toUpperCase := upperSharpS;
|}.

(** A face of five vertices, the third of a shape [pushVertex] does not
    know. *)
Definition holedFace : face :=
  {| vertices := Some [VertexArray 0 0 0; VertexArray 1 0 0; VertexOther;
                       VertexArray 1 1 0; VertexArray 0 1 0] |}.

(** A modeling library that keeps outlines as they are: a polygon needs 3
    points; a prism is its bottom and top face. *)
Definition cap (z : R) (pts : list point) : face :=
  {| vertices := Some (map (fun p : point => VertexArray p.1 p.2 z) pts) |}.

Definition modeling : Modeling := {|
  geom2 := list point;
  polygon := fun pts => if (3 <=? length pts)%nat then Some pts else None;
  extrudeLinear := fun h pts => Geom3 (Some [cap 0 pts; cap h pts]);
  translate := fun _ g => g;
  union := GeomArray;
  subtract := fun outer _ => outer;
|}.

(** A font whose every glyph is the same triangle. *)
Definition glyph : Glyph := {|
  advanceWidth := Some 500;
  getPath := fun _ _ size =>
    [CmdM 0 0; CmdL size 0; CmdL 0 size; CmdZ];
|}.

Definition font : Font := {|
  unitsPerEm := 1000;
  stringToGlyphs := map (fun _ => glyph);
  getKerningValue := fun _ _ => 0;
|}.

(** Inputs with a blank number, an empty name and no trim. *)
Definition blankInputs : Geometry.Inputs := {|
  Geometry.playerName := VStr (js "");
  Geometry.number := VStr (js "  ");
  Geometry.jerseyStyle := VUndefined;
  Geometry.showTrim := VBool false;
  Geometry.baseThickness := None;
|}.

End Example.

(* ===================================================================== *)
(** * Part II: the properties                                             *)
(* ===================================================================== *)

Import Geometry Viewer StlExporter Notions StlFormat.

(** ** Silhouette Generator *)

Open Scope R_scope.

Lemma styleIs_false (style : value) (name : string) :
  style <> VStr (js name) -> styleIs style name = false.
Proof.
  intros Hne. destruct style as [| | b | r | s]; try reflexivity.
  simpl. apply bool_decide_eq_false. intros ->. now apply Hne.
Qed.

(** The three tests of the style selector, case by case. *)
Ltac style_cases style :=
  destruct (styleIs style "Retro"), (styleIs style "College"),
    (styleIs style "NBA Modern").

(** Areas and windings of explicit polygons are sums of products. *)
Ltac unfold_shoelace :=
  unfold clockwise, counterclockwise, area, signedArea, shoelace, edges, cross.

(** [jerseyPoints] is the outline of the five dimensions its style
    selects. *)
Lemma jerseyPoints_outline (style : value) :
  jerseyPoints style =
  outline (if styleIs style "Retro" then 18 else 14)
          (if styleIs style "College" then 22 else 18)
          (if styleIs style "Retro" then 30 else 24)
          (if styleIs style "NBA Modern" then 20 else 16)
          (if styleIs style "NBA Modern" then 12 else 10).
Proof.
  unfold jerseyPoints, outline.
  repeat (f_equal; try lra).
Qed.

(** C7.  A style selector that is none of 'NBA Modern', 'College' and
    'Retro' (another string, or a value that is no string) makes
    [jerseyPoints] return the outline of the default tuple: shoulder drop 14,
    armhole width 18, armhole depth 24, collar width 16, collar depth 10.
    The function is total: nothing is thrown. *)
Theorem jerseyPoints_unknown_style (style : value) :
  style <> VStr (js "NBA Modern") ->
  style <> VStr (js "College") ->
  style <> VStr (js "Retro") ->
  jerseyPoints style = outline 14 18 24 16 10.
Proof.
  intros Hn Hc Hr. rewrite jerseyPoints_outline.
  now rewrite !styleIs_false by assumption.
Qed.

Lemma jerseyPoints_unknown_style_witness :
  jerseyPoints (VStr (js "Streetball")) = outline 14 18 24 16 10 /\
  jerseyPoints (VNum 7) = outline 14 18 24 16 10 /\
  jerseyPoints VUndefined = outline 14 18 24 16 10.
Proof.
  repeat split; apply jerseyPoints_unknown_style;
    (discriminate || (intros H; vm_compute in H; discriminate H)).
Defined.

(** The documented difference between the styles: the shoulder drop is 18
    for 'Retro' and 14 for 'NBA Modern'. *)
Lemma jerseyPoints_retro_modern :
  jerseyPoints (VStr (js "Retro")) = outline 18 18 30 16 10 /\
  jerseyPoints (VStr (js "NBA Modern")) = outline 14 18 24 20 12 /\
  jerseyPoints (VStr (js "College")) = outline 14 22 24 16 10.
Proof.
  repeat split; rewrite jerseyPoints_outline; reflexivity.
Qed.

(** C2.  For every style selector [jerseyPoints] returns 13 points, the
    first being the bottom-left corner (0,0); as a function it gives the same
    points for the same selector.  The sequence runs along the bottom edge to
    the right and up the right side: in the frame of the design (origin
    bottom-left, y upwards) its signed area is positive, so it is ordered
    counter-clockwise, not clockwise as the comment in the source says. *)
Theorem jerseyPoints_thirteen_points_counterclockwise (style : value) :
  length (jerseyPoints style) = 13%nat
  /\ jerseyPoints style !! 0%nat = Some (0, 0)
  /\ counterclockwise (jerseyPoints style)
  /\ ~ clockwise (jerseyPoints style).
Proof.
  split; [reflexivity|]. split; [reflexivity|].
  assert (Hccw : counterclockwise (jerseyPoints style)).
  { unfold jerseyPoints. unfold_shoelace. style_cases style; simpl; lra. }
  split; [exact Hccw|].
  unfold clockwise, counterclockwise in *. lra.
Qed.

(** The signed areas of the three styles and of the default outline. *)
Lemma jerseyPoints_signed_area :
  signedArea (jerseyPoints (VStr (js "NBA Modern"))) = 11256 /\
  signedArea (jerseyPoints (VStr (js "College"))) = 11224 /\
  signedArea (jerseyPoints (VStr (js "Retro"))) = 11192 /\
  signedArea (outline 14 18 24 16 10) = 11336.
Proof.
  repeat split; rewrite ?jerseyPoints_outline;
    unfold outline; unfold_shoelace; simpl; lra.
Qed.

(** ** Curve Sampler *)

Lemma sampleCubic_bezier (x0 y0 x1 y1 x2 y2 x3 y3 : R) (steps : nat) :
  sampleCubic x0 y0 x1 y1 x2 y2 x3 y3 steps =
  map (fun i : nat =>
         bezier3 (x0, y0) (x1, y1) (x2, y2) (x3, y3) (INR i / INR steps))
      (seq 1 steps).
Proof.
  unfold sampleCubic. apply map_ext. intros i.
  unfold bezier3, bezier2, lerp. simpl. f_equal; ring.
Qed.

Lemma sampleQuadratic_bezier (x0 y0 x1 y1 x2 y2 : R) (steps : nat) :
  sampleQuadratic x0 y0 x1 y1 x2 y2 steps =
  map (fun i : nat => bezier2 (x0, y0) (x1, y1) (x2, y2) (INR i / INR steps))
      (seq 1 steps).
Proof.
  unfold sampleQuadratic. apply map_ext. intros i.
  unfold bezier2, lerp. simpl. f_equal; ring.
Qed.

Lemma last_map_seq {A : Type} (f : nat -> A) (n : nat) :
  last (map f (seq 1 (S n))) = Some (f (S n)).
Proof.
  rewrite seq_S, map_app. simpl. now rewrite last_snoc.
Qed.

(** The curve starts at its first control point and ends at its last. *)
Lemma bezier_ends (p0 p1 p2 p3 : point) :
  bezier3 p0 p1 p2 p3 0 = p0 /\ bezier3 p0 p1 p2 p3 1 = p3 /\
  bezier2 p0 p1 p2 0 = p0 /\ bezier2 p0 p1 p2 1 = p2.
Proof.
  destruct p0, p1, p2, p3. unfold bezier3, bezier2, lerp. simpl.
  repeat split; f_equal; ring.
Qed.

(** C4.  With the fixed step count 8, [sampleCubic] and [sampleQuadratic]
    return exactly 8 points, the standard parametric Bezier evaluation at
    t = i/8 for i = 1..8: the sample at t = 0, the start point, is not in
    the list, and the last element is the end point of the segment. *)
Theorem curve_sampler_spec (x0 y0 x1 y1 x2 y2 x3 y3 : R) :
  (sampleCubic x0 y0 x1 y1 x2 y2 x3 y3 BEZIER_STEPS =
     map (fun i : nat =>
            bezier3 (x0, y0) (x1, y1) (x2, y2) (x3, y3) (INR i / 8))
         [1; 2; 3; 4; 5; 6; 7; 8]%nat
   /\ length (sampleCubic x0 y0 x1 y1 x2 y2 x3 y3 BEZIER_STEPS) = 8%nat
   /\ last (sampleCubic x0 y0 x1 y1 x2 y2 x3 y3 BEZIER_STEPS) = Some (x3, y3))
  /\
  (sampleQuadratic x0 y0 x1 y1 x2 y2 BEZIER_STEPS =
     map (fun i : nat => bezier2 (x0, y0) (x1, y1) (x2, y2) (INR i / 8))
         [1; 2; 3; 4; 5; 6; 7; 8]%nat
   /\ length (sampleQuadratic x0 y0 x1 y1 x2 y2 BEZIER_STEPS) = 8%nat
   /\ last (sampleQuadratic x0 y0 x1 y1 x2 y2 BEZIER_STEPS) = Some (x2, y2)).
Proof.
  assert (H8 : INR BEZIER_STEPS = 8) by (unfold BEZIER_STEPS; simpl; lra).
  split.
  - rewrite sampleCubic_bezier, H8. split; [reflexivity|]. split.
    + now rewrite length_map, length_seq.
    + unfold BEZIER_STEPS. rewrite last_map_seq. f_equal.
      replace (INR 8 / 8) with 1 by (simpl; lra).
      apply bezier_ends.
  - rewrite sampleQuadratic_bezier, H8. split; [reflexivity|]. split.
    + now rewrite length_map, length_seq.
    + unfold BEZIER_STEPS. rewrite last_map_seq. f_equal.
      replace (INR 8 / 8) with 1 by (simpl; lra).
      apply (bezier_ends (x0, y0) (x1, y1) (x2, y2) (x2, y2)).
Qed.

Close Scope R_scope.

(** ** Mesh Merger: fan triangulation *)

Lemma pushVertex_known (arr : list R) (v : vertex) :
  knownShape v -> pushVertex arr v = arr ++ coords v.
Proof. destruct v; try reflexivity. intros Hk. now destruct Hk. Qed.

Lemma coords_length (v : vertex) :
  knownShape v -> length (coords v) = 3.
Proof. destruct v; try reflexivity. intros Hk. now destruct Hk. Qed.

Lemma vertexAt_middle (pre suf : list vertex) (v : vertex) :
  vertexAt (pre ++ v :: suf) (length pre) = v.
Proof.
  unfold vertexAt. now rewrite list_lookup_middle.
Qed.

(** A vertex of a shape [pushVertex] does not know adds nothing, like a
    vertex without coordinates. *)
Lemma pushVertex_coords (arr : list R) (v : vertex) :
  pushVertex arr v = arr ++ coords v.
Proof. destruct v; try reflexivity. cbn. now rewrite app_nil_r. Qed.

(** The loop from index [length pre + 1] on appends the fan over the
    vertices not yet visited. *)
Lemma fan_loop_coords (v0 : vertex) (suf pre : list vertex)
    (positions : list R) :
  fold_left (fanStep (v0 :: pre ++ suf))
            (seq (S (length pre)) (length suf - 1)) positions =
  positions ++ flat_map triangleCoords (fanFrom v0 suf).
Proof.
  revert pre positions.
  induction suf as [|a suf IH]; intros pre positions.
  - simpl. now rewrite app_nil_r.
  - destruct suf as [|b suf].
    + simpl. now rewrite app_nil_r.
    + replace (length (a :: b :: suf) - 1) with (S (length (b :: suf) - 1))
        by (simpl; lia).
      rewrite <- cons_seq. cbn [fold_left].
      assert (Hstep : fanStep (v0 :: pre ++ a :: b :: suf) positions
                        (S (length pre))
                      = positions ++ triangleCoords (v0, a, b)).
      { unfold fanStep.
        assert (H0 : vertexAt (v0 :: pre ++ a :: b :: suf) 0 = v0)
          by reflexivity.
        assert (Ha : vertexAt (v0 :: pre ++ a :: b :: suf) (S (length pre)) = a).
        { apply (vertexAt_middle (v0 :: pre) (b :: suf) a). }
        assert (Hb : vertexAt (v0 :: pre ++ a :: b :: suf)
                       (S (length pre) + 1) = b).
        { replace (S (length pre) + 1) with (length (v0 :: pre ++ [a]))
            by (simpl; rewrite length_app; simpl; lia).
          replace (v0 :: pre ++ a :: b :: suf)
            with ((v0 :: pre ++ [a]) ++ b :: suf)
            by (simpl; now rewrite <- app_assoc).
          apply vertexAt_middle. }
        rewrite H0, Ha, Hb, !pushVertex_coords.
        simpl. now rewrite <- !app_assoc. }
      rewrite Hstep.
      specialize (IH (pre ++ [a]) (positions ++ triangleCoords (v0, a, b))).
      replace (v0 :: (pre ++ [a]) ++ b :: suf)
        with (v0 :: pre ++ a :: b :: suf) in IH
        by (now rewrite <- app_assoc).
      replace (S (length (pre ++ [a]))) with (S (S (length pre))) in IH
        by (rewrite length_app; simpl; lia).
      rewrite IH.
      change (fanFrom v0 (a :: b :: suf))
        with ((v0, a, b) :: fanFrom v0 (b :: suf)).
      cbn [flat_map]. now rewrite <- app_assoc.
Qed.

Lemma fan_loop (v0 : vertex) (suf pre : list vertex) (positions : list R) :
  Forall knownShape (v0 :: pre ++ suf) ->
  fold_left (fanStep (v0 :: pre ++ suf))
            (seq (S (length pre)) (length suf - 1)) positions =
  positions ++ flat_map triangleCoords (fanFrom v0 suf).
Proof. intros _. apply fan_loop_coords. Qed.

(** A face adds the coordinates of its fan, whatever its number of vertices
    and their shapes; so does a list of faces. *)
Lemma pushFace_fan (positions : list R) (poly : face) :
  pushFace positions poly =
  positions ++ flat_map triangleCoords (faceTriangles poly).
Proof.
  unfold faceTriangles, pushFace.
  destruct (vertices poly) as [verts|]; [|now rewrite app_nil_r].
  destruct (length verts <? 3) eqn:E.
  - apply Nat.ltb_lt in E.
    destruct verts as [|v0 [|v1 [|v2 verts]]]; try (simpl in E; lia);
      cbn; now rewrite app_nil_r.
  - apply Nat.ltb_ge in E. destruct verts as [|v0 rest]; [simpl in E; lia|].
    replace (length (v0 :: rest) - 2) with (length rest - 1)
      by (simpl; lia).
    apply (fan_loop_coords v0 rest [] positions).
Qed.

Lemma pushFace_faces (polys : list face) (positions : list R) :
  fold_left pushFace polys positions =
  positions
  ++ flat_map (fun poly => flat_map triangleCoords (faceTriangles poly)) polys.
Proof.
  revert positions. induction polys as [|poly polys IH]; intros positions.
  - cbn. now rewrite app_nil_r.
  - cbn [fold_left flat_map]. rewrite IH, pushFace_fan.
    now rewrite <- app_assoc.
Qed.

(** The triangles of the fan, one by one. *)
Lemma fanFrom_lookup (v0 : vertex) (rest : list vertex) (i : nat) :
  S i < length rest ->
  fanFrom v0 rest !! i =
  Some (v0, vertexAt (v0 :: rest) (i + 1), vertexAt (v0 :: rest) (i + 2)).
Proof.
  revert i. induction rest as [|a rest IH]; intros i Hi; [simpl in Hi; lia|].
  destruct rest as [|b rest]; [simpl in Hi; lia|].
  change (fanFrom v0 (a :: b :: rest))
    with ((v0, a, b) :: fanFrom v0 (b :: rest)).
  destruct i as [|i]; [reflexivity|].
  change (((v0, a, b) :: fanFrom v0 (b :: rest)) !! S i)
    with (fanFrom v0 (b :: rest) !! i).
  rewrite IH by (simpl in *; lia).
  unfold vertexAt. replace (S i + 1) with (S (i + 1)) by lia.
  replace (S i + 2) with (S (i + 2)) by lia.
  replace (i + 1) with (S i) by lia. replace (i + 2) with (S (S i)) by lia.
  reflexivity.
Qed.

Lemma fanFrom_length (v0 : vertex) (rest : list vertex) :
  length (fanFrom v0 rest) = length rest - 1.
Proof.
  induction rest as [|a rest IH]; [reflexivity|].
  destruct rest as [|b rest]; [reflexivity|].
  change (fanFrom v0 (a :: b :: rest))
    with ((v0, a, b) :: fanFrom v0 (b :: rest)).
  simpl length in *. rewrite IH. lia.
Qed.

Lemma fanFrom_coords_length (v0 : vertex) (rest : list vertex) :
  Forall knownShape (v0 :: rest) ->
  length (flat_map triangleCoords (fanFrom v0 rest)) = 9 * (length rest - 1).
Proof.
  intros Hk. apply Forall_cons in Hk as [H0 Hk].
  induction rest as [|a rest IH]; [reflexivity|].
  destruct rest as [|b rest]; [reflexivity|].
  change (fanFrom v0 (a :: b :: rest))
    with ((v0, a, b) :: fanFrom v0 (b :: rest)).
  apply Forall_cons in Hk as [Ha Hk].
  pose proof Hk as Hk'. apply Forall_cons in Hk' as [Hb _].
  cbn [flat_map]. rewrite length_app, IH by assumption.
  unfold triangleCoords. rewrite !length_app.
  rewrite !coords_length by assumption. cbn [length]. lia.
Qed.

(** C5, as the code has it.  The position buffer of a solid is the
    coordinates of the fan triangles of its faces, face after face.  A face
    of n >= 3 vertices is fan-triangulated from its first vertex: n - 2
    triangles, the triangle at place i being (v0, v(i+1), v(i+2)); where
    every vertex has a shape [pushVertex] knows these are 9 (n - 2)
    coordinates.  A vertex of another shape adds no coordinate to the
    triangles it is part of.  A face of fewer than 3 vertices, or without a
    vertex list, has no triangle; a solid without a polygon list gives the
    empty buffer. *)
Theorem fan_triangulation :
  (forall polys : list face,
      jscadToThreeGeometry (Geom3 (Some polys)) =
      flat_map (fun poly => flat_map triangleCoords (faceTriangles poly)) polys)
  /\ (forall verts : list vertex,
         3 <= length verts ->
         faceTriangles {| vertices := Some verts |} = fanTriangles verts
         /\ length (fanTriangles verts) = length verts - 2
         /\ (forall i : nat,
               i < length verts - 2 ->
               fanTriangles verts !! i =
               Some (vertexAt verts 0, vertexAt verts (i + 1),
                     vertexAt verts (i + 2)))
         /\ (Forall knownShape verts ->
             length (flat_map triangleCoords (fanTriangles verts)) =
             9 * (length verts - 2)))
  /\ (forall v : vertex, knownShape v \/ coords v = [])
  /\ (forall verts : list vertex,
         length verts < 3 ->
         faceTriangles {| vertices := Some verts |} = [])
  /\ faceTriangles {| vertices := None |} = []
  /\ jscadToThreeGeometry (Geom3 None) = [].
Proof.
  split; [|split; [|split; [|split; [|split]]]]; try reflexivity.
  - intros polys. cbn [jscadToThreeGeometry default from_option id].
    unfold Datatypes.id. now rewrite pushFace_faces.
  - intros verts Hlen. split; [reflexivity|].
    destruct verts as [|v0 rest]; [simpl in Hlen; lia|].
    cbn [fanTriangles]. split; [|split].
    + rewrite fanFrom_length. simpl. lia.
    + intros i Hi. apply fanFrom_lookup. simpl in Hi. lia.
    + intros Hk. rewrite fanFrom_coords_length by assumption. simpl. lia.
  - intros v. destruct v; (left; discriminate) || (right; reflexivity).
  - intros verts Hlen.
    destruct verts as [|v0 [|v1 [|v2 verts]]]; try reflexivity.
    simpl in Hlen. lia.
Qed.

(** A solid of a square face, a segment and a face without a vertex list:
    the square gives two triangles and 18 coordinates, the others none. *)
Lemma fan_triangulation_witness :
  jscadToThreeGeometry
    (Geom3 (Some [ {| vertices := Some [VertexArray 0 0 0; VertexArray 1 0 0;
                                        VertexArray 1 1 0; VertexArray 0 1 0] |};
                   {| vertices := Some [VertexArray 0 0 0; VertexArray 1 0 0] |};
                   {| vertices := None |} ]))
  = [0; 0; 0; 1; 0; 0; 1; 1; 0;  0; 0; 0; 1; 1; 0; 0; 1; 0]%R
  /\ length (flat_map triangleCoords
               (fanTriangles [VertexArray 0 0 0; VertexArray 1 0 0;
                              VertexArray 1 1 0; VertexArray 0 1 0]))
     = 9 * (4 - 2).
Proof.
  destruct fan_triangulation as (Hbuffer & Hfan & _).
  split.
  - rewrite Hbuffer. reflexivity.
  - apply Hfan; [simpl; lia|]. repeat constructor; discriminate.
Defined.

(** C5, as the claim states it, fails where a vertex has a shape that
    [pushVertex] does not know.  The face of [Example.holedFace] has 5
    vertices, the third of them of such a shape; the two triangles it is
    part of get 6 coordinates each, and the face adds 21 coordinates, not
    9 (5 - 2) = 27.  Read in threes, the buffer no longer holds the
    triangles of the fan. *)
Lemma fan_triangulation_skips_unknown_vertex :
  vertices Example.holedFace =
    Some [VertexArray 0 0 0; VertexArray 1 0 0; VertexOther;
          VertexArray 1 1 0; VertexArray 0 1 0]
  /\ jscadToThreeGeometry (Geom3 (Some [Example.holedFace])) =
     [0; 0; 0; 1; 0; 0;  0; 0; 0; 1; 1; 0;  0; 0; 0; 1; 1; 0; 0; 1; 0]%R
  /\ length (jscadToThreeGeometry (Geom3 (Some [Example.holedFace]))) = 21
  /\ 21 <> 9 * (5 - 2).
Proof. repeat split. lia. Qed.

(** ** Glyph Outline Extractor *)

Lemma flush_long (st : pathState) :
  Forall longEnough (contours st) -> Forall longEnough (flush st).
Proof.
  intros Hc. unfold flush.
  destruct (2 <? length (current st)) eqn:E; [|exact Hc].
  apply Forall_app. split; [exact Hc|].
  apply Forall_cons. split; [|constructor].
  apply Nat.ltb_lt in E. unfold longEnough. lia.
Qed.

Lemma flush_short (st : pathState) :
  length (current st) < 3 -> flush st = contours st.
Proof.
  intros Hs. unfold flush.
  destruct (2 <? length (current st)) eqn:E; [|reflexivity].
  apply Nat.ltb_lt in E. lia.
Qed.

Lemma pathStep_long (st : pathState) (cmd : command) :
  Forall longEnough (contours st) ->
  Forall longEnough (contours (pathStep st cmd)).
Proof.
  intros Hc. destruct cmd; simpl; auto using flush_long.
Qed.

Lemma path_loop_long (commands : list command) (st : pathState) :
  Forall longEnough (contours st) ->
  Forall longEnough (contours (fold_left pathStep commands st)).
Proof.
  revert st. induction commands as [|cmd commands IH]; intros st Hc;
    [exact Hc|].
  simpl. apply IH. now apply pathStep_long.
Qed.

(** C3, as the code has it.  Every contour [pathToContours] returns has at
    least 3 points, counted with repetition; a buffer of fewer than 3 points
    is dropped at a move command, at a close command and at the end of the
    path; and [buildText] makes no polygon of a contour of fewer than 3
    points. *)
Theorem contours_have_three_points :
  (forall (commands : list command) (scale : R),
      Forall (fun c => 3 <= length c) (pathToContours commands scale))
  /\ (forall (st : pathState) (x y : R),
         length (current st) < 3 ->
         contours (pathStep st (CmdM x y)) = contours st
         /\ contours (pathStep st CmdZ) = contours st
         /\ flush st = contours st)
  /\ (forall (jscad : Modeling) (cursorX : R)
             (allPolygons : list (geom2 jscad * R)) (pts : list point),
         length pts < 3 ->
         pushContour jscad cursorX allPolygons pts = allPolygons).
Proof.
  split; [|split].
  - intros commands scale. unfold pathToContours.
    apply flush_long, path_loop_long. constructor.
  - intros st x y Hs. simpl. now rewrite flush_short.
  - intros jscad cursorX allPolygons pts Hs. unfold pushContour.
    destruct (3 <=? length pts) eqn:E; [|reflexivity].
    apply Nat.leb_le in E. lia.
Qed.

(** A triangle is kept; a lone segment is dropped, by the move that follows
    it and at the end of the path. *)
Lemma contours_have_three_points_witness :
  pathToContours [CmdM 0 0; CmdL 4 0; CmdL 0 3; CmdZ; CmdM 9 9; CmdL 8 8] 1
  = [[(0, 0); (4, 0); (0, 3)]]%R
  /\ pathToContours [CmdM 0 0; CmdL 4 0; CmdM 9 9; CmdL 8 8; CmdL 7 9] 1
     = [[(9, 9); (8, 8); (7, 9)]]%R.
Proof.
  destruct contours_have_three_points as (_ & Hdrop & _).
  split; [reflexivity|].
  unfold pathToContours. cbn [fold_left].
  set (st := pathStep (pathStep pathInit (CmdM 0 0)) (CmdL 4 0)).
  assert (Hst : contours (pathStep st (CmdM 9 9)) = contours st).
  { apply (Hdrop st 9%R 9%R). simpl. lia. }
  reflexivity.
Defined.

(** C3, as the claim states it, fails: three points need not be three
    distinct points.  A hairline that runs to a point and back is returned as
    a contour of 3 points, only 2 of them distinct. *)
Lemma contour_of_two_distinct_points :
  pathToContours [CmdM 0 0; CmdL 10 0; CmdL 0 0; CmdZ] 1
    = [[(0, 0); (10, 0); (0, 0)]]%R
  /\ ~ threeDistinct [(0, 0); (10, 0); (0, 0)]%R
  /\ ~ Forall threeDistinct
        (pathToContours [CmdM 0 0; CmdL 10 0; CmdL 0 0; CmdZ] 1).
Proof.
  assert (Hnot : ~ threeDistinct [(0, 0); (10, 0); (0, 0)]%R).
  { intros (p & q & r & Hp & Hq & Hr & Hpq & Hqr & Hpr).
    simpl in Hp, Hq, Hr.
    destruct Hp as [<-|[<-|[<-|[]]]]; destruct Hq as [<-|[<-|[<-|[]]]];
      destruct Hr as [<-|[<-|[<-|[]]]];
      first [now apply Hpq | now apply Hqr | now apply Hpr]. }
  split; [reflexivity|]. split; [exact Hnot|].
  intros Hall. apply Hnot.
  change (pathToContours [CmdM 0 0; CmdL 10 0; CmdL 0 0; CmdZ] 1)
    with [[(0, 0); (10, 0); (0, 0)]]%R in Hall.
  now apply Forall_cons in Hall as [Hc _].
Qed.

(** ** Polygon Offsetter *)

Open Scope R_scope.

Lemma div_ok (x y : R) : y <> 0 -> div x y = Ok (x / y).
Proof. intros H. unfold div. now destruct (Req_dec_T y 0). Qed.

Lemma orElse_zero (d : R) : orElse 0 d = d.
Proof. unfold orElse. destruct (Req_dec_T 0 0); [reflexivity|lra]. Qed.

Lemma orElse_nonzero (x d : R) : x <> 0 -> orElse x d = x.
Proof. intros H. unfold orElse. now destruct (Req_dec_T x 0). Qed.

Lemma orElse_one_nonzero (x : R) : orElse x 1 <> 0.
Proof. unfold orElse. destruct (Req_dec_T x 0); [lra|assumption]. Qed.

(** What makes a division safe. *)
Create HintDb guards.
#[local] Hint Resolve orElse_one_nonzero : guards.

Lemma index_ok {A : Type} (arr : list A) (k : nat) (a : A) :
  arr !! k = Some a -> index arr (Z.of_nat k) = Ok a.
Proof.
  intros H. unfold index.
  destruct (Z.ltb_spec (Z.of_nat k) 0) as [Hneg|_]; [lia|].
  now rewrite Nat2Z.id, H.
Qed.

Lemma prev_index (i n : nat) :
  (0 < n)%nat ->
  Z.rem (Z.of_nat i - 1 + Z.of_nat n) (Z.of_nat n) = Z.of_nat ((i + n - 1) mod n).
Proof.
  intros Hn. rewrite Z.rem_mod_nonneg by lia.
  rewrite Nat2Z.inj_mod. f_equal. lia.
Qed.

Lemma next_index (i n : nat) :
  (0 < n)%nat ->
  Z.rem (Z.of_nat i + 1) (Z.of_nat n) = Z.of_nat ((i + 1) mod n).
Proof.
  intros Hn. rewrite Z.rem_mod_nonneg by lia.
  rewrite Nat2Z.inj_mod. f_equal. lia.
Qed.

(** With both neighbours at hand no division of the callback fails: its
    value is [offsetVertex]. *)
Lemma shrinkVertex_offset (points : list point) (amount : R) (i : nat)
    (p prev next : point) :
  points !! ((i + length points - 1) mod length points) = Some prev ->
  points !! ((i + 1) mod length points) = Some next ->
  shrinkVertex points amount i p = Ok (offsetVertex prev p next amount).
Proof.
  intros Hprev Hnext.
  assert (Hn : (0 < length points)%nat).
  { destruct points; [discriminate Hprev|simpl; lia]. }
  unfold shrinkVertex.
  rewrite prev_index, next_index by exact Hn.
  rewrite (index_ok _ _ _ Hprev), (index_ok _ _ _ Hnext).
  cbn [mbind outcome_bind].
  rewrite !div_ok by auto with guards.
  cbn [mbind outcome_bind].
  rewrite !div_ok by auto with guards.
  reflexivity.
Qed.

Lemma mapWithIndex_ok {A B : Type} (f : nat -> A -> outcome B)
    (g : nat -> A -> B) (arr : list A) (i : nat) :
  (forall j a, arr !! j = Some a -> f (i + j)%nat a = Ok (g j a)) ->
  mapWithIndex f i arr = Ok (imap g arr).
Proof.
  revert i g. induction arr as [|a arr IH]; intros i g H; [reflexivity|].
  cbn [mapWithIndex].
  rewrite <- (Nat.add_0_r i) at 1.
  rewrite (H 0%nat a eq_refl). cbn [mbind outcome_bind].
  rewrite (IH (S i) (fun j => g (S j))).
  - reflexivity.
  - intros j b Hj. replace (S i + j)%nat with (i + S j)%nat by lia.
    now apply H.
Qed.

Lemma neighbour_lookup (points : list point) (k : nat) (p : point) :
  (0 < length points)%nat ->
  points !! (k mod length points)%nat = Some (neighbour points k p).
Proof.
  intros Hn. unfold neighbour.
  destruct (lookup_lt_is_Some_2 points (k mod length points)%nat) as [q Hq].
  - apply Nat.mod_upper_bound. lia.
  - now rewrite Hq.
Qed.

(** [shrinkPolygon] never fails: it returns [offsetPolygon]. *)
Lemma shrinkPolygon_offsetPolygon (points : list point) (amount : R) :
  shrinkPolygon points amount = Ok (offsetPolygon points amount).
Proof.
  unfold shrinkPolygon, offsetPolygon.
  apply mapWithIndex_ok. intros j p Hj. cbn [Nat.add].
  assert (Hn : (0 < length points)%nat).
  { apply lookup_lt_Some in Hj. lia. }
  apply shrinkVertex_offset; now apply neighbour_lookup.
Qed.

Lemma offsetPolygon_length (points : list point) (amount : R) :
  length (offsetPolygon points amount) = length points.
Proof. unfold offsetPolygon. apply length_imap. Qed.

Lemma rightNormal_same (p : point) : rightNormal p p = (0, 0).
Proof.
  unfold rightNormal. cbv zeta.
  replace (p.1 - p.1) with 0 by ring. replace (p.2 - p.2) with 0 by ring.
  replace (0 * 0 + - 0 * - 0) with 0 by ring.
  rewrite sqrt_0, orElse_zero. f_equal; field.
Qed.

Lemma rightNormal_reverse (a b : point) :
  rightNormal b a = (- (rightNormal a b).1, - (rightNormal a b).2).
Proof.
  unfold rightNormal. cbv zeta. cbn [fst snd].
  replace ((a.2 - b.2) * (a.2 - b.2) + - (a.1 - b.1) * - (a.1 - b.1))
    with ((b.2 - a.2) * (b.2 - a.2) + - (b.1 - a.1) * - (b.1 - a.1)) by ring.
  pose proof (orElse_one_nonzero
    (sqrt ((b.2 - a.2) * (b.2 - a.2) + - (b.1 - a.1) * - (b.1 - a.1)))) as Hl.
  f_equal; field; exact Hl.
Qed.

(** Where the polygon turns back on itself the two normals cancel, the
    zero-length bisector is divided by 1 and the vertex stays. *)
Lemma offsetVertex_spike (a p : point) (amount : R) :
  offsetVertex a p a amount = p.
Proof.
  unfold offsetVertex. cbv zeta.
  rewrite (rightNormal_reverse a p). cbn [fst snd].
  replace ((rightNormal a p).1 + - (rightNormal a p).1) with 0 by ring.
  replace ((rightNormal a p).2 + - (rightNormal a p).2) with 0 by ring.
  replace (0 * 0 + 0 * 0) with 0 by ring.
  rewrite sqrt_0, orElse_zero. destruct p as [x y]. cbn [fst snd].
  f_equal; field.
Qed.

Lemma sum_squares_zero (x y : R) : x * x + y * y = 0 -> x = 0 /\ y = 0.
Proof. intros H. split; nra. Qed.






Lemma rightNormal_formula (a b : point) (l : R) :
  0 < l ->
  l * l = (b.1 - a.1) * (b.1 - a.1) + (b.2 - a.2) * (b.2 - a.2) ->
  rightNormal a b = ((b.2 - a.2) / l, - (b.1 - a.1) / l).
Proof.
  intros Hl Hsq. unfold rightNormal. cbv zeta.
  replace ((b.2 - a.2) * (b.2 - a.2) + - (b.1 - a.1) * - (b.1 - a.1))
    with (l * l) by (rewrite Hsq; ring).
  rewrite sqrt_square by lra. rewrite orElse_nonzero by lra. reflexivity.
Qed.

Lemma offsetVertex_formula (prev p next : point) (d bx by_ lb : R) :
  (rightNormal prev p).1 + (rightNormal p next).1 = bx ->
  (rightNormal prev p).2 + (rightNormal p next).2 = by_ ->
  0 < lb ->
  lb * lb = bx * bx + by_ * by_ ->
  offsetVertex prev p next d = (p.1 + bx / lb * d, p.2 + by_ / lb * d).
Proof.
  intros Hx Hy Hl Hsq. unfold offsetVertex. cbv zeta.
  rewrite Hx, Hy, <- Hsq, sqrt_square by lra.
  now rewrite orElse_nonzero by lra.
Qed.

Lemma sqrt2_facts : 0 < sqrt 2 /\ sqrt 2 * sqrt 2 = 2.
Proof.
  split; [apply sqrt_lt_R0; lra|apply sqrt_sqrt; lra].
Qed.

Lemma two_over_sqrt2 : 2 / sqrt 2 = sqrt 2.
Proof.
  destruct sqrt2_facts as [Hpos Hsq].
  apply (Rmult_eq_reg_r (sqrt 2)); [|lra].
  rewrite Hsq. field. lra.
Qed.

(** At a corner of a diamond the two unit normals add up to a vector of
    length [sqrt 2] along an axis. *)
Lemma diamond_corner (prev p next : point) (r d sx sy : R) :
  0 < r ->
  (p.1 - prev.1) * (p.1 - prev.1) + (p.2 - prev.2) * (p.2 - prev.2) = 2 * (r * r) ->
  (next.1 - p.1) * (next.1 - p.1) + (next.2 - p.2) * (next.2 - p.2) = 2 * (r * r) ->
  (p.2 - prev.2) + (next.2 - p.2) = 2 * r * sx ->
  - (p.1 - prev.1) + - (next.1 - p.1) = 2 * r * sy ->
  sx * sx + sy * sy = 1 ->
  offsetVertex prev p next d = (p.1 + sx * d, p.2 + sy * d).
Proof.
  intros Hr H1 H2 Hx Hy Hs.
  destruct sqrt2_facts as [Hpos Hsq].
  assert (Hl : 0 < r * sqrt 2) by nra.
  assert (Hll : r * sqrt 2 * (r * sqrt 2) = 2 * (r * r)) by nra.
  rewrite (offsetVertex_formula prev p next d (sqrt 2 * sx) (sqrt 2 * sy) (sqrt 2)).
  - f_equal; field; lra.
  - rewrite (rightNormal_formula prev p (r * sqrt 2)) by (lra || nra).
    rewrite (rightNormal_formula p next (r * sqrt 2)) by (lra || nra).
    cbn [fst snd].
    replace ((p.2 - prev.2) / (r * sqrt 2) + (next.2 - p.2) / (r * sqrt 2))
      with (((p.2 - prev.2) + (next.2 - p.2)) / (r * sqrt 2)) by (field; lra).
    rewrite Hx. rewrite <- two_over_sqrt2 at 2. field. lra.
  - rewrite (rightNormal_formula prev p (r * sqrt 2)) by (lra || nra).
    rewrite (rightNormal_formula p next (r * sqrt 2)) by (lra || nra).
    cbn [fst snd].
    replace (- (p.1 - prev.1) / (r * sqrt 2) + - (next.1 - p.1) / (r * sqrt 2))
      with ((- (p.1 - prev.1) + - (next.1 - p.1)) / (r * sqrt 2)) by (field; lra).
    rewrite Hy. rewrite <- two_over_sqrt2 at 2. field. lra.
  - exact Hpos.
  - nra.
Qed.

Lemma offsetPolygon_diamondCW (r d : R) :
  0 < r -> offsetPolygon (diamondCW r) d = diamondCW (r - d).
Proof.
  intros Hr. unfold offsetPolygon, diamondCW.
  cbn [imap length Nat.add Nat.sub]. unfold neighbour, compose. cbn.
  rewrite (diamond_corner (0, r) (r, 0) (0, - r) r d (-1) 0) by (cbn; lra).
  rewrite (diamond_corner (r, 0) (0, - r) (- r, 0) r d 0 1) by (cbn; lra).
  rewrite (diamond_corner (0, - r) (- r, 0) (0, r) r d 1 0) by (cbn; lra).
  rewrite (diamond_corner (- r, 0) (0, r) (r, 0) r d 0 (-1)) by (cbn; lra).
  cbn [fst snd]. repeat (f_equal; try lra).
Qed.

Lemma offsetPolygon_diamondCCW (r d : R) :
  0 < r -> offsetPolygon (diamondCCW r) d = diamondCCW (r + d).
Proof.
  intros Hr. unfold offsetPolygon, diamondCCW.
  cbn [imap length Nat.add Nat.sub]. unfold neighbour, compose. cbn.
  rewrite (diamond_corner (0, - r) (r, 0) (0, r) r d 1 0) by (cbn; lra).
  rewrite (diamond_corner (r, 0) (0, r) (- r, 0) r d 0 1) by (cbn; lra).
  rewrite (diamond_corner (0, r) (- r, 0) (0, - r) r d (-1) 0) by (cbn; lra).
  rewrite (diamond_corner (- r, 0) (0, - r) (r, 0) r d 0 (-1)) by (cbn; lra).
  cbn [fst snd]. repeat (f_equal; try lra).
Qed.

Lemma area_diamondCW (r : R) : area (diamondCW r) = 2 * (r * r).
Proof.
  unfold diamondCW. unfold_shoelace. cbn.
  replace ((r * - r - 0 * 0 + (0 * 0 - - r * - r + (- r * r - 0 * 0 + (0 * 0 - r * r + 0)))) / 2)
    with (- (2 * (r * r))) by field.
  rewrite Rabs_Ropp. apply Rabs_pos_eq. nra.
Qed.


Lemma clockwise_diamondCW (r : R) : 0 < r -> clockwise (diamondCW r).
Proof.
  intros Hr. unfold diamondCW. unfold_shoelace. cbn. nra.
Qed.

(** A normal has length 1, or 0 for an edge of zero length. *)
Lemma rightNormal_norm (a b : point) :
  (rightNormal a b).1 * (rightNormal a b).1
  + (rightNormal a b).2 * (rightNormal a b).2 = 0
  \/ (rightNormal a b).1 * (rightNormal a b).1
     + (rightNormal a b).2 * (rightNormal a b).2 = 1.
Proof.
  unfold rightNormal. cbv zeta. cbn [fst snd].
  set (ex := b.1 - a.1). set (ey := b.2 - a.2).
  destruct (Req_dec_T (ey * ey + - ex * - ex) 0) as [Hz|Hnz].
  - left. rewrite Hz, sqrt_0, orElse_zero.
    assert (ey = 0 /\ ex = 0) as [-> ->] by (split; nra). field.
  - right.
    assert (Hpos : 0 < ey * ey + - ex * - ex) by nra.
    assert (Hs : 0 < sqrt (ey * ey + - ex * - ex)) by now apply sqrt_lt_R0.
    rewrite orElse_nonzero by lra.
    set (l := sqrt (ey * ey + - ex * - ex)) in *.
    assert (Hl : l * l = ey * ey + - ex * - ex) by (apply sqrt_sqrt; lra).
    replace (ey / l * (ey / l) + - ex / l * (- ex / l))
      with ((ey * ey + - ex * - ex) / (l * l)) by (field; lra).
    rewrite <- Hl. field. lra.
Qed.


Lemma unit_sum_facts (n1x n1y n2x n2y : R) :
  n1x * n1x + n1y * n1y = 1 ->
  n2x * n2x + n2y * n2y = 1 ->
  0 <= (n1x + n2x) * (n1x + n2x) + (n1y + n2y) * (n1y + n2y) <= 4
  /\ (n1x + n2x) * n1x + (n1y + n2y) * n1y =
     ((n1x + n2x) * (n1x + n2x) + (n1y + n2y) * (n1y + n2y)) / 2
  /\ (n1x + n2x) * n2x + (n1y + n2y) * n2y =
     ((n1x + n2x) * (n1x + n2x) + (n1y + n2y) * (n1y + n2y)) / 2.
Proof.
  intros H1 H2.
  assert (Hsum : 0 <= (n1x + n2x) * (n1x + n2x) + (n1y + n2y) * (n1y + n2y)).
  { apply Rplus_le_le_0_compat; apply Rle_0_sqr. }
  assert (Hdiff : 0 <= (n1x - n2x) * (n1x - n2x) + (n1y - n2y) * (n1y - n2y)).
  { apply Rplus_le_le_0_compat; apply Rle_0_sqr. }
  repeat split; lra.
Qed.


(** *** The area of the offset polygon, for small distances

    The offset polygon is the polygon plus d times a list of directions that
    does not depend on d, so its shoelace sum is a quadratic in d; the
    first-order coefficient is positive when the polygon encloses an area. *)

Lemma offsetVertex_move (prev p next : point) (d : R) :
  offsetVertex prev p next d = move d p (unitBisector (prev, p, next)).
Proof. reflexivity. Qed.

Lemma rotl_length (pts : list point) : length (rotl pts) = length pts.
Proof. destruct pts; [reflexivity|]. simpl. rewrite length_app. simpl. lia. Qed.

Lemma rotr_length (pts : list point) : length (rotr pts) = length pts.
Proof.
  destruct pts as [|p0 rest]; [reflexivity|].
  unfold rotr. rewrite removelast_firstn_len. cbn [length]. rewrite length_take. cbn [length]. simpl. lia.
Qed.

Lemma rotl_lookup (pts : list point) (i : nat) (p : point) :
  (i < length pts)%nat ->
  rotl pts !! i = Some (neighbour pts (i + 1) p).
Proof.
  intros Hi. destruct pts as [|p0 rest]; [simpl in Hi; lia|].
  unfold rotl, neighbour, point in *. cbn [length] in *.
  assert (Hi' : (i < S (length rest))%nat) by exact Hi.
  destruct (decide (i = length rest)) as [->|Hne].
  - rewrite lookup_app_r by lia. rewrite Nat.sub_diag.
    replace (length rest + 1)%nat with (S (length rest)) by lia.
    rewrite Nat.Div0.mod_same. reflexivity.
  - rewrite lookup_app_l by lia.
    rewrite Nat.mod_small by lia.
    replace (i + 1)%nat with (S i) by lia.
    change ((p0 :: rest) !! S i) with (rest !! i).
    assert (Hlt : (i < length rest)%nat) by lia.
    destruct (lookup_lt_is_Some_2 rest i Hlt) as [q Hq].
    now rewrite Hq.
Qed.

Lemma rotr_lookup (pts : list point) (i : nat) (p : point) :
  (i < length pts)%nat ->
  rotr pts !! i = Some (neighbour pts (i + length pts - 1) p).
Proof.
  intros Hi. destruct pts as [|p0 rest]; [simpl in Hi; lia|].
  unfold rotr, neighbour, point in *. set (pts := p0 :: rest) in *.
  assert (Hn : length pts = S (length rest)) by reflexivity.
  destruct i as [|j].
  - match goal with |- (?a :: _) !! 0%nat = _ => change (Some a = Some (default p (pts !! ((0 + length pts - 1) mod length pts)%nat))) end.
    rewrite last_lookup.
    replace (0 + length pts - 1)%nat with (Init.Nat.pred (length pts)) by lia.
    rewrite Nat.mod_small by lia.
    assert (Hlt : (Init.Nat.pred (length pts) < length pts)%nat) by lia.
    destruct (lookup_lt_is_Some_2 pts _ Hlt) as [q Hq].
    now rewrite Hq.
  - match goal with |- (?a :: _) !! S j = ?r => change (removelast pts !! j = r) end.
    rewrite removelast_firstn_len, lookup_take.
    replace (S j + length pts - 1)%nat with (j + 1 * length pts)%nat by lia.
    rewrite Nat.Div0.mod_add, Nat.mod_small by lia.
    assert (Hlt : (j < length pts)%nat) by lia.
    destruct (lookup_lt_is_Some_2 pts j Hlt) as [q Hq].
    rewrite Hq. destruct (decide _) as [_|Hge]; [reflexivity | lia].
Qed.

Lemma corners_rot (pts : list point) :
  corners pts = zip (zip (rotr pts) pts) (rotl pts).
Proof. destruct pts; reflexivity. Qed.

Lemma edges_rot (pts : list point) : edges pts = zip pts (rotl pts).
Proof. destruct pts; reflexivity. Qed.

Lemma corners_length (pts : list point) : length (corners pts) = length pts.
Proof.
  rewrite corners_rot, !length_zip_with, rotr_length, rotl_length. lia.
Qed.

Lemma corners_lookup (pts : list point) (i : nat) (p : point) :
  pts !! i = Some p ->
  corners pts !! i =
    Some (neighbour pts (i + length pts - 1) p, p, neighbour pts (i + 1) p).
Proof.
  intros Hp. pose proof (lookup_lt_Some _ _ _ Hp) as Hi.
  rewrite corners_rot.
  apply lookup_zip_with_Some. eexists _, _. split; [reflexivity|]. split.
  - apply lookup_zip_with_Some. eexists _, _. split; [reflexivity|].
    split; [now apply rotr_lookup | exact Hp].
  - now apply rotl_lookup.
Qed.

(** The offset polygon, corner by corner. *)
Lemma offsetPolygon_corners (pts : list point) (d : R) :
  offsetPolygon pts d =
    map (fun c => move d c.1.2 (unitBisector c)) (corners pts).
Proof.
  apply list_eq. intros i. unfold offsetPolygon.
  rewrite list_lookup_imap, list_lookup_fmap.
  destruct (pts !! i) as [p|] eqn:Hp.
  - rewrite (corners_lookup _ _ _ Hp). reflexivity.
  - apply lookup_ge_None in Hp.
    rewrite (proj2 (lookup_ge_None (corners pts) i)); [reflexivity|].
    rewrite corners_length. exact Hp.
Qed.

Lemma shoelace_sumCross (pts : list point) :
  shoelace pts = sumCross pts (rotl pts).
Proof. unfold shoelace. now rewrite edges_rot. Qed.

Lemma sumCross_cons (a b : point) (l m : list point) :
  sumCross (a :: l) (b :: m) = cross a b + sumCross l m.
Proof. reflexivity. Qed.

Lemma sumCross_snoc (l m : list point) (a b : point) :
  length l = length m ->
  sumCross (l ++ [a]) (m ++ [b]) = sumCross l m + cross a b.
Proof.
  revert m. induction l as [|x l IH]; intros [|y m] Hlen;
    try discriminate Hlen.
  - unfold sumCross. simpl. lra.
  - cbn [app]. rewrite !sumCross_cons, IH by (simpl in Hlen; lia). lra.
Qed.

Lemma rotr_snoc (l : list point) (a : point) : rotr (l ++ [a]) = a :: l.
Proof.
  destruct l as [|x l]; [reflexivity|].
  unfold rotr. cbn [app].
  change (x :: l ++ [a]) with ((x :: l) ++ [a]).
  now rewrite last_snoc, removelast_last.
Qed.

(** Each point against its successor's direction, or each predecessor
    against the point's own: the same sum. *)
Lemma sumCross_rot (l m : list point) :
  length l = length m -> sumCross l (rotl m) = sumCross (rotr l) m.
Proof.
  intros Hlen. destruct l as [|x l] using rev_ind.
  - destruct m; [reflexivity | discriminate Hlen].
  - clear IHl. destruct m as [|y m].
    + rewrite length_app in Hlen. simpl in Hlen. lia.
    + rewrite rotr_snoc. cbn [rotl].
      rewrite sumCross_snoc, sumCross_cons.
      * lra.
      * rewrite length_app in Hlen. simpl in Hlen. lia.
Qed.

Lemma sumCross_move (d : R) (l u m v : list point) :
  length l = length u -> length m = length v -> length l = length m ->
  sumCross (zip_with (move d) l u) (zip_with (move d) m v) =
    sumCross l m + d * (sumCross l v + sumCross u m) + d * d * sumCross u v.
Proof.
  revert u m v.
  induction l as [|a l IH]; intros [|b u] [|a' m] [|b' v] H1 H2 H3;
    try discriminate.
  - unfold sumCross. simpl. lra.
  - cbn [zip_with]. rewrite !sumCross_cons.
    rewrite IH by (simpl in *; lia).
    unfold move, cross. cbn [fst snd]. ring.
Qed.

Lemma rotl_move (d : R) (l u : list point) :
  length l = length u ->
  rotl (zip_with (move d) l u) = zip_with (move d) (rotl l) (rotl u).
Proof.
  intros Hlen. destruct l as [|a l], u as [|b u]; try discriminate;
    [reflexivity|].
  cbn [zip_with rotl]. rewrite zip_with_app by (simpl in Hlen; lia).
  reflexivity.
Qed.

Lemma corners_points (pts : list point) :
  map (fun c : point * point * point => c.1.2) (corners pts) = pts.
Proof.
  apply list_eq. intros i. rewrite list_lookup_fmap.
  destruct (pts !! i) as [p|] eqn:Hp.
  - now rewrite (corners_lookup _ _ _ Hp).
  - apply lookup_ge_None in Hp.
    rewrite (proj2 (lookup_ge_None (corners pts) i)); [reflexivity|].
    rewrite corners_length. exact Hp.
Qed.

Lemma directions_length (pts : list point) :
  length (directions pts) = length pts.
Proof. unfold directions. now rewrite length_map, corners_length. Qed.

(** The offset polygon is the polygon plus d times its directions. *)
Lemma offsetPolygon_move (pts : list point) (d : R) :
  offsetPolygon pts d = zip_with (move d) pts (directions pts).
Proof.
  rewrite offsetPolygon_corners. unfold directions.
  rewrite <- (corners_points pts) at 2.
  induction (corners pts) as [|c cs IH]; [reflexivity|].
  cbn [map zip_with]. now rewrite IH.
Qed.

Lemma sumCross_sweep (A P B : list point) :
  let cs := zip (zip A P) B in
  sumCross A (map unitBisector cs) + sumCross (map unitBisector cs) B =
    sumOver sweep cs.
Proof.
  revert P B. induction A as [|a A IH]; intros [|p P] [|b B];
    try (unfold sumCross, sumOver; simpl; lra).
  cbn zeta in *. cbn [zip_with map]. rewrite !sumCross_cons.
  unfold sumOver in *. cbn [fold_right]. rewrite <- IH.
  unfold sweep at 1. cbn [fst snd]. lra.
Qed.

(** The shoelace sum of the offset polygon is a quadratic in d. *)
Lemma shoelace_offsetPolygon (pts : list point) (d : R) :
  shoelace (offsetPolygon pts d) =
    shoelace pts + d * sumOver sweep (corners pts)
    + d * d * shoelace (directions pts).
Proof.
  pose proof (directions_length pts) as Hlen.
  rewrite offsetPolygon_move, !shoelace_sumCross, rotl_move by lia.
  rewrite sumCross_move by (rewrite ?rotl_length; lia).
  rewrite (sumCross_rot pts (directions pts)) by lia.
  unfold directions at 1 2. rewrite corners_rot.
  rewrite (sumCross_sweep (rotr pts) pts (rotl pts)). reflexivity.
Qed.

(** An edge with a length, in terms of its unit normal. *)
Lemma rightNormal_edge (a b : point) :
  a <> b ->
  exists l : R, 0 < l
    /\ b.2 - a.2 = l * (rightNormal a b).1
    /\ b.1 - a.1 = - (l * (rightNormal a b).2)
    /\ (rightNormal a b).1 * (rightNormal a b).1
       + (rightNormal a b).2 * (rightNormal a b).2 = 1.
Proof.
  intros Hab.
  set (s := (b.1 - a.1) * (b.1 - a.1) + (b.2 - a.2) * (b.2 - a.2)).
  assert (Hs : 0 < s).
  { assert (H0 : 0 <= s).
    { pose proof (Rle_0_sqr (b.1 - a.1)). pose proof (Rle_0_sqr (b.2 - a.2)).
      unfold Rsqr, s in *. lra. }
    destruct (Rle_lt_or_eq_dec 0 s H0) as [Hlt|Heq]; [exact Hlt|].
    exfalso. apply Hab. symmetry in Heq. apply sum_squares_zero in Heq.
    destruct a, b. cbn [fst snd] in *. f_equal; lra. }
  exists (sqrt s).
  pose proof (sqrt_lt_R0 s Hs) as Hl.
  pose proof (sqrt_sqrt s (Rlt_le _ _ Hs)) as Hsq.
  rewrite (rightNormal_formula a b (sqrt s) Hl Hsq). cbn [fst snd].
  set (l := sqrt s) in *. unfold s in Hsq. clearbody l. clear Hs s.
  repeat split; try (field; lra); try lra.
  replace ((b.2 - a.2) / l * ((b.2 - a.2) / l)
           + - (b.1 - a.1) / l * (- (b.1 - a.1) / l))
    with (((b.1 - a.1) * (b.1 - a.1) + (b.2 - a.2) * (b.2 - a.2)) / (l * l))
    by (field; lra).
  rewrite <- Hsq. field. lra.
Qed.

(** An edge in terms of its unit normal and its length, which is 0 for an
    edge between two equal points. *)
Lemma rightNormal_length (a b : point) :
  exists l : R,
    b.2 - a.2 = l * (rightNormal a b).1
    /\ b.1 - a.1 = - (l * (rightNormal a b).2)
    /\ ((0 < l /\ (rightNormal a b).1 * (rightNormal a b).1
                  + (rightNormal a b).2 * (rightNormal a b).2 = 1)
        \/ (l = 0 /\ rightNormal a b = (0, 0))).
Proof.
  destruct (Req_dec_T a.1 b.1) as [Hx|Hx].
  - destruct (Req_dec_T a.2 b.2) as [Hy|Hy].
    + assert (Hab : a = b) by (destruct a, b; cbn [fst snd] in *; congruence).
      subst b. exists 0. rewrite rightNormal_same. cbn [fst snd].
      repeat split; try lra. right. split; reflexivity.
    + assert (Hab : a <> b) by (intros ->; now apply Hy).
      destruct (rightNormal_edge a b Hab) as (l & Hl & Ey & Ex & Hu).
      exists l. repeat split; try assumption. left. now split.
  - assert (Hab : a <> b) by (intros ->; now apply Hx).
    destruct (rightNormal_edge a b Hab) as (l & Hl & Ey & Ex & Hu).
    exists l. repeat split; try assumption. left. now split.
Qed.

Lemma sweep_formula (prev p next : point) :
  sweep (prev, p, next) =
  (unitBisector (prev, p, next)).1 * ((next.2 - p.2) + (p.2 - prev.2))
  - (unitBisector (prev, p, next)).2 * ((next.1 - p.1) + (p.1 - prev.1)).
Proof. unfold sweep, cross. cbn [fst snd]. ring. Qed.

(** What a corner sweeps is never negative, and it is zero only where the
    second edge is a multiple of the first. *)
Lemma sweep_cases (c : point * point * point) :
  0 <= sweep c /\ (sweep c = 0 -> aligned c).
Proof.
  destruct c as [[prev p] next]. rewrite sweep_formula.
  destruct (rightNormal_length prev p) as (l1 & E1y & E1x & H1).
  destruct (rightNormal_length p next) as (l2 & E2y & E2x & H2).
  unfold aligned. cbn [fst snd].
  unfold unitBisector, bisector, dot. cbn [fst snd].
  rewrite E1y, E1x, E2y, E2x.
  set (n1x := (rightNormal prev p).1) in *.
  set (n1y := (rightNormal prev p).2) in *.
  set (n2x := (rightNormal p next).1) in *.
  set (n2y := (rightNormal p next).2) in *.
  assert (Hn1 : rightNormal prev p = (n1x, n1y)) by (unfold n1x, n1y; now destruct (rightNormal prev p)).
  assert (Hn2 : rightNormal p next = (n2x, n2y)) by (unfold n2x, n2y; now destruct (rightNormal p next)).
  clearbody n1x n1y n2x n2y.
  set (s := (n1x + n2x) * (n1x + n2x) + (n1y + n2y) * (n1y + n2y)).
  destruct H1 as [[Hl1 U1]|[-> Hz1]], H2 as [[Hl2 U2]|[-> Hz2]].
  - destruct (unit_sum_facts _ _ _ _ U1 U2) as ([Hs0 _] & D1 & D2).
    fold s in Hs0, D1, D2.
    destruct (Rle_lt_or_eq_dec 0 s Hs0) as [Hs|Hs].
    + pose proof (sqrt_lt_R0 s Hs) as Hlb.
      pose proof (sqrt_sqrt s (Rlt_le _ _ Hs)) as Hsq.
      rewrite orElse_nonzero by lra.
      set (lb := sqrt s) in *. clearbody lb.
      replace ((n1x + n2x) / lb * (l2 * n2x + l1 * n1x)
               - (n1y + n2y) / lb * (- (l2 * n2y) + - (l1 * n1y)))
        with ((l1 * ((n1x + n2x) * n1x + (n1y + n2y) * n1y)
               + l2 * ((n1x + n2x) * n2x + (n1y + n2y) * n2y)) / lb)
        by (field; lra).
      rewrite D1, D2, <- Hsq.
      replace ((l1 * (lb * lb / 2) + l2 * (lb * lb / 2)) / lb)
        with ((l1 + l2) * lb / 2) by (field; lra).
      assert (Hpos : 0 < (l1 + l2) * lb / 2).
      { apply Rdiv_lt_0_compat; [|lra]. apply Rmult_lt_0_compat; lra. }
      split; [lra|]. intros Hz. lra.
    + symmetry in Hs. pose proof Hs as Hs'. unfold s in Hs'.
      apply sum_squares_zero in Hs' as [Hx Hy].
      rewrite Hs, sqrt_0, orElse_zero, Hx, Hy.
      split; [lra|]. intros _. exists (- (l2 / l1)).
      replace n2x with (- n1x) by lra. replace n2y with (- n1y) by lra.
      split; field; lra.
  - injection (eq_trans (eq_sym Hn2) Hz2) as -> ->.
    unfold s. replace ((n1x + 0) * (n1x + 0) + (n1y + 0) * (n1y + 0)) with 1 by lra.
    rewrite sqrt_1, orElse_nonzero by lra.
    replace ((n1x + 0) / 1 * (0 * 0 + l1 * n1x) - (n1y + 0) / 1 * (- (0 * 0) + - (l1 * n1y)))
      with (l1 * (n1x * n1x + n1y * n1y)) by field.
    rewrite U1. split; [lra|]. intros Hz. lra.
  - injection (eq_trans (eq_sym Hn1) Hz1) as -> ->.
    unfold s. replace ((0 + n2x) * (0 + n2x) + (0 + n2y) * (0 + n2y)) with 1 by lra.
    rewrite sqrt_1, orElse_nonzero by lra.
    replace ((0 + n2x) / 1 * (l2 * n2x + 0 * 0) - (0 + n2y) / 1 * (- (l2 * n2y) + - (0 * 0)))
      with (l2 * (n2x * n2x + n2y * n2y)) by field.
    rewrite U2. split; [lra|]. intros Hz. lra.
  - injection (eq_trans (eq_sym Hn1) Hz1) as -> ->.
    injection (eq_trans (eq_sym Hn2) Hz2) as -> ->.
    split.
    + right. unfold s. replace ((0 + 0) * (0 + 0) + (0 + 0) * (0 + 0)) with 0 by ring.
      rewrite sqrt_0, orElse_zero. field.
    + intros _. exists 0. split; ring.
Qed.

(** Three consecutive points of a polygon are one of its corners. *)
Lemma corners_consecutive (pts : list point) (i : nat) (a b c : point) :
  pts !! i = Some a -> pts !! S i = Some b -> pts !! S (S i) = Some c ->
  corners pts !! S i = Some (a, b, c).
Proof.
  intros Ha Hb Hc. rewrite (corners_lookup _ _ _ Hb).
  pose proof (lookup_lt_Some _ _ _ Hc) as Hlt.
  unfold neighbour.
  replace (S i + length pts - 1)%nat with (i + 1 * length pts)%nat by lia.
  rewrite Nat.Div0.mod_add, Nat.mod_small by lia.
  replace (S i + 1)%nat with (S (S i)) by lia.
  rewrite Nat.mod_small by lia.
  now rewrite Ha, Hc.
Qed.

(** Points that follow one another with each edge a multiple of the one
    before lie on the line of the first edge. *)
Lemma aligned_run (A e : point) (l : list point) (a b : point) (m : R) :
  onLine A e a ->
  (b.1 - a.1 = m * e.1 /\ b.2 - a.2 = m * e.2) ->
  (forall i x y z, (a :: b :: l) !! i = Some x -> (a :: b :: l) !! S i = Some y ->
                   (a :: b :: l) !! S (S i) = Some z -> aligned (x, y, z)) ->
  Forall (onLine A e) (a :: b :: l).
Proof.
  revert a b m. induction l as [|c l IH]; intros a b m [s Ha] [Hx Hy] Hal.
  - assert (Hb : onLine A e b).
    { exists (s + m). rewrite Ha in Hx, Hy. cbn [fst snd] in Hx, Hy.
      destruct b as [bx by_]. cbn [fst snd] in *. f_equal; lra. }
    repeat constructor; [now exists s | exact Hb].
  - assert (Hb : onLine A e b).
    { exists (s + m). rewrite Ha in Hx, Hy. cbn [fst snd] in Hx, Hy.
      destruct b as [bx by_]. cbn [fst snd] in *. f_equal; lra. }
    constructor; [now exists s|].
    destruct (Hal 0%nat a b c eq_refl eq_refl eq_refl) as (k & Kx & Ky).
    cbn [fst snd] in Kx, Ky.
    apply (IH b c (k * m) Hb).
    + rewrite Kx, Ky, Hx, Hy. split; ring.
    + intros i x y z Hi Hj Hk. apply (Hal (S i) x y z); assumption.
Qed.

Lemma aligned_collinear (pts : list point) :
  Forall aligned (corners pts) ->
  exists A e : point, Forall (onLine A e) pts.
Proof.
  intros Hal. destruct pts as [|p0 [|p1 l]].
  - exists (0, 0), (0, 0). constructor.
  - exists p0, (0, 0). repeat constructor. exists 0.
    destruct p0. cbn [fst snd]. f_equal; ring.
  - exists p0, (p1.1 - p0.1, p1.2 - p0.2).
    apply (aligned_run _ _ l p0 p1 1).
    + exists 0. destruct p0. cbn [fst snd]. f_equal; ring.
    + cbn [fst snd]. split; ring.
    + intros i x y z Hx Hy Hz.
      pose proof (corners_consecutive _ _ _ _ _ Hx Hy Hz) as Hc.
      rewrite Forall_lookup in Hal. apply (Hal _ _ Hc).
Qed.

Lemma onLine_cross (A e x y : point) :
  onLine A e x -> onLine A e y -> cross x y = cross A y - cross A x.
Proof.
  intros [s ->] [t ->]. unfold cross. cbn [fst snd]. ring.
Qed.

Lemma sumCross_onLine (A e : point) (l m : list point) :
  length l = length m -> Forall (onLine A e) l -> Forall (onLine A e) m ->
  sumCross l m = sumOver (cross A) m - sumOver (cross A) l.
Proof.
  revert m. induction l as [|x l IH]; intros [|y m] Hlen Hl Hm;
    try discriminate Hlen.
  - unfold sumCross, sumOver. simpl. lra.
  - apply Forall_cons in Hl as [Hx Hl]. apply Forall_cons in Hm as [Hy Hm].
    rewrite sumCross_cons, (IH m) by (simpl in Hlen; lia || assumption).
    rewrite (onLine_cross A e x y Hx Hy).
    unfold sumOver. cbn [fold_right]. lra.
Qed.

Lemma sumOver_app {A : Type} (f : A -> R) (l m : list A) :
  sumOver f (l ++ m) = sumOver f l + sumOver f m.
Proof.
  induction l as [|a l IH]; unfold sumOver in *; cbn [app fold_right]; lra.
Qed.

(** A polygon whose every corner is aligned encloses nothing. *)
Lemma aligned_shoelace (pts : list point) :
  Forall aligned (corners pts) -> shoelace pts = 0.
Proof.
  intros Hal. destruct (aligned_collinear pts Hal) as (A & e & Hline).
  rewrite shoelace_sumCross.
  assert (Hrot : Forall (onLine A e) (rotl pts)).
  { destruct pts as [|p0 rest]; [constructor|].
    apply Forall_cons in Hline as [H0 Hrest]. cbn [rotl].
    apply Forall_app. split; [exact Hrest|]. now repeat constructor. }
  rewrite (sumCross_onLine A e) by (rewrite ?rotl_length; auto).
  destruct pts as [|p0 rest]; [unfold sumOver; simpl; lra|].
  cbn [rotl]. rewrite sumOver_app. unfold sumOver. cbn [fold_right]. lra.
Qed.

Lemma sumOver_nonneg {A : Type} (f : A -> R) (l : list A) :
  Forall (fun c => 0 <= f c) l ->
  0 <= sumOver f l /\ (sumOver f l = 0 -> Forall (fun c => f c = 0) l).
Proof.
  induction l as [|c l IH]; intros Hall.
  - unfold sumOver. simpl. split; [lra|constructor].
  - apply Forall_cons in Hall as [Hc Hl]. destruct (IH Hl) as [Hsum Hzero].
    unfold sumOver in *. cbn [fold_right]. split; [lra|].
    intros Hz. constructor; [lra|]. apply Hzero. lra.
Qed.

(** The first-order coefficient is positive for every polygon that encloses
    an area. *)
Lemma sweep_sum_positive (pts : list point) :
  shoelace pts <> 0 -> 0 < sumOver sweep (corners pts).
Proof.
  intros Harea.
  assert (Hall : Forall (fun c => 0 <= sweep c) (corners pts)).
  { apply Forall_forall. intros c _. apply sweep_cases. }
  destruct (sumOver_nonneg sweep _ Hall) as [Hsum Hzero].
  destruct (Rle_lt_or_eq_dec _ _ Hsum) as [Hlt|Heq]; [exact Hlt|].
  exfalso. apply Harea. apply aligned_shoelace.
  eapply Forall_impl; [apply Hzero; now symmetry|].
  intros c Hc. now apply sweep_cases.
Qed.

(** A quadratic with a positive first-order coefficient rises, and by less
    than a given margin, for every small enough positive argument. *)
Lemma quadratic_small (m b margin : R) :
  0 < m -> 0 < margin ->
  exists d0 : R, 0 < d0 /\
    forall d : R, 0 < d < d0 -> 0 < d * m + d * d * b < margin.
Proof.
  intros Hm Hmargin.
  set (k := Rabs b + 1).
  pose proof (Rabs_pos b) as Hb0.
  assert (Hb : - Rabs b <= b <= Rabs b).
  { unfold Rabs. destruct (Rcase_abs b); lra. }
  assert (Hk : 0 < k) by (unfold k; lra).
  exists (Rmin (m / k) (Rmin 1 (margin / (m + k)))). split.
  - repeat apply Rmin_glb_lt; try lra; apply Rdiv_lt_0_compat; lra.
  - intros d [Hd0 Hd].
    apply Rmin_Rgt_l in Hd as [Hd1 Hd]. apply Rmin_Rgt_l in Hd as [Hd2 Hd3].
    assert (HdK : d * k < m).
    { apply (Rmult_lt_compat_r k) in Hd1; [|lra].
      unfold Rdiv in Hd1. rewrite Rmult_assoc, Rinv_l in Hd1; lra. }
    assert (HdM : d * (m + k) < margin).
    { apply (Rmult_lt_compat_r (m + k)) in Hd3; [|lra].
      unfold Rdiv in Hd3. rewrite Rmult_assoc, Rinv_l in Hd3; lra. }
    assert (Hlo : - (d * Rabs b) <= d * b).
    { replace (- (d * Rabs b)) with (d * - Rabs b) by ring.
      apply Rmult_le_compat_l; lra. }
    assert (Hhi : d * b <= d * Rabs b) by (apply Rmult_le_compat_l; lra).
    assert (Hdb : 0 <= d * Rabs b) by (apply Rmult_le_pos; lra).
    assert (Hdd : d * (d * b) <= d * Rabs b).
    { apply Rle_trans with (d * (d * Rabs b)).
      - apply Rmult_le_compat_l; lra.
      - rewrite <- (Rmult_1_l (d * Rabs b)) at 2.
        apply Rmult_le_compat_r; lra. }
    assert (Hpos : 0 < d * (m + d * b)).
    { apply Rmult_lt_0_compat; [lra|]. unfold k in HdK. lra. }
    unfold k in *. split; lra.
Qed.

(** Offsetting a polygon that encloses an area, by a small enough distance,
    raises its signed area, by less than its area. *)
Lemma signedArea_offsetPolygon (pts : list point) :
  signedArea pts <> 0 ->
  exists d0 : R, 0 < d0 /\
    forall d : R, 0 < d < d0 ->
      signedArea pts < signedArea (offsetPolygon pts d)
        < signedArea pts + Rabs (signedArea pts).
Proof.
  intros Harea.
  assert (Hm : 0 < sumOver sweep (corners pts)).
  { apply sweep_sum_positive. intros Hz. apply Harea.
    unfold signedArea. rewrite Hz. lra. }
  assert (Hmargin : 0 < 2 * Rabs (signedArea pts)).
  { pose proof (Rabs_pos_lt _ Harea). lra. }
  destruct (quadratic_small _ (shoelace (directions pts)) _ Hm Hmargin)
    as (d0 & Hd0 & Hq).
  exists d0. split; [exact Hd0|]. intros d Hd. specialize (Hq d Hd).
  set (a := Rabs (signedArea pts)) in *. clearbody a.
  unfold signedArea. rewrite shoelace_offsetPolygon. lra.
Qed.


(** A counter-clockwise one gains area. *)
Lemma offsetPolygon_counterclockwise_grows (pts : list point) :
  counterclockwise pts ->
  exists d0 : R, 0 < d0 /\
    forall d : R, 0 < d < d0 -> area pts < area (offsetPolygon pts d).
Proof.
  intros Hccw. unfold counterclockwise in Hccw.
  destruct (signedArea_offsetPolygon pts) as (d0 & Hd0 & Hq); [lra|].
  exists d0. split; [exact Hd0|]. intros d Hd. specialize (Hq d Hd).
  unfold area. rewrite (Rabs_right (signedArea pts)) in * by lra.
  rewrite Rabs_right by lra. lra.
Qed.




(** A property of every corner of a polygon that is written out, corner by
    corner. *)
Ltac corner_by_corner tac :=
  unfold corners;
  cbn [last removelast zip_with app default from_option];
  unfold Datatypes.id;
  repeat (apply List.Forall_cons; [tac|]);
  apply List.Forall_nil.

(** *** Reversed corners in binary64

    At a reversed corner the two unit normals cancel in exact arithmetic and
    the vertex stays.  In binary64 the two normals are rounded one by one:
    their sum can be a rounding error instead of 0, and the code normalizes
    it and moves the vertex by the full distance, in a direction that the
    rounding decides.  The corner (1,1) below goes to (-0.06.., 2.06..);
    with the polygon moved by (0.1, 0.3) it goes to (1.1, 2.8), which is not
    the former moved by (0.1, 0.3). *)
Lemma shrinkPolygon_reversed_corner_rounds :
  reversed ((0, 0), (1, 1), (1 / 4, 1 / 4))
  /\ Binary64.shrinkPolygon
       [(0, 0); (1, 1); (0.25, 0.25); (1, 0)]%float 1.5%float
     = Ok [(1.38581929876693, 0.57402514854763487);
           (-0.060660171779821193, 2.060660171779821);
           (-1.2098734842015952, -0.094629380821041664);
           (-0.48063118645624514, 0.24027336451045098)]%float
  /\ Binary64.shrinkPolygon
       [(0.1, 0.3); (1.1, 1.3); (0.35, 0.55); (1.1, 0.3)]%float 1.5%float
     = Ok [(1.4858192987669301, 0.87402514854763491);
           (1.1000000000000001, 2.7999999999999998);
           (-1.1098734842015952, 0.20537061917895838);
           (-0.38063118645624505, 0.54027336451045094)]%float.
Proof.
  split; [|split; reflexivity].
  unfold reversed, turn. cbn [fst snd]. lra.
Qed.

(** So a polygon with a reversed corner can gain area at small distances:
    the polygon below turns the same way at every corner that turns, is
    listed clockwise and has the reversed corner (3,2); its shoelace sum is
    -2, and offset in binary64 by 2^-10, or by 2^-20, the exact shoelace sum
    of the result is below -2. *)
Lemma shrinkPolygon_spike_grows :
  convex [(6, 6); (1, -2); (3, 2); (2, 0); (0, -3)]
  /\ clockwise [(6, 6); (1, -2); (3, 2); (2, 0); (0, -3)]
  /\ reversed ((1, -2), (3, 2), (2, 0))
  /\ (shoelace64 [(6, 6); (1, -2); (3, 2); (2, 0); (0, -3)]%float
      == -2)%Q
  /\ (exists out : list Binary64.point,
         Binary64.shrinkPolygon
           [(6, 6); (1, -2); (3, 2); (2, 0); (0, -3)]%float 0x1p-10%float
         = Ok out
         /\ (shoelace64 out < -2)%Q)
  /\ (exists out : list Binary64.point,
         Binary64.shrinkPolygon
           [(6, 6); (1, -2); (3, 2); (2, 0); (0, -3)]%float 0x1p-20%float
         = Ok out
         /\ (shoelace64 out < -2)%Q).
Proof.
  split; [|split; [|split; [|split; [|split]]]].
  - split; [simpl; lia|]. left.
    corner_by_corner ltac:(unfold turn; cbn [fst snd]; lra).
  - unfold clockwise. unfold_shoelace. cbn. lra.
  - unfold reversed, turn. cbn [fst snd]. lra.
  - vm_compute. reflexivity.
  - eexists. split; [reflexivity|]. vm_compute. reflexivity.
  - eexists. split; [reflexivity|]. vm_compute. reflexivity.
Qed.




(** It fails on the distance too, within the range where the area does
    shrink: offset by d = 1/2 the vertex (1,0) of that diamond goes to
    (1/2,0), at distance sqrt(1/8) < 3/8 = d (1 - 1/4) from the edge through
    (3/4,1/4). *)
Lemma shrinkPolygon_diamond_vertex_near_edge :
  shrinkPolygon (diamondCW 1) (1 / 2) = Ok (diamondCW (1 / 2)) /\
  In (1 / 2, 0) (diamondCW (1 / 2)) /\
  ~ clearOfEdges (diamondCW 1) (1 / 2, 0) (1 / 2 * (1 - 1 / 4)).
Proof.
  split; [|split].
  - rewrite shrinkPolygon_offsetPolygon, offsetPolygon_diamondCW by lra.
    do 2 f_equal. lra.
  - left. reflexivity.
  - intros Hclear.
    specialize (Hclear (0, 1) (1, 0) (3 / 4, 1 / 4)).
    assert (Hedge : In ((0, 1), (1, 0)) (edges (diamondCW 1))).
    { unfold diamondCW, edges. cbn.
      right. right. right. left. f_equal; f_equal; lra. }
    assert (Hseg : onSegment (0, 1) (1, 0) (3 / 4, 1 / 4)).
    { exists (3 / 4). split; [lra|]. cbn [fst snd]. f_equal; lra. }
    specialize (Hclear Hedge Hseg). unfold dist in Hclear. cbn [fst snd] in Hclear.
    replace ((1 / 2 - 3 / 4) * (1 / 2 - 3 / 4) + (0 - 1 / 4) * (0 - 1 / 4))
      with (1 / 8) in Hclear by lra.
    pose proof (sqrt_sqrt (1 / 8) ltac:(lra)) as Hsq.
    pose proof (sqrt_pos (1 / 8)) as Hpos.
    nra.
Qed.

(** What does hold for that family: a clockwise diamond of radius r loses
    area for 0 < d < 2 r. *)
Lemma shrinkPolygon_diamond_shrinks (r d : R) :
  0 < d < 2 * r ->
  shrinkPolygon (diamondCW r) d = Ok (diamondCW (r - d)) /\
  area (diamondCW (r - d)) < area (diamondCW r).
Proof.
  intros [Hd Hr]. split.
  - rewrite shrinkPolygon_offsetPolygon, offsetPolygon_diamondCW by lra. reflexivity.
  - rewrite !area_diamondCW. nra.
Qed.

(** The normals [(e_y, -e_x)] point to the right of the direction of
    travel: a counter-clockwise diamond grows, for every d > 0. *)
Lemma shrinkPolygon_counterclockwise_grows (r d : R) :
  0 < r -> 0 < d ->
  shrinkPolygon (diamondCCW r) d = Ok (diamondCCW (r + d)) /\
  counterclockwise (diamondCCW r) /\
  area (diamondCCW r) < area (diamondCCW (r + d)).
Proof.
  intros Hr Hd. split; [|split].
  - rewrite shrinkPolygon_offsetPolygon, offsetPolygon_diamondCCW by lra. reflexivity.
  - unfold diamondCCW. unfold_shoelace. cbn. nra.
  - unfold diamondCCW. unfold_shoelace. cbn.
    rewrite !Rabs_pos_eq by nra. nra.
Qed.

Lemma offsetPolygon_lookup (points : list point) (d : R) (i : nat) (p : point) :
  points !! i = Some p ->
  offsetPolygon points d !! i =
  Some (offsetVertex (neighbour points (i + length points - 1) p) p
                     (neighbour points (i + 1) p) d).
Proof.
  intros Hp. unfold offsetPolygon. now rewrite list_lookup_imap, Hp.
Qed.

(** After a repeated point the normal of the zero-length edge is [(0,0)]
    divided by 1, and the vertex moves along the unit normal of the other
    edge alone. *)
Lemma offsetVertex_repeated_point (p next : point) (d : R) :
  offsetVertex p p next d =
  (p.1 + (rightNormal p next).1 * d, p.2 + (rightNormal p next).2 * d).
Proof.
  unfold offsetVertex. cbv zeta. rewrite rightNormal_same. cbn [fst snd].
  set (n := rightNormal p next).
  replace ((0 + n.1) * (0 + n.1) + (0 + n.2) * (0 + n.2))
    with (n.1 * n.1 + n.2 * n.2) by ring.
  destruct (rightNormal_norm p next) as [H0|H1]; fold n in H0 || fold n in H1.
  - rewrite H0, sqrt_0, orElse_zero. f_equal; field.
  - rewrite H1, sqrt_1, orElse_nonzero by lra. f_equal; field.
Qed.

(** *** The guard in binary64 *)

Lemma mapWithIndex_Forall {A B : Type} (f : nat -> A -> outcome B)
    (P : B -> Prop) (arr : list A) (i : nat) :
  (forall j a, arr !! j = Some a ->
               exists b, f (i + j)%nat a = Ok b /\ P b) ->
  exists out : list B,
    mapWithIndex f i arr = Ok out /\ length out = length arr /\ Forall P out.
Proof.
  revert i. induction arr as [|a arr IH]; intros i H.
  - exists []. repeat split. constructor.
  - destruct (H 0%nat a eq_refl) as (b & Hb & HP). rewrite Nat.add_0_r in Hb.
    destruct (IH (S i)) as (bs & Hbs & Hlen & Hall).
    { intros j a' Hj. replace (S i + j)%nat with (i + S j)%nat by lia.
      now apply H. }
    exists (b :: bs). cbn [mapWithIndex]. rewrite Hb. cbn [mbind outcome_bind].
    rewrite Hbs. cbn [mbind outcome_bind]. split; [reflexivity|].
    split; [cbn [length]; now rewrite Hlen | now constructor].
Qed.

(** The callback reads its two neighbours inside the array, so it returns:
    arithmetic in binary64 does not throw. *)
Lemma shrinkVertex64_returns (points : list Binary64.point) (amount : float)
    (i : nat) (p : Binary64.point) :
  (0 < length points)%nat ->
  exists q, Binary64.shrinkVertex points amount i p = Ok q.
Proof.
  intros Hn. unfold Binary64.shrinkVertex.
  rewrite prev_index, next_index by exact Hn.
  destruct (lookup_lt_is_Some_2 points
              ((i + length points - 1) mod length points)%nat)
    as [prev Hprev]; [apply Nat.mod_upper_bound; lia|].
  destruct (lookup_lt_is_Some_2 points ((i + 1) mod length points)%nat)
    as [next Hnext]; [apply Nat.mod_upper_bound; lia|].
  rewrite (index_ok _ _ _ Hprev), (index_ok _ _ _ Hnext).
  cbn [mbind outcome_bind]. eexists. reflexivity.
Qed.

(** What [|| 1] leaves is neither zero nor [NaN]. *)
Lemma orElse64_guard (x : float) :
  PrimFloat.eqb (Binary64.orElse x 1) 0 = false
  /\ PrimFloat.is_nan (Binary64.orElse x 1) = false.
Proof.
  unfold Binary64.orElse.
  destruct (PrimFloat.eqb x 0) eqn:Hz; [split; reflexivity|].
  destruct (PrimFloat.is_nan x) eqn:Hn; [split; reflexivity|].
  cbn [orb]. now split.
Qed.

(** A finite binary64 number is a zero or has a mantissa and an exponent. *)
Lemma finite_cases (x : float) :
  finite64 x = true ->
  (exists s, Prim2SF x = S754_zero s)
  \/ (exists s m e, Prim2SF x = S754_finite s m e).
Proof.
  unfold finite64, is_nan, is_infinity.
  rewrite !FloatAxioms.eqb_spec, FloatAxioms.abs_spec.
  destruct (Prim2SF x) as [s|s| |s m e] eqn:E.
  - intros _. left. now exists s.
  - destruct s; discriminate.
  - discriminate.
  - intros _. right. now exists s, m, e.
Qed.

(** A finite number minus itself is 0. *)
Lemma sub_self (x : float) :
  finite64 x = true -> PrimFloat.sub x x = 0%float.
Proof.
  intros Hx. apply Prim2SF_inj. rewrite FloatAxioms.sub_spec.
  destruct (finite_cases x Hx) as [[s ->]|(s & m & e & ->)].
  - now destruct s.
  - unfold SF64sub, SFsub. cbv zeta.
    match goal with
    | |- binary_normalize _ _ ?d _ _ = _ =>
        assert (Hd : d = 0%Z) by lia; rewrite Hd
    end.
    reflexivity.
Qed.

(** A zero times a finite amount, added to a finite number, leaves the
    number as it is (as a number: the zeros of either sign are equal). *)
Lemma add_zero_product (x z amount : float) :
  finite64 x = true -> finite64 amount = true ->
  (exists s, Prim2SF z = S754_zero s) ->
  PrimFloat.eqb (PrimFloat.add x (PrimFloat.mul z amount)) x = true.
Proof.
  intros Hx Ha [sz Hz].
  assert (Ht : exists s, Prim2SF (PrimFloat.mul z amount) = S754_zero s).
  { rewrite FloatAxioms.mul_spec, Hz.
    destruct (finite_cases amount Ha) as [[s ->]|(s & m & e & ->)];
      eexists; reflexivity. }
  destruct Ht as [st Ht].
  rewrite FloatAxioms.eqb_spec, FloatAxioms.add_spec, Ht.
  destruct (finite_cases x Hx) as [[s ->]|(s & m & e & ->)].
  - now destruct s, st.
  - cbn. unfold SFeqb, SFcompare. rewrite Z.compare_refl.
    rewrite Pos.compare_cont_refl. now destruct s.
Qed.

(** Between two neighbours equal to it a finite point has two edges of
    length 0: both normals and the bisector are divided by 1, and the point
    is moved by 0 times the amount. *)
Lemma shrinkVertex64_coincident (points : list Binary64.point) (amount : float)
    (i : nat) (p : Binary64.point) :
  points !! ((i + length points - 1) mod length points)%nat = Some p ->
  points !! ((i + 1) mod length points)%nat = Some p ->
  finite64 p.1 = true -> finite64 p.2 = true ->
  Binary64.shrinkVertex points amount i p =
  Ok (PrimFloat.add p.1 (PrimFloat.mul 0 amount),
      PrimFloat.add p.2 (PrimFloat.mul (-0) amount)).
Proof.
  intros Hprev Hnext H1 H2.
  assert (Hn : (0 < length points)%nat).
  { destruct points; [discriminate Hprev|simpl; lia]. }
  unfold Binary64.shrinkVertex.
  rewrite prev_index, next_index by exact Hn.
  rewrite (index_ok _ _ _ Hprev), (index_ok _ _ _ Hnext).
  cbn [mbind outcome_bind]. cbv zeta.
  rewrite !(sub_self _ H1), !(sub_self _ H2). reflexivity.
Qed.

Lemma shrinkPolygon64_coincident (p : Binary64.point) (n : nat)
    (amount : float) :
  finite64 p.1 = true -> finite64 p.2 = true ->
  finite64 amount = true ->
  exists out : list Binary64.point,
    Binary64.shrinkPolygon (replicate n p) amount = Ok out
    /\ length out = n
    /\ Forall (fun q : Binary64.point =>
                 PrimFloat.eqb q.1 p.1 = true /\ PrimFloat.eqb q.2 p.2 = true)
              out.
Proof.
  intros H1 H2 Ha. unfold Binary64.shrinkPolygon.
  destruct (mapWithIndex_Forall
              (Binary64.shrinkVertex (replicate n p) amount)
              (fun q : Binary64.point =>
                 PrimFloat.eqb q.1 p.1 = true /\ PrimFloat.eqb q.2 p.2 = true)
              (replicate n p) 0) as (out & Hout & Hlen & Hall).
  - intros j a Hj. apply lookup_replicate in Hj as [-> Hj].
    assert (Hnb : forall k,
               replicate n p !! (k mod length (replicate n p))%nat = Some p).
    { intros k. apply lookup_replicate. split; [reflexivity|].
      rewrite length_replicate. apply Nat.mod_upper_bound. lia. }
    eexists. split.
    + apply shrinkVertex64_coincident; auto.
    + cbn [fst snd]. split; apply add_zero_product; auto.
      * now exists false.
      * now exists true.
  - exists out. rewrite length_replicate in Hlen. auto.
Qed.

(** C8, as the code has it.  In binary64 [shrinkPolygon] returns for every
    polygon and amount, with as many points as it was given, and it never
    divides by zero: each of the three lengths it divides by is a square
    root, replaced by 1 when it is 0 (or [NaN]), so the divisor is neither.
    A polygon of finite points that all coincide (every edge of zero length)
    is returned as it is, for every finite amount.  In exact arithmetic no
    division fails either; after a repeated point (an edge of zero length)
    the vertex moves along the unit normal of its other edge alone, and a
    polygon whose points all coincide and a polygon that runs to a point and
    back (every bisector of zero length) are returned unchanged.  That all
    coordinates returned are finite holds only while the arithmetic stays in
    the range of binary64. *)
Theorem shrinkPolygon_total_and_guarded :
  (forall (points : list Binary64.point) (amount : float),
      exists out : list Binary64.point,
        Binary64.shrinkPolygon points amount = Ok out
        /\ length out = length points)
  /\ (forall x : float,
         PrimFloat.eqb (Binary64.orElse (PrimFloat.sqrt x) 1) 0 = false
         /\ PrimFloat.is_nan (Binary64.orElse (PrimFloat.sqrt x) 1) = false)
  /\ (forall (p : Binary64.point) (n : nat) (amount : float),
         finite64 p.1 = true -> finite64 p.2 = true ->
         finite64 amount = true ->
         exists out : list Binary64.point,
           Binary64.shrinkPolygon (replicate n p) amount = Ok out
           /\ length out = n
           /\ Forall (fun q : Binary64.point =>
                        PrimFloat.eqb q.1 p.1 = true
                        /\ PrimFloat.eqb q.2 p.2 = true) out)
  /\ (forall (points : list point) (amount : R),
         exists out : list point,
           shrinkPolygon points amount = Ok out /\ length out = length points)
  /\ (forall x : R, orElse (sqrt x) 1 <> 0)
  /\ (forall (points : list point) (amount : R) (i : nat) (p : point),
         points !! i = Some p ->
         neighbour points (i + length points - 1) p = p ->
         exists out : list point,
           shrinkPolygon points amount = Ok out
           /\ out !! i =
              Some (p.1 + (rightNormal p (neighbour points (i + 1) p)).1 * amount,
                    p.2 + (rightNormal p (neighbour points (i + 1) p)).2 * amount))
  /\ (forall (p : point) (n : nat) (amount : R),
         shrinkPolygon (replicate n p) amount = Ok (replicate n p))
  /\ (forall (a p : point) (amount : R),
         shrinkPolygon [a; p] amount = Ok [a; p]).
Proof.
  split; [|split; [|split; [|split; [|split; [|split; [|split]]]]]].
  - intros points amount. unfold Binary64.shrinkPolygon.
    destruct (mapWithIndex_Forall
                (Binary64.shrinkVertex points amount) (fun _ => True)
                points 0) as (out & Hout & Hlen & _).
    + intros j a Hj.
      destruct (shrinkVertex64_returns points amount (0 + j) a) as [q Hq].
      * apply lookup_lt_Some in Hj. lia.
      * now exists q.
    + now exists out.
  - intros x. apply orElse64_guard.
  - intros p n amount. apply shrinkPolygon64_coincident.
  - intros points amount. exists (offsetPolygon points amount).
    split; [apply shrinkPolygon_offsetPolygon|apply offsetPolygon_length].
  - intros x. apply orElse_one_nonzero.
  - intros points amount i p Hp Hprev. exists (offsetPolygon points amount).
    split; [apply shrinkPolygon_offsetPolygon|].
    pose proof (offsetPolygon_lookup points amount i p Hp) as Hq.
    rewrite Hprev, offsetVertex_repeated_point in Hq. exact Hq.
  - intros p n amount. rewrite shrinkPolygon_offsetPolygon. f_equal.
    unfold offsetPolygon. apply list_eq. intros i.
    rewrite list_lookup_imap.
    destruct (replicate n p !! i) as [q|] eqn:E; [|reflexivity].
    apply lookup_replicate in E as [-> Hi]. cbn [fmap option_fmap option_map].
    f_equal.
    assert (Hnb : forall k, neighbour (replicate n p) k p = p).
    { intros k. unfold neighbour.
      destruct (replicate n p !! (k mod length (replicate n p))%nat) as [q|] eqn:E;
        [|reflexivity].
      now apply lookup_replicate in E as [-> _]. }
    rewrite !Hnb. apply offsetVertex_spike.
  - intros a p amount. rewrite shrinkPolygon_offsetPolygon. f_equal.
    unfold offsetPolygon. cbn [imap length]. unfold neighbour, compose. cbn.
    now rewrite !offsetVertex_spike.
Qed.

(** A square with its first corner listed twice: the repeated corner moves
    along the normal of the one edge that has a length.  In binary64, three
    times the point (1,2) comes back as three points. *)
Lemma shrinkPolygon_total_and_guarded_witness :
  (exists out : list point,
      shrinkPolygon [(0, 0); (0, 0); (0, 1); (1, 1); (1, 0)] (1 / 2) = Ok out
      /\ out !! 1%nat = Some (1 / 2, 0))
  /\ (exists out : list Binary64.point,
         Binary64.shrinkPolygon (replicate 3 (1, 2)%float) 1.5%float = Ok out
         /\ length out = 3%nat).
Proof.
  destruct shrinkPolygon_total_and_guarded as (_ & _ & Hsame & _ & _ & Hrep & _).
  split.
  - destruct (Hrep [(0, 0); (0, 0); (0, 1); (1, 1); (1, 0)] (1 / 2) 1%nat (0, 0)
                eq_refl eq_refl) as (out & Hout & Hq).
    exists out. split; [exact Hout|]. rewrite Hq. f_equal.
    change (neighbour [(0, 0); (0, 0); (0, 1); (1, 1); (1, 0)] (1 + 1) (0, 0))
      with ((0, 1) : point).
    rewrite (rightNormal_formula (0, 0) (0, 1) 1) by (cbn [fst snd]; lra).
    cbn [fst snd]. f_equal; field.
  - destruct (Hsame (1, 2)%float 3%nat 1.5%float eq_refl eq_refl eq_refl)
      as (out & Hout & Hlen & _).
    exists out. now split.
Defined.

(** C8, as the claim states it, fails: not every input polygon comes back
    with finite coordinates.  The three points below are finite; the
    difference -1e308 - 1e308 overflows to -Infinity, the length of the edge
    is Infinity, and Infinity / Infinity is [NaN], which [|| 1] does not
    replace: two of the points come back with a [NaN] coordinate. *)
Lemma shrinkPolygon_overflow_nan :
  Forall (fun p : Binary64.point =>
            finite64 p.1 = true /\ finite64 p.2 = true)
         [(1e308, 0); (-1e308, 0); (0, 1e308)]%float
  /\ Binary64.shrinkPolygon
       [(1e308, 0); (-1e308, 0); (0, 1e308)]%float 1%float
     = Ok [(1e308, nan); (-1e308, nan); (0, 1e308)]%float.
Proof.
  split; [|reflexivity]. repeat constructor.
Qed.

(** Nor is the guard limited to edges of zero length: the square of an edge
    of length 1e-200 underflows to 0, its square root is replaced by 1, and
    the vertices move by about 1e-200 instead of 1. *)
Lemma shrinkPolygon_underflow_guard :
  Binary64.shrinkPolygon
    [(0, 0); (1e-200, 0); (0, 1e-200)]%float 1%float
  = Ok [(-1e-200, -1e-200); (2e-200, 0); (0, 2e-200)]%float.
Proof. reflexivity. Qed.

Lemma offsetVertex_bottom_left (h w d : R) :
  0 < h -> 0 < w ->
  offsetVertex (0, h) (0, 0) (w, 0) d = (- d / sqrt 2, - d / sqrt 2).
Proof.
  intros Hh Hw. destruct sqrt2_facts as [Hpos Hsq].
  rewrite (offsetVertex_formula (0, h) (0, 0) (w, 0) d (-1) (-1) (sqrt 2)).
  - cbn [fst snd]. f_equal; field; lra.
  - rewrite (rightNormal_formula (0, h) (0, 0) h) by (cbn [fst snd]; lra || nra).
    rewrite (rightNormal_formula (0, 0) (w, 0) w) by (cbn [fst snd]; lra || nra).
    cbn [fst snd]. field. lra.
  - rewrite (rightNormal_formula (0, h) (0, 0) h) by (cbn [fst snd]; lra || nra).
    rewrite (rightNormal_formula (0, 0) (w, 0) w) by (cbn [fst snd]; lra || nra).
    cbn [fst snd]. field. lra.
  - exact Hpos.
  - lra.
Qed.

(** What the winding of [jerseyPoints] does to the trim: the silhouette lies
    in the quadrant x >= 0, y >= 0, and the outline [buildTrim] takes for the
    inner one has its first vertex outside it, at
    (-1.5 / sqrt 2, -1.5 / sqrt 2). *)
Lemma trim_inner_outline_leaves_silhouette (style : value) :
  Forall (fun p : point => 0 <= p.1 /\ 0 <= p.2) (jerseyPoints style)
  /\ exists (out : list point) (q : point),
       shrinkPolygon (jerseyPoints style) (15 / 10) = Ok out
       /\ out !! 0%nat = Some q /\ q.1 < 0 /\ q.2 < 0.
Proof.
  split.
  - unfold jerseyPoints.
    style_cases style;
      repeat (apply Forall_cons; split; [cbn [fst snd]; lra|]); constructor.
  - exists (offsetPolygon (jerseyPoints style) (15 / 10)),
           (- (15 / 10) / sqrt 2, - (15 / 10) / sqrt 2).
    split; [apply shrinkPolygon_offsetPolygon|].
    destruct sqrt2_facts as [Hpos _].
    assert (Hneg : - (15 / 10) / sqrt 2 < 0).
    { apply Rdiv_neg_pos; lra. }
    split; [|cbn [fst snd]; split; exact Hneg].
    rewrite (offsetPolygon_lookup (jerseyPoints style) (15 / 10) 0 (0, 0) eq_refl).
    f_equal.
    assert (Hprev : neighbour (jerseyPoints style)
                      (0 + length (jerseyPoints style) - 1) (0, 0)
                    = (0, 120 - (if styleIs style "Retro" then 18 else 14)))
      by reflexivity.
    assert (Hnext : neighbour (jerseyPoints style) (0 + 1) (0, 0) = (100, 0))
      by reflexivity.
    rewrite Hprev, Hnext.
    destruct (styleIs style "Retro");
      apply offsetVertex_bottom_left; lra.
Qed.

Close Scope R_scope.

(** ** Absent regions: empty text, the viewer and the exporter *)

Lemma trimStart_whitespace (text : jsstring) :
  whitespaceOnly text -> trimStart text = [].
Proof.
  unfold whitespaceOnly. induction text as [|c text IH]; [reflexivity|].
  cbn [forallb trimStart]. intros H. apply andb_prop in H as [Hc Ht].
  rewrite Hc. now apply IH.
Qed.

Lemma trim_whitespace (text : jsstring) :
  whitespaceOnly text -> trim text = [].
Proof.
  intros H. unfold trim. now rewrite (trimStart_whitespace text H).
Qed.

Lemma buildText_whitespace (jscad : Modeling) (font : Font) (text : jsstring)
    (opts : textOpts) :
  whitespaceOnly text -> buildText jscad font text opts = Ok None.
Proof.
  intros H. unfold buildText. rewrite (trim_whitespace text H).
  rewrite bool_decide_eq_true_2 by reflexivity.
  now rewrite orb_true_r.
Qed.

Lemma loadRegion_absent (geometries : gmap string (option geom))
    (colorMap : gmap string string) (sc : Scene) (region : Region) (rid : string) :
  absent geometries rid ->
  meshMap sc !! rid = None ->
  meshMap (loadRegion geometries colorMap sc region) !! rid = None.
Proof.
  intros Habs Hsc. unfold loadRegion.
  destruct (geometries !! region_id region) as [[g|]|] eqn:E; try exact Hsc.
  cbn [meshMap]. rewrite lookup_insert_ne; [exact Hsc|].
  intros Heq. rewrite Heq in E. destruct Habs as [H|H]; congruence.
Qed.

Lemma loadGeometries_absent (geometries : gmap string (option geom))
    (colorRegions : list Region) (colorMap : gmap string string) (rid : string) :
  absent geometries rid ->
  meshMap (loadGeometries geometries colorRegions colorMap) !! rid = None.
Proof.
  intros Habs. unfold loadGeometries.
  assert (H0 : meshMap {| meshMap := ∅; modelGroup := [] |} !! rid = None)
    by apply lookup_empty.
  revert H0. generalize {| meshMap := ∅; modelGroup := [] |}.
  induction colorRegions as [|region rest IH]; intros sc Hsc; [exact Hsc|].
  cbn [fold_left]. apply IH. now apply loadRegion_absent.
Qed.

Lemma loadGeometries_meshes (geometries : gmap string (option geom))
    (colorRegions : list Region) (colorMap : gmap string string) :
  length (modelGroup (loadGeometries geometries colorRegions colorMap)) =
  length (List.filter (present geometries) colorRegions).
Proof.
  unfold loadGeometries.
  change (length (List.filter (present geometries) colorRegions))
    with (length (modelGroup {| meshMap := ∅; modelGroup := [] |})
          + length (List.filter (present geometries) colorRegions))%nat.
  generalize {| meshMap := ∅; modelGroup := [] |}.
  induction colorRegions as [|region rest IH]; intros sc; [cbn; lia|].
  cbn [fold_left List.filter]. rewrite IH. unfold loadRegion, present.
  destruct (geometries !! region_id region) as [[g|]|]; cbn [modelGroup length];
    rewrite ?length_app; cbn [length]; lia.
Qed.

Lemma append_length (a b : string) :
  String.length (a ++ b) = (String.length a + String.length b)%nat.
Proof. induction a as [|c a IH]; simpl; [reflexivity|now f_equal]. Qed.

Lemma append_inj_right (a b s : string) :
  (a ++ s = b ++ s)%string -> a = b.
Proof.
  revert b. induction a as [|c a IH]; intros [|c' b] H.
  - reflexivity.
  - apply (f_equal String.length) in H. rewrite !append_length in H. cbn in H. lia.
  - apply (f_equal String.length) in H. rewrite !append_length in H. cbn in H. lia.
  - cbn in H. injection H as -> H. f_equal. now apply IH.
Qed.

Lemma stlName_inj (design : Design) (a b : string) :
  stlName design a = stlName design b -> a = b.
Proof.
  unfold stlName. intros H.
  apply String.app_inj in H. apply String.app_inj in H.
  now apply append_inj_right in H.
Qed.

Lemma exportStep_names (serialize : Serializer) (design : Design)
    (inputs : Inputs) (geometries : gmap string (option geom))
    (downloads : list Download) (region : Region) (rid : string) :
  absent geometries rid ->
  Forall (fun dl => filename dl <> stlName design rid) downloads ->
  Forall (fun dl => filename dl <> stlName design rid)
         (exportStep serialize design inputs geometries downloads region).
Proof.
  intros Habs Hd. unfold exportStep.
  destruct (geometries !! region_id region) as [[g|]|] eqn:E; try exact Hd.
  apply Forall_app. split; [exact Hd|].
  cbn [exportRegionSTL]. apply Forall_cons. split; [|constructor].
  cbn [filename]. intros Heq. apply (stlName_inj design) in Heq.
  rewrite Heq in E. destruct Habs as [H|H]; congruence.
Qed.

Lemma export_loop_names (serialize : Serializer) (design : Design)
    (inputs : Inputs) (geometries : gmap string (option geom))
    (regions : list Region) (downloads : list Download) (rid : string) :
  absent geometries rid ->
  Forall (fun dl => filename dl <> stlName design rid) downloads ->
  Forall (fun dl => filename dl <> stlName design rid)
         (fold_left (exportStep serialize design inputs geometries) regions
                    downloads).
Proof.
  intros Habs. revert downloads.
  induction regions as [|region rest IH]; intros downloads Hd; [exact Hd|].
  cbn [fold_left]. apply IH. now apply exportStep_names.
Qed.

Lemma export_loop_count (serialize : Serializer) (design : Design)
    (inputs : Inputs) (geometries : gmap string (option geom))
    (regions : list Region) (downloads : list Download) :
  length (fold_left (exportStep serialize design inputs geometries) regions
                    downloads) =
  (length downloads + length (List.filter (present geometries) regions))%nat.
Proof.
  revert downloads.
  induction regions as [|region rest IH]; intros downloads; [cbn; lia|].
  cbn [fold_left List.filter]. rewrite IH. unfold exportStep, present.
  destruct (geometries !! region_id region) as [[g|]|];
    rewrite ?length_app; cbn; lia.
Qed.

(** Asked to export a region without geometry, [exportRegionSTL] warns and
    downloads nothing. *)
Lemma exportRegionSTL_no_geometry (serialize : Serializer) (region : Region)
    (inputs : Inputs) (design : Design) :
  exportRegionSTL serialize region None inputs design = [].
Proof. reflexivity. Qed.

Section Generate.
Context `{Builtins}.

Lemma bind_ok {A B : Type} (m : outcome A) (f : A -> outcome B) (b : B) :
  m ≫= f = Ok b -> exists a, m = Ok a /\ f a = Ok b.
Proof. destruct m as [a| |]; try discriminate. intros Hf. now exists a. Qed.

Lemma generate_regions (jscad : Modeling) (font : Font) (inputs : Inputs)
    (geometries : gmap string (option geom)) :
  generate jscad font inputs = Ok geometries ->
  exists numberGeom nameGeom : option geom,
    buildText jscad font
      (numStr (withDefault (number inputs) (VStr (js "23"))))
      {| opt_size := Some 28%R;
         opt_z := Some (default 3%R (baseThickness inputs));
         opt_height := Some 2%R; opt_centerX := Some 50%R;
         opt_centerY := Some 68%R |} = Ok numberGeom /\
    buildText jscad font
      (nameStr (withDefault (playerName inputs) (VStr (js "SMITH"))))
      {| opt_size := Some 10%R;
         opt_z := Some (default 3%R (baseThickness inputs));
         opt_height := Some 2%R; opt_centerX := Some 50%R;
         opt_centerY := Some 26%R |} = Ok nameGeom /\
    geometries !! "number" = Some numberGeom /\
    geometries !! "name" = Some nameGeom /\
    (exists bodyGeom, geometries !! "body" = Some (Some bodyGeom)).
Proof.
  unfold generate. cbv zeta. intros Hgen.
  apply bind_ok in Hgen as (bodyGeom & _ & Hgen).
  apply bind_ok in Hgen as (numberGeom & Hnum & Hgen).
  apply bind_ok in Hgen as (nameGeom & Hname & Hgen).
  apply bind_ok in Hgen as (trimGeom & _ & Hgen).
  injection Hgen as <-.
  exists numberGeom, nameGeom. repeat split; try assumption.
  exists bodyGeom. reflexivity.
Qed.

End Generate.

(** C6.  For an empty or whitespace-only text [buildText] returns [null];
    so [generate] maps the region of a blank number or name to [null].  A
    region whose value in the Region Map is [null] (or missing) gets no entry
    in the viewer's mesh map, the scene holding one mesh per region that has a
    geometry, and [exportAllSTL] downloads one file per region that has a
    geometry, none of them under the name of the absent region.  None of this
    is an error: every function returns normally. *)
Theorem empty_text_region_absent `{Builtins} :
  (forall (jscad : Modeling) (font : Font) (text : jsstring) (opts : textOpts),
      whitespaceOnly text -> buildText jscad font text opts = Ok None)
  /\ (forall (jscad : Modeling) (font : Font) (inputs : Inputs)
             (geometries : gmap string (option geom)),
         generate jscad font inputs = Ok geometries ->
         (whitespaceOnly (numStr (withDefault (number inputs) (VStr (js "23")))) ->
          geometries !! "number" = Some None)
         /\ (whitespaceOnly (nameStr (withDefault (playerName inputs) (VStr (js "SMITH")))) ->
             geometries !! "name" = Some None))
  /\ (forall (geometries : gmap string (option geom)) (colorRegions : list Region)
             (colorMap : gmap string string) (rid : string),
         absent geometries rid ->
         meshMap (loadGeometries geometries colorRegions colorMap) !! rid = None)
  /\ (forall (geometries : gmap string (option geom)) (colorRegions : list Region)
             (colorMap : gmap string string),
         length (modelGroup (loadGeometries geometries colorRegions colorMap)) =
         length (List.filter (present geometries) colorRegions))
  /\ (forall (jscad : Modeling) (font : Font) (serialize : Serializer)
             (design : Design) (inputs : Inputs)
             (geometries : gmap string (option geom)) (rid : string),
         generate jscad font inputs = Ok geometries ->
         absent geometries rid ->
         exists downloads : list Download,
           exportAllSTL jscad font serialize design inputs = Ok downloads
           /\ Forall (fun dl => filename dl <> stlName design rid) downloads
           /\ length downloads =
              length (List.filter (present geometries) (colorRegions design))).
Proof.
  split; [|split; [|split; [|split]]].
  - intros jscad font text opts. apply buildText_whitespace.
  - intros jscad font inputs geometries Hgen.
    destruct (generate_regions jscad font inputs geometries Hgen)
      as (numberGeom & nameGeom & Hnum & Hname & Hn & Hm & _).
    split; intros Hws.
    + rewrite (buildText_whitespace _ _ _ _ Hws) in Hnum. congruence.
    + rewrite (buildText_whitespace _ _ _ _ Hws) in Hname. congruence.
  - intros. now apply loadGeometries_absent.
  - intros. apply loadGeometries_meshes.
  - intros jscad font serialize design inputs geometries rid Hgen Habs.
    exists (fold_left (exportStep serialize design inputs geometries)
                      (colorRegions design) []).
    split; [|split].
    + unfold exportAllSTL. now rewrite Hgen.
    + apply export_loop_names; [exact Habs|constructor].
    + now rewrite export_loop_count.
Qed.

Lemma empty_text_region_absent_witness :
  exists geometries : gmap string (option geom),
    @generate Example.builtins Example.modeling Example.font Example.blankInputs = Ok geometries
    /\ geometries !! "number" = Some None
    /\ geometries !! "name" = Some None
    /\ meshMap (loadGeometries geometries (colorRegions Config.basketballJersey) ∅)
         !! "number" = None
    /\ exists downloads : list Download,
         @exportAllSTL Example.builtins Example.modeling Example.font
           (StlFormat.chunkedSerializer (fun _ => [])) Config.basketballJersey Example.blankInputs
           = Ok downloads
         /\ Forall (fun dl => filename dl <> "basketball-jersey__number.stl") downloads.
Proof.
  destruct (@empty_text_region_absent Example.builtins)
    as (_ & Hgen & Hload & _ & Hexport).
  eexists. split; [reflexivity|].
  match goal with |- ?g !! _ = _ /\ _ => set (geometries := g) end.
  assert (Hg : @generate Example.builtins Example.modeling Example.font Example.blankInputs = Ok geometries)
    by reflexivity.
  assert (Hnum : geometries !! "number" = Some None).
  { apply (Hgen _ _ _ _ Hg). reflexivity. }
  split; [exact Hnum|].
  split; [apply (Hgen _ _ _ _ Hg); reflexivity|].
  split; [apply Hload; left; exact Hnum|].
  destruct (Hexport Example.modeling Example.font
              (StlFormat.chunkedSerializer (fun _ => [])) Config.basketballJersey
              Example.blankInputs geometries "number" Hg (or_introl Hnum))
    as (downloads & Hd & Hnames & _).
  exists downloads. split; [exact Hd|exact Hnames].
Defined.

(** ** The text that is rendered *)

Lemma substring_from_start (s : jsstring) (n : nat) :
  substring s 0 n = take n s.
Proof.
  unfold substring. rewrite Nat.max_0_l, Nat.min_0_l, Nat.sub_0_r.
  now rewrite drop_0.
Qed.

Open Scope R_scope.

(** The two loops of [buildText]: the polygons of the glyphs with their pen
    positions, and the width of the run. *)
Lemma pushContour_placed (jscad : Modeling) (pen : R)
    (contours : list (list point)) (acc : list (geom2 jscad * R)) :
  fold_left (pushContour jscad pen) contours acc =
  acc ++ map (fun poly => (poly, pen)) (omap (contourPolygon jscad) contours).
Proof.
  revert acc. induction contours as [|pts contours IH]; intros acc.
  - cbn. now rewrite app_nil_r.
  - cbn [fold_left omap list_omap]. rewrite IH.
    unfold pushContour, contourPolygon.
    destruct (3 <=? length pts)%nat; [|reflexivity].
    destruct (polygon jscad pts) as [poly|]; [|reflexivity].
    cbn [map]. now rewrite <- app_assoc.
Qed.

Lemma glyphLoop_placed (jscad : Modeling) (font : Font) (size scale : R)
    (glyphs : list Glyph) (pen : R) (acc : list (geom2 jscad * R)) :
  glyphLoop jscad font size scale glyphs pen acc =
  (pen + runWidth font size scale glyphs,
   acc ++ placedPolygons jscad font size scale glyphs pen).
Proof.
  revert pen acc. induction glyphs as [|glyph rest IH]; intros pen acc.
  - cbn. rewrite app_nil_r. f_equal. lra.
  - cbn [glyphLoop placedPolygons runWidth]. cbv zeta.
    rewrite pushContour_placed.
    assert (Hpen :
      match rest with
      | next :: _ =>
          pen + match advanceWidth glyph with
                | Some w => orElse w (size * (6 / 10))
                | None => size * (6 / 10)
                end * scale + getKerningValue font glyph next * scale
      | [] => pen + match advanceWidth glyph with
                    | Some w => orElse w (size * (6 / 10))
                    | None => size * (6 / 10)
                    end * scale
      end = pen + penStep font size scale glyph rest).
    { unfold penStep, glyphAdvance. destruct rest; lra. }
    rewrite Hpen, IH, <- app_assoc. f_equal. lra.
Qed.

(** What [buildText] returns is the text rendered. *)
Lemma buildText_textSolid (jscad : Modeling) (font : Font) (text : jsstring)
    (opts : textOpts) (result : option geom) :
  buildText jscad font text opts = Ok result ->
  result = textSolid jscad font text (default 20 (opt_size opts))
             (default 3 (opt_z opts)) (default 2 (opt_height opts))
             (default 50 (opt_centerX opts)) (default 50 (opt_centerY opts)).
Proof.
  unfold buildText, textSolid. cbv zeta.
  destruct (bool_decide (trim text = [])) eqn:Htrim.
  - rewrite orb_true_r. now intros [= <-].
  - assert (Htext : negb (truthy (VStr text)) = false).
    { destruct text; [|reflexivity]. now rewrite bool_decide_eq_false in Htrim. }
    rewrite Htext. cbn [orb]. unfold div.
    destruct (Req_dec_T (unitsPerEm font) 0); [discriminate|].
    cbn [mbind outcome_bind].
    rewrite glyphLoop_placed, Rplus_0_l. cbn [app].
    destruct (placedPolygons _ _ _ _ _ _) as [|[poly offsetX] polys];
      [now intros [= <-]|].
    cbn [length Nat.eqb map].
    destruct (map _ polys); now intros [= <-].
Qed.

(** When the steps of [generate] return, in this reading. *)
Lemma buildText_returns (jscad : Modeling) (font : Font) (text : jsstring)
    (opts : textOpts) :
  unitsPerEm font <> 0 ->
  exists result : option geom, buildText jscad font text opts = Ok result.
Proof.
  intros Hunits. unfold buildText. cbv zeta.
  destruct (negb (truthy (VStr text)) || bool_decide (trim text = []));
    [now exists None|].
  rewrite (div_ok _ _ Hunits). cbn [mbind outcome_bind].
  destruct (glyphLoop _ _ _ _ _ _ _) as [cursorX allPolygons].
  destruct (length allPolygons =? 0)%nat; [now exists None|].
  destruct (map _ allPolygons) as [|solid [|]]; eexists; reflexivity.
Qed.

Lemma polygonOrThrow_accepts (jscad : Modeling) (pts : list point) :
  acceptsOutlines jscad -> (3 <= length pts)%nat ->
  exists poly, polygonOrThrow jscad pts = Ok poly.
Proof.
  intros Hacc Hlen. unfold polygonOrThrow.
  destruct (Hacc pts Hlen) as [poly ->]. now exists poly.
Qed.

Section TextRegions.
Context `{Builtins}.

(** The number and the name of the Region Map are the two texts rendered,
    each cut to its length. *)
Lemma generate_text_regions (jscad : Modeling) (font : Font) (inputs : Inputs)
    (geometries : gmap string (option geom)) :
  generate jscad font inputs = Ok geometries ->
  geometries !! "number" =
    Some (textSolid jscad font
            (take 2 (ToString (withDefault (number inputs) (VStr (js "23")))))
            28 (default 3 (baseThickness inputs)) 2 50 68)
  /\ geometries !! "name" =
     Some (textSolid jscad font
             (take 14 (toUpperCase
                (ToString (withDefault (playerName inputs) (VStr (js "SMITH"))))))
             10 (default 3 (baseThickness inputs)) 2 50 26).
Proof.
  intros Hgen.
  destruct (generate_regions jscad font inputs geometries Hgen)
    as (numberGeom & nameGeom & Hnum & Hname & Hn & Hm & _).
  apply buildText_textSolid in Hnum. apply buildText_textSolid in Hname.
  unfold numStr in Hnum. unfold nameStr in Hname.
  rewrite substring_from_start in Hnum, Hname.
  cbn [opt_size opt_z opt_height opt_centerX opt_centerY default from_option]
    in Hnum, Hname.
  unfold Datatypes.id in Hnum, Hname.
  rewrite Hn, Hm, Hnum, Hname. split; reflexivity.
Qed.

Lemma generate_returns (jscad : Modeling) (font : Font) (inputs : Inputs) :
  acceptsOutlines jscad -> unitsPerEm font <> 0 ->
  exists geometries : gmap string (option geom),
    generate jscad font inputs = Ok geometries.
Proof.
  intros Hacc Hunits. unfold generate. cbv zeta.
  set (silhouette := jerseyPoints _).
  assert (Hlen : (3 <= length silhouette)%nat) by (cbn; lia).
  unfold buildBody.
  destruct (polygonOrThrow_accepts _ _ Hacc Hlen) as [outer ->].
  cbn [mbind outcome_bind].
  destruct (buildText_returns jscad font
              (numStr (withDefault (number inputs) (VStr (js "23"))))
              {| opt_size := Some 28;
                 opt_z := Some (default 3 (baseThickness inputs));
                 opt_height := Some 2; opt_centerX := Some 50;
                 opt_centerY := Some 68 |} Hunits) as [numberGeom ->].
  cbn [mbind outcome_bind].
  destruct (buildText_returns jscad font
              (nameStr (withDefault (playerName inputs) (VStr (js "SMITH"))))
              {| opt_size := Some 10;
                 opt_z := Some (default 3 (baseThickness inputs));
                 opt_height := Some 2; opt_centerX := Some 50;
                 opt_centerY := Some 26 |} Hunits) as [nameGeom ->].
  cbn [mbind outcome_bind].
  destruct (truthy (withDefault (showTrim inputs) (VBool true)));
    [|eexists; reflexivity].
  unfold buildTrim.
  destruct (polygonOrThrow_accepts _ _ Hacc Hlen) as [outer' ->].
  cbn [mbind outcome_bind].
  rewrite shrinkPolygon_offsetPolygon. cbn [mbind outcome_bind].
  assert (Hlen' : (3 <= length (offsetPolygon silhouette (15 / 10)))%nat)
    by (rewrite offsetPolygon_length; exact Hlen).
  destruct (polygonOrThrow_accepts _ _ Hacc Hlen') as [inner ->].
  eexists. reflexivity.
Qed.

End TextRegions.

(** The environment of the examples: its library accepts every outline, and
    a text of two or more code units is rendered as the union of one solid
    for each. *)
Lemma example_acceptsOutlines : acceptsOutlines Example.modeling.
Proof.
  intros pts Hlen. cbn [Example.modeling polygon].
  destruct (3 <=? length pts)%nat eqn:E; [now eexists|].
  apply Nat.leb_gt in E. lia.
Qed.

Lemma example_unitsPerEm : unitsPerEm Example.font <> 0.
Proof. cbn. lra. Qed.

Lemma textSolid_example (text : jsstring) (size z height centerX centerY : R) :
  trim text <> [] -> (2 <= length text)%nat ->
  exists solids : list geom,
    textSolid Example.modeling Example.font text size z height centerX centerY
    = Some (GeomArray solids) /\ length solids = length text.
Proof.
  intros Htrim Hlen. unfold textSolid.
  rewrite bool_decide_eq_false_2 by exact Htrim. cbv zeta.
  set (f := fun '(poly, offsetX) => _).
  assert (Hl : forall glyphs pen,
             length (placedPolygons Example.modeling Example.font size
                       (size / unitsPerEm Example.font)
                       (map (fun _ : N => Example.glyph) glyphs) pen)
             = length glyphs).
  { intros glyphs. induction glyphs as [|g glyphs IH]; intros pen; [reflexivity|].
    cbn [map placedPolygons]. rewrite length_app, IH. reflexivity. }
  specialize (Hl text 0).
  change (stringToGlyphs Example.font text)
    with (map (fun _ : N => Example.glyph) text).
  destruct (placedPolygons _ _ _ _ _ _) as [|a [|b polys]] eqn:E;
    cbn [length] in Hl; try lia.
  exists (map f (a :: b :: polys)). split; [reflexivity|].
  rewrite length_map. cbn [length]. lia.
Qed.

(** C10, as the code has it.  In the Region Map that [generate] returns, the
    number is the rendering, at size 28 and centred on (50, 68), of the first
    2 code units of [String(number)], and the name the rendering, at size 10
    and centred on (50, 26), of the first 14 code units of
    [String(playerName).toUpperCase()]: the name is upper-cased first and cut
    afterwards.  This holds whatever kind of value the two fields hold, and a
    longer text is cut; [generate] reads the two fields in no other way:
    inputs that agree on the two texts as cut and on the other fields give
    the same result. *)
Theorem generate_reads_truncated_text `{Builtins} :
  (forall (jscad : Modeling) (font : Font) (inputs : Inputs)
          (geometries : gmap string (option geom)),
      generate jscad font inputs = Ok geometries ->
      geometries !! "number" =
        Some (textSolid jscad font
                (take 2 (ToString (withDefault (number inputs) (VStr (js "23")))))
                28 (default 3 (baseThickness inputs)) 2 50 68)
      /\ geometries !! "name" =
         Some (textSolid jscad font
                 (take 14 (toUpperCase
                    (ToString (withDefault (playerName inputs)
                                           (VStr (js "SMITH"))))))
                 10 (default 3 (baseThickness inputs)) 2 50 26))
  /\ (forall (jscad : Modeling) (font : Font) (i1 i2 : Inputs),
         jerseyStyle i1 = jerseyStyle i2 ->
         showTrim i1 = showTrim i2 ->
         baseThickness i1 = baseThickness i2 ->
         take 2 (ToString (withDefault (number i1) (VStr (js "23")))) =
           take 2 (ToString (withDefault (number i2) (VStr (js "23")))) ->
         take 14 (toUpperCase
                    (ToString (withDefault (playerName i1) (VStr (js "SMITH"))))) =
           take 14 (toUpperCase
                      (ToString (withDefault (playerName i2) (VStr (js "SMITH"))))) ->
         generate jscad font i1 = generate jscad font i2).
Proof.
  split.
  - intros jscad font inputs geometries. apply generate_text_regions.
  - intros jscad font i1 i2 Hs Ht Hb Hn Hp. unfold generate, numStr, nameStr.
    rewrite !substring_from_start. now rewrite Hs, Ht, Hb, Hn, Hp.
Qed.

(** A number of four digits and a name of nineteen letters: the number
    region is "12" rendered and the name region "ABDUL-JABBAR K". *)
Lemma generate_reads_truncated_text_witness :
  exists geometries : gmap string (option geom),
    @generate Example.builtins Example.modeling Example.font
      {| playerName := VStr (js "Abdul-Jabbar Kareem");
         number := VStr (js "1234");
         jerseyStyle := VStr (js "Retro"); showTrim := VBool true;
         baseThickness := None |} = Ok geometries
    /\ geometries !! "number" =
       Some (textSolid Example.modeling Example.font (js "12") 28 3 2 50 68)
    /\ geometries !! "name" =
       Some (textSolid Example.modeling Example.font (js "ABDUL-JABBAR K")
               10 3 2 50 26).
Proof.
  destruct (@generate_returns Example.builtins Example.modeling Example.font
              {| playerName := VStr (js "Abdul-Jabbar Kareem");
                 number := VStr (js "1234");
                 jerseyStyle := VStr (js "Retro"); showTrim := VBool true;
                 baseThickness := None |}
              example_acceptsOutlines example_unitsPerEm) as [geometries Hgen].
  exists geometries. split; [exact Hgen|].
  destruct (@generate_reads_truncated_text Example.builtins) as [Hregions _].
  exact (Hregions _ _ _ _ Hgen).
Defined.

(** C10, as the claim states it, fails where a code unit is not a
    character and where upper-casing changes the length.  Of the number
    "1", U+1F600, "2" the code keeps "1" and the first half of the surrogate
    pair, where the first 2 characters are "1" and U+1F600.  Of the name of
    fifteen letters that begins with a sharp s, which upper-cases to SS, the
    code renders SSABCDEFGHIJKL, 14 solids, where the first 14 letters
    upper-cased are SSABCDEFGHIJKLM: the name region is not that text
    rendered. *)
Lemma generate_cuts_code_units :
  @numStr Example.builtins (VStr [49; 55357; 56832; 50]%N) = [49; 55357]%N
  /\ firstCharacters 2 [49; 55357; 56832; 50]%N = [49; 55357; 56832]%N
  /\ @nameStr Example.builtinsSharpS (VStr (223%N :: js "abcdefghijklmn"))
     = js "SSABCDEFGHIJKL"
  /\ @toUpperCase Example.builtinsSharpS
       (firstCharacters 14 (223%N :: js "abcdefghijklmn"))
     = js "SSABCDEFGHIJKLM"
  /\ exists geometries : gmap string (option geom),
       @generate Example.builtinsSharpS Example.modeling Example.font
         {| playerName := VStr (223%N :: js "abcdefghijklmn");
            number := VStr (js "7");
            jerseyStyle := VUndefined; showTrim := VBool false;
            baseThickness := None |} = Ok geometries
       /\ geometries !! "name" <>
          Some (textSolid Example.modeling Example.font
                  (@toUpperCase Example.builtinsSharpS
                     (firstCharacters 14 (223%N :: js "abcdefghijklmn")))
                  10 3 2 50 26).
Proof.
  repeat (split; [reflexivity|]).
  destruct (@generate_returns Example.builtinsSharpS Example.modeling
              Example.font
              {| playerName := VStr (223%N :: js "abcdefghijklmn");
                 number := VStr (js "7");
                 jerseyStyle := VUndefined; showTrim := VBool false;
                 baseThickness := None |}
              example_acceptsOutlines example_unitsPerEm) as [geometries Hgen].
  exists geometries. split; [exact Hgen|].
  destruct (@generate_text_regions Example.builtinsSharpS _ _ _ _ Hgen)
    as [_ Hname].
  rewrite Hname.
  cbn [playerName withDefault ToString baseThickness default from_option].
  unfold Datatypes.id.
  destruct (textSolid_example
              (take 14 (@toUpperCase Example.builtinsSharpS
                          (223%N :: js "abcdefghijklmn")))
              10 3 2 50 26) as (s1 & -> & H1); [discriminate | cbn; lia |].
  destruct (textSolid_example
              (@toUpperCase Example.builtinsSharpS
                 (firstCharacters 14 (223%N :: js "abcdefghijklmn")))
              10 3 2 50 26) as (s2 & -> & H2); [discriminate | cbn; lia |].
  intros [= Heq]. rewrite Heq in H1. rewrite H1 in H2. discriminate H2.
Qed.

Close Scope R_scope.

(** Where upper-casing maps code unit to code unit, as it does on ASCII, it
    makes no difference whether the name is cut before or after it. *)
Lemma nameStr_ascii (s : jsstring) :
  @nameStr Example.builtins (VStr s) = map Example.asciiUpper (take 14 s).
Proof.
  unfold nameStr. rewrite substring_from_start. apply firstn_map.
Qed.

(** ** Binary Mesh Serializer *)

Lemma byteOf_to_N (n : N) : Byte.to_N (byteOf n) = (n mod 256)%N.
Proof.
  unfold byteOf. destruct (Byte.of_N (n mod 256)) as [b|] eqn:E.
  - now apply Byte.to_of_N.
  - apply Byte.of_N_None_iff in E.
    pose proof (N.mod_upper_bound n 256). lia.
Qed.

Lemma readU32le_u32le (w : N) (rest : list byte) :
  word32 w -> readU32le (u32le w ++ rest) = w.
Proof.
  unfold word32, readU32le, u32le. intros Hw. cbn [app].
  rewrite !byteOf_to_N.
  assert (H1 : (w / 65536 = w / 256 / 256)%N) by (now rewrite N.Div0.div_div).
  assert (H2 : (w / 16777216 = w / 256 / 256 / 256)%N)
    by (now rewrite !N.Div0.div_div).
  rewrite H1, H2.
  pose proof (N.div_mod w 256 ltac:(lia)) as E0.
  pose proof (N.div_mod (w / 256) 256 ltac:(lia)) as E1.
  pose proof (N.div_mod (w / 256 / 256) 256 ltac:(lia)) as E2.
  assert (E3 : (w / 256 / 256 / 256 < 256)%N).
  { rewrite !N.Div0.div_div. apply N.Div0.div_lt_upper_bound. lia. }
  rewrite (N.mod_small (w / 256 / 256 / 256) 256) by exact E3.
  lia.
Qed.

Lemma u32le_length (w : N) : length (u32le w) = 4%nat.
Proof. reflexivity. Qed.

Lemma vec3Bytes_length (v : vec3) : length (vec3Bytes v) = 12%nat.
Proof. reflexivity. Qed.

Lemma triangleBytes_length (t : triangle) : length (triangleBytes t) = 50%nat.
Proof. reflexivity. Qed.

Lemma bodyBytes_length (mesh : list triangle) :
  length (bodyBytes mesh) = (50 * length mesh)%nat.
Proof.
  unfold bodyBytes. induction mesh as [|t mesh IH]; [reflexivity|].
  cbn [flat_map]. rewrite length_app, IH, triangleBytes_length. cbn [length]. lia.
Qed.

Lemma stlBytes_length (mesh : list triangle) :
  length (stlBytes mesh) = (84 + 50 * length mesh)%nat.
Proof.
  unfold stlBytes. rewrite !length_app, bodyBytes_length.
  unfold headerBytes, countBytes. rewrite repeat_length, u32le_length. lia.
Qed.

Lemma readVec3_vec3Bytes (v : vec3) (rest : list byte) :
  vec3Ok v -> readVec3 (vec3Bytes v ++ rest) = v.
Proof.
  intros (Hx & Hy & Hz). destruct v as [x y z]. cbn [vx vy vz] in *.
  unfold readVec3, vec3Bytes. cbn [vx vy vz].
  rewrite <- !app_assoc.
  rewrite (readU32le_u32le x) by exact Hx.
  change (drop 4 (u32le x ++ u32le y ++ u32le z ++ rest)) with (u32le y ++ u32le z ++ rest).
  change (drop 8 (u32le x ++ u32le y ++ u32le z ++ rest)) with (u32le z ++ rest).
  rewrite (readU32le_u32le y) by exact Hy.
  now rewrite (readU32le_u32le z) by exact Hz.
Qed.

Lemma readTriangle_triangleBytes (t : triangle) (rest : list byte) :
  triangleOk t -> readTriangle (triangleBytes t ++ rest) = t.
Proof.
  intros (Hn & Ha & Hb & Hc). destruct t as [n a b c]. cbn [normal vertexA vertexB vertexC] in *.
  unfold readTriangle, triangleBytes. cbn [normal vertexA vertexB vertexC].
  rewrite <- !app_assoc.
  rewrite (readVec3_vec3Bytes n) by exact Hn.
  change (drop 12 (vec3Bytes n ++ vec3Bytes a ++ vec3Bytes b ++ vec3Bytes c ++ [x00; x00] ++ rest))
    with (vec3Bytes a ++ vec3Bytes b ++ vec3Bytes c ++ [x00; x00] ++ rest).
  change (drop 24 (vec3Bytes n ++ vec3Bytes a ++ vec3Bytes b ++ vec3Bytes c ++ [x00; x00] ++ rest))
    with (vec3Bytes b ++ vec3Bytes c ++ [x00; x00] ++ rest).
  change (drop 36 (vec3Bytes n ++ vec3Bytes a ++ vec3Bytes b ++ vec3Bytes c ++ [x00; x00] ++ rest))
    with (vec3Bytes c ++ [x00; x00] ++ rest).
  rewrite (readVec3_vec3Bytes a) by exact Ha.
  rewrite (readVec3_vec3Bytes b) by exact Hb.
  now rewrite (readVec3_vec3Bytes c) by exact Hc.
Qed.

Lemma readTriangles_bodyBytes (mesh : list triangle) (rest : list byte) :
  Forall triangleOk mesh ->
  readTriangles (length mesh) (bodyBytes mesh ++ rest) = mesh.
Proof.
  induction mesh as [|t mesh IH]; intros Hok; [reflexivity|].
  apply Forall_cons in Hok as [Ht Hok].
  cbn [length readTriangles]. unfold bodyBytes. cbn [flat_map].
  rewrite <- app_assoc. rewrite (readTriangle_triangleBytes t) by exact Ht.
  rewrite (drop_app_length' (triangleBytes t)) by reflexivity.
  f_equal. now apply IH.
Qed.

(** The layout of section 6 has the size the specification states and can
    be read back: 84 + 50 N bytes, from which the triangle count and every
    triangle are recovered. *)
Lemma stl_layout_round_trip (mesh : list triangle) :
  meshOk mesh ->
  length (stlBytes mesh) = (84 + 50 * length mesh)%nat
  /\ parseStl (stlBytes mesh) = (N.of_nat (length mesh), mesh).
Proof.
  intros [Hcount Hok]. split; [apply stlBytes_length|].
  unfold parseStl, stlBytes. cbv zeta.
  rewrite (drop_app_length' headerBytes) by reflexivity.
  replace (drop 84 (headerBytes ++ countBytes mesh ++ bodyBytes mesh))
    with (bodyBytes mesh).
  2:{ rewrite app_assoc. rewrite drop_app_length'; [reflexivity|].
      rewrite length_app. reflexivity. }
  unfold countBytes. rewrite (readU32le_u32le _ _ Hcount).
  rewrite Nat2N.id. f_equal.
  rewrite <- (app_nil_r (bodyBytes mesh)). now apply readTriangles_bodyBytes.
Qed.

(** Of an array of ArrayBuffers only the first reaches the Blob. *)
Lemma exportRegionSTL_first_chunk (serialize : Serializer) (region : Region)
    (geometry : geom) (inputs : Inputs) (design : Design) :
  exists solids : list geom,
    exportRegionSTL serialize region (Some geometry) inputs design =
    [ {| filename := stlName design (region_id region);
         content := match serialize solids with
                    | RawBuffer b => Some b
                    | RawArray bs => bs !! 0%nat
                    end |} ].
Proof.
  exists (match geometry with GeomArray gs => gs | _ => [geometry] end).
  reflexivity.
Qed.

(** C9.  What [exportRegionSTL] downloads when the serializer returns the
    file as the array of ArrayBuffers [header; count; triangles]: the Blob is
    built from [rawData[0]] alone, the 80-byte header.  The buffer has 80
    bytes whatever the number of triangles, never 84 + 50 N, and holds
    neither the count nor a vertex. *)
Theorem exportRegionSTL_keeps_header_only
    (toMesh : list geom -> list triangle) (region : Region) (geometry : geom)
    (inputs : Inputs) (design : Design) :
  exportRegionSTL (chunkedSerializer toMesh) region (Some geometry) inputs
                  design =
    [ {| filename := stlName design (region_id region);
         content := Some headerBytes |} ]
  /\ length headerBytes = 80%nat
  /\ forall n : nat, length headerBytes <> (84 + 50 * n)%nat.
Proof.
  split; [reflexivity|]. split; [reflexivity|].
  intros n. change (length headerBytes) with 80%nat. lia.
Qed.

(** Had the serializer returned one ArrayBuffer, the download would be the
    whole file. *)
Lemma exportRegionSTL_whole_buffer
    (toMesh : list geom -> list triangle) (region : Region) (geometry : geom)
    (inputs : Inputs) (design : Design) :
  exists mesh : list triangle,
    exportRegionSTL (wholeSerializer toMesh) region (Some geometry) inputs
                    design =
      [ {| filename := stlName design (region_id region);
           content := Some (stlBytes mesh) |} ]
    /\ length (stlBytes mesh) = (84 + 50 * length mesh)%nat.
Proof.
  exists (toMesh (match geometry with GeomArray gs => gs | _ => [geometry] end)).
  split; [reflexivity|apply stlBytes_length].
Qed.

(* ===================================================================== *)
(** * Part III: further properties of the code                            *)
(* ===================================================================== *)

Import Vocabulary.

Open Scope R_scope.

(** ** The silhouette *)

(** X1.  For every style the silhouette fills the 100 by 120 box: every
    point lies in it, and the corners (0,0) and (100,0) and the top edge
    y = 120 are reached.  It is symmetric about the centre line x = 50: the
    mirror image of the points is the same closed outline walked the other
    way round. *)
Theorem jerseyPoints_box_and_symmetry (style : value) :
  Forall (inBox (0, 0) (100, 120)) (jerseyPoints style)
  /\ In (0, 0) (jerseyPoints style)
  /\ In (100, 0) (jerseyPoints style)
  /\ (exists x : R, In (x, 120) (jerseyPoints style))
  /\ map mirror (jerseyPoints style) = reverse (rotate 2 (jerseyPoints style)).
Proof.
  unfold jerseyPoints. cbv zeta. split; [|split; [|split; [|split]]].
  - unfold inBox. style_cases style;
      repeat (apply List.Forall_cons; [cbn [fst snd]; lra|]);
      apply List.Forall_nil.
  - now left.
  - right. now left.
  - eexists. do 5 right. left. reflexivity.
  - unfold mirror. style_cases style; cbn; repeat (f_equal; try lra).
Qed.

(** X2.  The armhole is a cut of no width: for every style the outline runs
    from the shoulder-drop point straight down to the armhole-depth point and
    straight back up through the shoulder-drop point to the top edge, on
    both sides.  The armhole depth therefore encloses no area: the signed
    area is that of the outline without the two armhole-depth points. *)
Theorem jerseyPoints_armhole_spur (style : value) :
  exists p3 p4 p5 p9 p10 p11 : point,
    jerseyPoints style !! 3%nat = Some p3
    /\ jerseyPoints style !! 4%nat = Some p4
    /\ jerseyPoints style !! 5%nat = Some p5
    /\ jerseyPoints style !! 9%nat = Some p9
    /\ jerseyPoints style !! 10%nat = Some p10
    /\ jerseyPoints style !! 11%nat = Some p11
    /\ p4.2 < p3.2 < p5.2 /\ onSegment p4 p5 p3
    /\ p10.2 < p11.2 < p9.2 /\ onSegment p10 p9 p11
    /\ signedArea (jerseyPoints style) =
       signedArea (delete 4%nat (delete 10%nat (jerseyPoints style))).
Proof.
  unfold jerseyPoints. cbv zeta.
  do 6 eexists. do 6 (split; [reflexivity|]).
  unfold onSegment. cbn [fst snd].
  style_cases style;
    (split; [lra|]);
    (split; [first [ exists (2 / 5); split; [lra | f_equal; lra]
                   | exists (5 / 12); split; [lra | f_equal; lra] ]|]);
    (split; [lra|]);
    (split; [first [ exists (2 / 5); split; [lra | f_equal; lra]
                   | exists (5 / 12); split; [lra | f_equal; lra] ]|]);
    unfold_shoelace; simpl; lra.
Qed.

(** ** The curve samplers *)

(** X3.  The quadratic sampler is the cubic sampler on the elevated control
    points: both samplers draw the same curve for the same segment. *)
Theorem sampleQuadratic_as_cubic (x0 y0 x1 y1 x2 y2 : R) (steps : nat) :
  sampleQuadratic x0 y0 x1 y1 x2 y2 steps =
  sampleCubic x0 y0
    (elevate (x0, y0) (x1, y1)).1 (elevate (x0, y0) (x1, y1)).2
    (elevate (x2, y2) (x1, y1)).1 (elevate (x2, y2) (x1, y1)).2
    x2 y2 steps.
Proof.
  unfold sampleQuadratic, sampleCubic, elevate. cbn [fst snd].
  apply map_ext. intros i. generalize (INR i / INR steps). intros t.
  cbv zeta. f_equal; field.
Qed.

(** The parameter of the i-th of [steps] samples lies in the unit interval,
    and a curve point is a weighted mean of the control points. *)
Lemma unit_interval (i steps : nat) :
  (1 <= i <= steps)%nat -> 0 <= INR i / INR steps <= 1.
Proof.
  intros [Hi Hs].
  assert (H0 : 0 < INR steps) by (apply lt_0_INR; lia).
  assert (H1 : 0 <= INR i) by apply pos_INR.
  assert (H2 : INR i <= INR steps) by (apply le_INR; lia).
  split.
  - apply Rmult_le_pos; [exact H1|]. left. now apply Rinv_0_lt_compat.
  - apply (Rmult_le_reg_r (INR steps)); [exact H0|].
    unfold Rdiv. rewrite Rmult_assoc, Rinv_l; lra.
Qed.

Lemma weighted_between (w x lo hi : R) :
  0 <= w -> lo <= x <= hi -> 0 <= w * (x - lo) /\ 0 <= w * (hi - x).
Proof. intros Hw Hx. split; apply Rmult_le_pos; lra. Qed.

Lemma cubic_between (t a b c d lo hi : R) :
  0 <= t <= 1 ->
  lo <= a <= hi -> lo <= b <= hi -> lo <= c <= hi -> lo <= d <= hi ->
  lo <= (1 - t) * (1 - t) * (1 - t) * a + 3 * (1 - t) * (1 - t) * t * b
        + 3 * (1 - t) * t * t * c + t * t * t * d <= hi.
Proof.
  intros Ht Ha Hb Hc Hd.
  assert (W0 : 0 <= (1 - t) * (1 - t) * (1 - t))
    by (repeat apply Rmult_le_pos; lra).
  assert (W1 : 0 <= 3 * (1 - t) * (1 - t) * t)
    by (repeat apply Rmult_le_pos; lra).
  assert (W2 : 0 <= 3 * (1 - t) * t * t)
    by (repeat apply Rmult_le_pos; lra).
  assert (W3 : 0 <= t * t * t) by (repeat apply Rmult_le_pos; lra).
  destruct (weighted_between _ _ _ _ W0 Ha), (weighted_between _ _ _ _ W1 Hb),
    (weighted_between _ _ _ _ W2 Hc), (weighted_between _ _ _ _ W3 Hd).
  split; lra.
Qed.

Lemma quadratic_between (t a b c lo hi : R) :
  0 <= t <= 1 ->
  lo <= a <= hi -> lo <= b <= hi -> lo <= c <= hi ->
  lo <= (1 - t) * (1 - t) * a + 2 * (1 - t) * t * b + t * t * c <= hi.
Proof.
  intros Ht Ha Hb Hc.
  assert (W0 : 0 <= (1 - t) * (1 - t)) by (repeat apply Rmult_le_pos; lra).
  assert (W1 : 0 <= 2 * (1 - t) * t) by (repeat apply Rmult_le_pos; lra).
  assert (W2 : 0 <= t * t) by (repeat apply Rmult_le_pos; lra).
  destruct (weighted_between _ _ _ _ W0 Ha), (weighted_between _ _ _ _ W1 Hb),
    (weighted_between _ _ _ _ W2 Hc).
  split; lra.
Qed.

Lemma sampleCubic_inBox (lo hi : point) (x0 y0 x1 y1 x2 y2 x3 y3 : R)
    (steps : nat) :
  inBox lo hi (x0, y0) -> inBox lo hi (x1, y1) ->
  inBox lo hi (x2, y2) -> inBox lo hi (x3, y3) ->
  Forall (inBox lo hi) (sampleCubic x0 y0 x1 y1 x2 y2 x3 y3 steps).
Proof.
  unfold inBox. cbn [fst snd]. intros [X0 Y0] [X1 Y1] [X2 Y2] [X3 Y3].
  unfold sampleCubic. apply Forall_map, Forall_forall. intros i Hi.
  apply elem_of_seq in Hi.
  pose proof (unit_interval i steps ltac:(lia)) as Ht.
  cbv zeta. cbn [fst snd]. split; now apply cubic_between.
Qed.

(** X4.  Every sample of a curve lies in the bounding box of its control
    points, whatever the number of steps. *)
Theorem samples_stay_in_control_box (lo hi : point) :
  (forall (x0 y0 x1 y1 x2 y2 x3 y3 : R) (steps : nat),
      inBox lo hi (x0, y0) -> inBox lo hi (x1, y1) ->
      inBox lo hi (x2, y2) -> inBox lo hi (x3, y3) ->
      Forall (inBox lo hi) (sampleCubic x0 y0 x1 y1 x2 y2 x3 y3 steps))
  /\ (forall (x0 y0 x1 y1 x2 y2 : R) (steps : nat),
         inBox lo hi (x0, y0) -> inBox lo hi (x1, y1) ->
         inBox lo hi (x2, y2) ->
         Forall (inBox lo hi) (sampleQuadratic x0 y0 x1 y1 x2 y2 steps)).
Proof.
  split.
  - intros. now apply sampleCubic_inBox.
  - unfold inBox. cbn [fst snd].
    intros x0 y0 x1 y1 x2 y2 steps [X0 Y0] [X1 Y1] [X2 Y2].
    unfold sampleQuadratic. apply Forall_map, Forall_forall. intros i Hi.
    apply elem_of_seq in Hi.
    pose proof (unit_interval i steps ltac:(lia)) as Ht.
    cbv zeta. cbn [fst snd]. split; now apply quadratic_between.
Qed.

Lemma samples_stay_in_control_box_witness :
  Forall (inBox (0, 0) (4, 4)) (sampleCubic 4 0 4 2 2 4 0 4 BEZIER_STEPS).
Proof.
  apply samples_stay_in_control_box; unfold inBox; cbn [fst snd]; lra.
Defined.

(** ** Glyph outlines *)

(** The loop does not look at the contours it has emitted: running it from
    a state with more of them in front gives the same state with them in
    front. *)
Lemma flush_prefixed (pre : list (list point)) (st : pathState) :
  flush (prefixed pre st) = pre ++ flush st.
Proof.
  unfold flush, prefixed. cbn [current contours].
  destruct (2 <? length (current st))%nat; [now rewrite app_assoc | reflexivity].
Qed.

Lemma pathStep_prefixed (pre : list (list point)) (st : pathState)
    (cmd : command) :
  pathStep (prefixed pre st) cmd = prefixed pre (pathStep st cmd).
Proof.
  destruct cmd; cbn [pathStep]; rewrite ?flush_prefixed; reflexivity.
Qed.

Lemma path_loop_prefixed (pre : list (list point)) (commands : list command)
    (st : pathState) :
  fold_left pathStep commands (prefixed pre st) =
  prefixed pre (fold_left pathStep commands st).
Proof.
  revert st. induction commands as [|cmd commands IH]; intros st;
    [reflexivity|].
  cbn [fold_left]. now rewrite pathStep_prefixed, IH.
Qed.

(** X5.  A path decomposes at its move commands: the contours of a path
    are those of the part before a move command followed by those of the
    part from the move command on.  A close command at the end adds
    nothing: the last subpath is emitted whether or not it is closed. *)
Theorem pathToContours_splits_at_move :
  (forall (before after : list command) (x y scale : R),
      pathToContours (before ++ CmdM x y :: after) scale =
      pathToContours before scale ++ pathToContours (CmdM x y :: after) scale)
  /\ (forall (commands : list command) (scale : R),
         pathToContours (commands ++ [CmdZ]) scale =
         pathToContours commands scale).
Proof.
  split.
  - intros before after x y scale. unfold pathToContours.
    rewrite fold_left_app. cbn [fold_left].
    set (st := fold_left pathStep before pathInit).
    assert (Hstep : pathStep st (CmdM x y) =
                    prefixed (flush st) (pathStep pathInit (CmdM x y))).
    { unfold prefixed. cbn. now rewrite app_nil_r. }
    now rewrite Hstep, path_loop_prefixed, flush_prefixed.
  - intros commands scale. unfold pathToContours.
    rewrite fold_left_app. cbn [fold_left pathStep].
    unfold flush at 1. reflexivity.
Qed.

(** The last of the 8 samples is the one at i = 8. *)
Lemma sample_last (f : nat -> point) (pre : list point) :
  last (pre ++ map f (seq 1 BEZIER_STEPS)) = Some (f BEZIER_STEPS).
Proof.
  unfold BEZIER_STEPS.
  change (seq 1 8) with (seq 1 7 ++ [8%nat]).
  rewrite map_app. cbn [map]. rewrite app_assoc. apply last_snoc.
Qed.

(** Every command keeps the pen at the end of the contour. *)
Lemma pathStep_pen (st : pathState) (cmd : command) :
  current st = [] \/ last (current st) = Some (cx st, cy st) ->
  current (pathStep st cmd) = []
  \/ last (current (pathStep st cmd)) =
     Some (cx (pathStep st cmd), cy (pathStep st cmd)).
Proof.
  intros Hinv. destruct cmd as [x y|x y|x1 y1 x2 y2 x y|x1 y1 x y| |];
    cbn [pathStep current cx cy].
  - now right.
  - right. apply last_snoc.
  - right. rewrite sampleCubic_bezier, sample_last.
    unfold BEZIER_STEPS. replace (INR 8 / INR 8) with 1 by (simpl; field).
    now destruct (bezier_ends (cx st, cy st) (x1, y1) (x2, y2) (x, y))
      as (_ & -> & _).
  - right. rewrite sampleQuadratic_bezier, sample_last.
    unfold BEZIER_STEPS. replace (INR 8 / INR 8) with 1 by (simpl; field).
    now destruct (bezier_ends (cx st, cy st) (x1, y1) (x, y) (x, y))
      as (_ & _ & _ & ->).
  - now left.
  - exact Hinv.
Qed.

(** X6.  The pen follows the contour: whatever the commands read so far,
    the contour being built is empty or ends at the pen position, so a curve
    command continues the contour from its last point: it appends the curve
    from that point at t = 1/8, ..., 8/8. *)
Theorem pathToContours_pen_follows :
  (forall commands : list command,
      let st := fold_left pathStep commands pathInit in
      current st = [] \/ last (current st) = Some (cx st, cy st))
  /\ (forall (commands : list command) (p : point) (x1 y1 x2 y2 x y : R),
         let st := fold_left pathStep commands pathInit in
         last (current st) = Some p ->
         current (pathStep st (CmdC x1 y1 x2 y2 x y)) =
           current st
           ++ map (fun i : nat => bezier3 p (x1, y1) (x2, y2) (x, y) (INR i / 8))
                  (seq 1 8)
         /\ current (pathStep st (CmdQ x1 y1 x y)) =
              current st
              ++ map (fun i : nat => bezier2 p (x1, y1) (x, y) (INR i / 8))
                     (seq 1 8)).
Proof.
  assert (Hinv : forall commands st,
             current st = [] \/ last (current st) = Some (cx st, cy st) ->
             let st' := fold_left pathStep commands st in
             current st' = [] \/ last (current st') = Some (cx st', cy st')).
  { induction commands as [|cmd commands IH]; intros st Hst; [exact Hst|].
    cbn [fold_left]. apply IH. now apply pathStep_pen. }
  split.
  - intros commands. apply Hinv. now left.
  - intros commands p x1 y1 x2 y2 x y st Hlast.
    pose proof (Hinv commands pathInit (or_introl eq_refl)) as Hst.
    cbv zeta in Hst. fold st in Hst. destruct Hst as [Hnil|Hpen].
    + rewrite Hnil in Hlast. discriminate Hlast.
    + rewrite Hlast in Hpen. injection Hpen as ->.
      assert (H8 : INR BEZIER_STEPS = 8) by (unfold BEZIER_STEPS; simpl; lra).
      cbn [pathStep current].
      rewrite sampleCubic_bezier, sampleQuadratic_bezier, H8.
      split; reflexivity.
Qed.

Lemma pathToContours_pen_follows_witness :
  let st := fold_left pathStep [CmdM 0 0; CmdL 4 0] pathInit in
  current (pathStep st (CmdC 4 2 2 4 0 4)) =
    [(0, 0); (4, 0)]
    ++ map (fun i : nat => bezier3 (4, 0) (4, 2) (2, 4) (0, 4) (INR i / 8))
           (seq 1 8).
Proof.
  intros st.
  exact (proj1 (proj2 pathToContours_pen_follows [CmdM 0 0; CmdL 4 0] (4, 0)
                  4 2 2 4 0 4 eq_refl)).
Defined.

(** ** The polygon offsetter under translation, reversal and scaling *)







(** Reversing a polygon reverses its corners and flips each of them, which
    turns the direction of every vertex round. *)
Lemma zip_with_reverse {A B C : Type} (f : A -> B -> C) (l : list A)
    (k : list B) :
  length l = length k ->
  zip_with f (reverse l) (reverse k) = reverse (zip_with f l k).
Proof.
  revert k. induction l as [|a l IH]; intros [|b k] Hlen;
    try discriminate Hlen; [reflexivity|].
  cbn [zip_with]. rewrite !reverse_cons, zip_with_app, IH.
  - reflexivity.
  - simpl in Hlen. lia.
  - rewrite !length_reverse. simpl in Hlen. lia.
Qed.

Lemma rotl_reverse (l : list point) : rotl (reverse l) = reverse (rotr l).
Proof.
  destruct l as [|a l] using rev_ind; [reflexivity|].
  rewrite rotr_snoc, reverse_snoc, reverse_cons. reflexivity.
Qed.

Lemma rotr_reverse (l : list point) : rotr (reverse l) = reverse (rotl l).
Proof.
  destruct l as [|a l]; [reflexivity|].
  cbn [rotl]. now rewrite reverse_cons, rotr_snoc, reverse_snoc.
Qed.

Lemma corners_reverse (l : list point) :
  corners (reverse l) = reverse (map flipCorner (corners l)).
Proof.
  rewrite !corners_rot, rotl_reverse, rotr_reverse.
  rewrite !zip_with_reverse
    by (rewrite ?length_zip_with, ?rotl_length, ?rotr_length; lia).
  f_equal.
  assert (Hzip : forall A P B : list point,
             zip (zip B P) A = map flipCorner (zip (zip A P) B)).
  { induction A as [|a A IH]; intros [|p P] [|b B]; try reflexivity.
    cbn [zip_with map]. now rewrite IH. }
  apply Hzip.
Qed.

Lemma unitBisector_flip (c : point * point * point) :
  unitBisector (flipCorner c) =
  (- (unitBisector c).1, - (unitBisector c).2).
Proof.
  destruct c as [[prev p] next]. unfold flipCorner, unitBisector, bisector.
  cbn [fst snd].
  rewrite (rightNormal_reverse p next), (rightNormal_reverse prev p).
  cbn [fst snd]. unfold dot. cbn [fst snd].
  set (n1 := rightNormal prev p). set (n2 := rightNormal p next).
  replace ((- n2.1 + - n1.1) * (- n2.1 + - n1.1)
           + (- n2.2 + - n1.2) * (- n2.2 + - n1.2))
    with ((n1.1 + n2.1) * (n1.1 + n2.1) + (n1.2 + n2.2) * (n1.2 + n2.2))
    by ring.
  pose proof (orElse_one_nonzero
                (sqrt ((n1.1 + n2.1) * (n1.1 + n2.1)
                       + (n1.2 + n2.2) * (n1.2 + n2.2)))) as Hl.
  f_equal; field; exact Hl.
Qed.

Lemma offsetPolygon_reverse (points : list point) (d : R) :
  offsetPolygon (reverse points) d = reverse (offsetPolygon points (- d)).
Proof.
  rewrite !offsetPolygon_corners, corners_reverse.
  rewrite <- !fmap_reverse, <- list_fmap_compose.
  apply list_fmap_ext. intros _ c _. cbn [compose].
  rewrite unitBisector_flip.
  destruct c as [[prev p] next]. unfold flipCorner, move. cbn [fst snd].
  f_equal; ring.
Qed.

(** X8.  Offsetting follows the winding: the points listed in the opposite
    order are offset by [amount] to where the original order is offset by
    [- amount].  What shrinks one way round grows the other way round. *)
Theorem shrinkPolygon_reversed_winding (points : list point) (amount : R) :
  exists out : list point,
    shrinkPolygon points (- amount) = Ok out
    /\ shrinkPolygon (reverse points) amount = Ok (reverse out).
Proof.
  exists (offsetPolygon points (- amount)).
  now rewrite !shrinkPolygon_offsetPolygon, offsetPolygon_reverse.
Qed.

(** The offset polygon, read as the points moved along their directions. *)
Lemma zip_with_move_unit (d : R) (points directions : list point) :
  zip_with (fun p u : point => (p.1 + d * (u.1 - p.1), p.2 + d * (u.2 - p.2)))
           points (zip_with (move 1) points directions) =
  zip_with (move d) points directions.
Proof.
  revert directions. induction points as [|p points IH];
    intros [|u directions]; try reflexivity.
  cbn [zip_with]. rewrite IH. f_equal.
  unfold move. cbn [fst snd]. f_equal; ring.
Qed.

Lemma zip_with_move_zero (points directions : list point) :
  length directions = length points ->
  zip_with (move 0) points directions = points.
Proof.
  revert directions. induction points as [|p points IH];
    intros [|u directions] Hlen; try discriminate Hlen; [reflexivity|].
  cbn [zip_with]. rewrite IH by (simpl in Hlen; lia).
  f_equal. unfold move. destruct p. cbn [fst snd]. f_equal; ring.
Qed.

(** X9.  The direction a vertex moves in does not depend on the amount:
    the displacement for [amount] is [amount] times the displacement for 1,
    negative amounts included, and an amount of 0 returns the polygon as it
    is. *)
Theorem shrinkPolygon_displacement_scales :
  (forall (points : list point) (amount : R),
      exists unit out : list point,
        shrinkPolygon points 1 = Ok unit
        /\ shrinkPolygon points amount = Ok out
        /\ out = zip_with (fun p u : point =>
                             (p.1 + amount * (u.1 - p.1),
                              p.2 + amount * (u.2 - p.2)))
                          points unit)
  /\ (forall points : list point, shrinkPolygon points 0 = Ok points).
Proof.
  split.
  - intros points amount.
    exists (offsetPolygon points 1), (offsetPolygon points amount).
    rewrite !shrinkPolygon_offsetPolygon. repeat split.
    now rewrite !offsetPolygon_move, zip_with_move_unit.
  - intros points.
    rewrite shrinkPolygon_offsetPolygon, offsetPolygon_move,
      zip_with_move_zero; [reflexivity | apply directions_length].
Qed.

(** ** Text *)

(** The polygons the two loops of [buildText] collect, leaving the offsets
    aside. *)
Lemma pushContour_loop (jscad : Modeling) (cursorX : R)
    (contours : list (list point)) (acc : list (geom2 jscad * R)) :
  map fst (fold_left (pushContour jscad cursorX) contours acc) =
  map fst acc ++ omap (contourPolygon jscad) contours.
Proof.
  revert acc. induction contours as [|pts contours IH]; intros acc.
  - cbn. now rewrite app_nil_r.
  - cbn [fold_left omap list_omap]. rewrite IH.
    unfold pushContour, contourPolygon.
    destruct (3 <=? length pts)%nat; [|reflexivity].
    destruct (polygon jscad pts) as [poly|]; [|reflexivity].
    rewrite map_app. cbn [map fst]. now rewrite <- app_assoc.
Qed.

Lemma glyphLoop_polygons (jscad : Modeling) (font : Font) (size scale : R)
    (glyphs : list Glyph) (cursorX : R) (acc : list (geom2 jscad * R)) :
  map fst (snd (glyphLoop jscad font size scale glyphs cursorX acc)) =
  map fst acc
  ++ flat_map (fun glyph =>
                 omap (contourPolygon jscad)
                      (pathToContours (getPath glyph 0 0 size) scale))
              glyphs.
Proof.
  revert cursorX acc. induction glyphs as [|glyph rest IH]; intros cursorX acc.
  - cbn. now rewrite app_nil_r.
  - cbn [glyphLoop flat_map]. cbv zeta. rewrite IH, pushContour_loop.
    now rewrite <- app_assoc.
Qed.

Lemma trim_empty : trim [] = [].
Proof. reflexivity. Qed.

(** X10.  When [buildText] returns, it returns null exactly when the text
    is blank or none of the contours of its glyphs becomes a polygon (fewer
    than 3 points, or [primitives.polygon] throws, which is caught). *)
Theorem buildText_null_iff_no_polygon (jscad : Modeling) (font : Font)
    (text : jsstring) (opts : textOpts) (result : option geom) :
  buildText jscad font text opts = Ok result ->
  (result = None <->
   trim text = []
   \/ textPolygons jscad font (default 20 (opt_size opts))
        (default 20 (opt_size opts) / unitsPerEm font) text = []).
Proof.
  unfold buildText. cbv zeta.
  destruct (negb (truthy (VStr text)) || bool_decide (trim text = []))
    eqn:Hblank.
  - intros [= <-]. split; [|reflexivity]. intros _. left.
    apply orb_true_iff in Hblank as [Hempty|Htrim].
    + destruct text; [apply trim_empty | discriminate Hempty].
    + now apply bool_decide_eq_true in Htrim.
  - apply orb_false_iff in Hblank as [_ Htrim].
    apply bool_decide_eq_false in Htrim.
    unfold div. destruct (Req_dec_T (unitsPerEm font) 0); [discriminate|].
    cbn [mbind outcome_bind].
    pose proof (glyphLoop_polygons jscad font (default 20 (opt_size opts))
                  (default 20 (opt_size opts) / unitsPerEm font)
                  (stringToGlyphs font text) 0 []) as Hpolys.
    fold (textPolygons jscad font (default 20 (opt_size opts))
            (default 20 (opt_size opts) / unitsPerEm font) text) in Hpolys.
    destruct (glyphLoop _ _ _ _ _ _ _) as [cursorX allPolygons].
    cbn [snd map app] in Hpolys.
    destruct allPolygons as [|[poly offsetX] allPolygons].
    + intros [= <-]. split; [|reflexivity].
      intros _. right. now rewrite <- Hpolys.
    + cbn [length Nat.eqb map].
      assert (Hsome : forall solid : geom,
                 Some solid = None <->
                 trim text = []
                 \/ textPolygons jscad font (default 20 (opt_size opts))
                      (default 20 (opt_size opts) / unitsPerEm font) text
                    = []).
      { intros solid. split; [discriminate|].
        intros [Hnil|Hnil]; [contradiction|].
        rewrite <- Hpolys in Hnil. discriminate Hnil. }
      destruct (map _ allPolygons) as [|solid rest];
        intros [= <-]; apply Hsome.
Qed.

Lemma buildText_null_iff_no_polygon_witness :
  exists result : option geom,
    buildText Example.modeling Example.font (js "7")
      {| opt_size := Some 28; opt_z := Some 3; opt_height := Some 2;
         opt_centerX := Some 50; opt_centerY := Some 68 |} = Ok result
    /\ (result = None <->
        trim (js "7") = []
        \/ textPolygons Example.modeling Example.font 28 (28 / 1000) (js "7")
           = []).
Proof.
  destruct (buildText_returns Example.modeling Example.font (js "7")
              {| opt_size := Some 28; opt_z := Some 3; opt_height := Some 2;
                 opt_centerX := Some 50; opt_centerY := Some 68 |}
              example_unitsPerEm) as [result Hresult].
  exists result. split; [exact Hresult|].
  exact (buildText_null_iff_no_polygon _ _ _ _ _ Hresult).
Defined.

(** ** The Region Map *)

Section RegionMap.
Context `{Builtins}.

(** The Region Map of a successful [generate], entry by entry. *)
Lemma generate_ok_inv (jscad : Modeling) (font : Font) (inputs : Inputs)
    (geometries : gmap string (option geom)) :
  generate jscad font inputs = Ok geometries ->
  exists (bodyGeom : geom) (numberGeom nameGeom trimGeom : option geom),
    geometries =
      <["body" := Some bodyGeom]>
        (<["number" := numberGeom]>
           (<["name" := nameGeom]> (<["trim" := trimGeom]> ∅)))
    /\ (trimGeom = None <-> trimWanted inputs = false).
Proof.
  unfold generate, trimWanted. cbv zeta. intros Hgen.
  apply bind_ok in Hgen as (bodyGeom & _ & Hgen).
  apply bind_ok in Hgen as (numberGeom & _ & Hgen).
  apply bind_ok in Hgen as (nameGeom & _ & Hgen).
  apply bind_ok in Hgen as (trimGeom & Htrim & Hgen).
  injection Hgen as <-.
  exists bodyGeom, numberGeom, nameGeom, trimGeom. split; [reflexivity|].
  destruct (truthy (withDefault (showTrim inputs) (VBool true))).
  - apply bind_ok in Htrim as (g & _ & Hg). injection Hg as <-.
    split; discriminate.
  - injection Htrim as <-. split; reflexivity.
Qed.

(** X11.  The Region Map that [generate] returns has an entry, possibly
    null, for each of the four colour regions of the design's config and for
    nothing else.  The body is never null, and the trim is null exactly when
    [showTrim] is falsy (a missing [showTrim] counts as true). *)
Theorem generate_region_map (jscad : Modeling) (font : Font) (inputs : Inputs)
    (geometries : gmap string (option geom)) :
  generate jscad font inputs = Ok geometries ->
  (forall rid : string,
      is_Some (geometries !! rid) <->
      rid ∈ map region_id (colorRegions Config.basketballJersey))
  /\ (exists bodyGeom : geom, geometries !! "body" = Some (Some bodyGeom))
  /\ (geometries !! "trim" = Some None <-> trimWanted inputs = false).
Proof.
  intros Hgen.
  apply generate_ok_inv in Hgen
    as (bodyGeom & numberGeom & nameGeom & trimGeom & -> & Htrim).
  split; [|split].
  - intros rid. cbn [Config.basketballJersey colorRegions map region_id].
    rewrite !elem_of_cons, elem_of_nil.
    rewrite !lookup_insert_is_Some, lookup_empty, is_Some_alt.
    clear Htrim. destruct (decide (rid = "body")) as [->|Hb];
      [intuition congruence|].
    destruct (decide (rid = "number")) as [->|Hn]; [intuition congruence|].
    destruct (decide (rid = "name")) as [->|Hm]; [intuition congruence|].
    destruct (decide (rid = "trim")) as [->|Ht]; [intuition congruence|].
    intuition congruence.
  - now exists bodyGeom.
  - rewrite <- Htrim. rewrite !lookup_insert_ne by discriminate.
    rewrite lookup_insert. split; [now intros [= ->] | now intros ->].
Qed.

(** X12.  [generate] throws when [primitives.polygon] throws on the
    silhouette, whatever the texts.  When it returns, the body of the Region
    Map is the silhouette extruded by the base thickness (3 when the input is
    missing), and the trim, when it is wanted, is the silhouette minus the
    silhouette offset by 1.5, extruded by the base thickness plus 2. *)
Theorem generate_body_and_trim (jscad : Modeling) (font : Font)
    (inputs : Inputs) :
  (polygon jscad (jerseyPoints (styleOf inputs)) = None ->
   generate jscad font inputs = Throws)
  /\ (forall geometries : gmap string (option geom),
         generate jscad font inputs = Ok geometries ->
         exists outer : geom2 jscad,
           polygon jscad (jerseyPoints (styleOf inputs)) = Some outer
           /\ geometries !! "body" =
              Some (Some (extrudeLinear jscad
                            (default 3 (baseThickness inputs)) outer))
           /\ (trimWanted inputs = true ->
               exists (innerPts : list point) (inner : geom2 jscad),
                 shrinkPolygon (jerseyPoints (styleOf inputs)) (15 / 10)
                   = Ok innerPts
                 /\ polygon jscad innerPts = Some inner
                 /\ geometries !! "trim" =
                    Some (Some (extrudeLinear jscad
                                  (default 3 (baseThickness inputs) + 2)
                                  (subtract jscad outer inner))))).
Proof.
  unfold generate, styleOf, trimWanted. cbv zeta. split.
  - intros Hthrow. unfold buildBody, polygonOrThrow. now rewrite Hthrow.
  - intros geometries Hgen.
    apply bind_ok in Hgen as (bodyGeom & Hbody & Hgen).
    apply bind_ok in Hgen as (numberGeom & _ & Hgen).
    apply bind_ok in Hgen as (nameGeom & _ & Hgen).
    apply bind_ok in Hgen as (trimGeom & Htrim & Hgen).
    assert (Hmap : <["body" := Some bodyGeom]>
                     (<["number" := numberGeom]>
                        (<["name" := nameGeom]> (<["trim" := trimGeom]> ∅)))
                   = geometries) by congruence.
    clear Hgen. subst geometries.
    unfold buildBody, polygonOrThrow in Hbody.
    destruct (polygon jscad (jerseyPoints _)) as [outer|] eqn:Houter;
      [|discriminate Hbody].
    cbn [mbind outcome_bind] in Hbody.
    assert (Hb : extrudeLinear jscad (default 3 (baseThickness inputs)) outer
                 = bodyGeom) by congruence.
    exists outer. split; [reflexivity|]. split.
    + rewrite lookup_insert_eq. now rewrite Hb.
    + intros Hwanted. rewrite Hwanted in Htrim.
      apply bind_ok in Htrim as (g & Hg & Hsome).
      assert (Hgt : Some g = trimGeom) by congruence.
      unfold buildTrim, polygonOrThrow in Hg. rewrite Houter in Hg.
      cbn [mbind outcome_bind] in Hg.
      rewrite shrinkPolygon_offsetPolygon in Hg |- *.
      cbn [mbind outcome_bind] in Hg.
      destruct (polygon jscad (offsetPolygon _ _)) as [inner|] eqn:Hinner;
        [|discriminate Hg].
      cbn [mbind outcome_bind] in Hg.
      assert (Hring : extrudeLinear jscad
                        (default 3 (baseThickness inputs) + 2)
                        (subtract jscad outer inner) = g) by congruence.
      eexists _, inner. split; [reflexivity|]. split; [exact Hinner|].
      rewrite !lookup_insert_ne by discriminate.
      rewrite lookup_insert_eq. now rewrite <- Hgt, Hring.
Qed.
End RegionMap.

Lemma generate_region_map_witness :
  exists geometries : gmap string (option geom),
    @generate Example.builtins Example.modeling Example.font
      Example.blankInputs = Ok geometries
    /\ (exists bodyGeom : geom, geometries !! "body" = Some (Some bodyGeom))
    /\ (geometries !! "trim" = Some None <->
        trimWanted Example.blankInputs = false).
Proof.
  eexists. split; [reflexivity|].
  eapply (@generate_region_map Example.builtins Example.modeling Example.font
            Example.blankInputs). reflexivity.
Defined.

Lemma generate_body_and_trim_witness :
  exists (geometries : gmap string (option geom))
         (outer : geom2 Example.modeling),
    @generate Example.builtins Example.modeling Example.font
      {| playerName := VStr (js "JORDAN"); number := VStr (js "23");
         jerseyStyle := VStr (js "Retro"); showTrim := VUndefined;
         baseThickness := Some 4 |} = Ok geometries
    /\ geometries !! "body" =
       Some (Some (extrudeLinear Example.modeling 4 outer)).
Proof.
  destruct (@generate_returns Example.builtins Example.modeling Example.font
              {| playerName := VStr (js "JORDAN"); number := VStr (js "23");
                 jerseyStyle := VStr (js "Retro"); showTrim := VUndefined;
                 baseThickness := Some 4 |}
              example_acceptsOutlines example_unitsPerEm) as [geometries Hgen].
  destruct (@generate_body_and_trim Example.builtins Example.modeling
              Example.font
              {| playerName := VStr (js "JORDAN"); number := VStr (js "23");
                 jerseyStyle := VStr (js "Retro"); showTrim := VUndefined;
                 baseThickness := Some 4 |}) as [_ Hok].
  destruct (Hok geometries Hgen) as (outer & _ & Hbody & _).
  exists geometries, outer. split; [exact Hgen | exact Hbody].
Defined.

Close Scope R_scope.

(** ** Position buffers *)

(** A face adds the coordinates of its fan, whatever its number of
    vertices; so does a list of faces. *)
Lemma pushFace_triangles (positions : list R) (poly : face) :
  knownFace poly ->
  pushFace positions poly =
  positions ++ flat_map triangleCoords (faceTriangles poly).
Proof.
  unfold knownFace, faceTriangles, pushFace.
  destruct (vertices poly) as [verts|]; [|now rewrite app_nil_r].
  intros Hk. destruct (length verts <? 3)%nat eqn:E.
  - apply Nat.ltb_lt in E.
    destruct verts as [|v0 [|v1 [|v2 verts]]]; try (simpl in E; lia);
      cbn; now rewrite app_nil_r.
  - apply Nat.ltb_ge in E. destruct verts as [|v0 rest]; [simpl in E; lia|].
    replace (length (v0 :: rest) - 2)%nat with (length rest - 1)%nat
      by (simpl; lia).
    apply (fan_loop v0 rest [] positions). exact Hk.
Qed.

Lemma faceTriangles_coords_length (poly : face) :
  knownFace poly ->
  length (flat_map triangleCoords (faceTriangles poly)) =
  (9 * length (faceTriangles poly))%nat.
Proof.
  unfold knownFace, faceTriangles.
  destruct (vertices poly) as [[|v0 rest]|]; try reflexivity.
  intros Hk. cbn [fanTriangles].
  now rewrite fanFrom_coords_length, fanFrom_length.
Qed.

Lemma pushFace_loop (polys : list face) (positions : list R) :
  Forall knownFace polys ->
  fold_left pushFace polys positions =
  positions ++ flat_map triangleCoords (flat_map faceTriangles polys).
Proof.
  revert positions. induction polys as [|poly polys IH];
    intros positions Hk.
  - cbn. now rewrite app_nil_r.
  - apply Forall_cons in Hk as [Hpoly Hpolys].
    cbn [fold_left flat_map]. rewrite IH, pushFace_triangles by assumption.
    now rewrite flat_map_app, app_assoc.
Qed.

Lemma solid_coords_length (polys : list face) :
  Forall knownFace polys ->
  length (flat_map triangleCoords (flat_map faceTriangles polys)) =
  (9 * length (flat_map faceTriangles polys))%nat.
Proof.
  induction polys as [|poly polys IH]; intros Hk; [reflexivity|].
  apply Forall_cons in Hk as [Hpoly Hpolys].
  cbn [flat_map]. rewrite flat_map_app, !length_app, IH by assumption.
  rewrite faceTriangles_coords_length by assumption. lia.
Qed.

Lemma solid_buffer (polys : list face) :
  Forall knownFace polys ->
  jscadToThreeGeometry (Geom3 (Some polys)) =
  flat_map triangleCoords (flat_map faceTriangles polys).
Proof.
  intros Hk. cbn [jscadToThreeGeometry default from_option id].
  unfold Datatypes.id. now rewrite pushFace_loop.
Qed.

(** X13.  The position buffer of a solid is the fan triangles of its faces,
    face after face, 9 coordinates a triangle; faces with fewer than 3
    vertices or without a vertex list add nothing, and a solid without a
    polygon list gives the empty buffer. *)
Theorem solid_position_buffer :
  (forall polys : list face,
      Forall knownFace polys ->
      jscadToThreeGeometry (Geom3 (Some polys)) =
        flat_map triangleCoords (flat_map faceTriangles polys)
      /\ length (jscadToThreeGeometry (Geom3 (Some polys))) =
         (9 * length (flat_map faceTriangles polys))%nat)
  /\ jscadToThreeGeometry (Geom3 None) = [].
Proof.
  split; [|reflexivity]. intros polys Hk.
  rewrite solid_buffer by assumption.
  split; [reflexivity | now apply solid_coords_length].
Qed.

Lemma solid_position_buffer_witness :
  jscadToThreeGeometry
    (Geom3 (Some [Example.cap 0 [(0, 0); (1, 0); (1, 1); (0, 1)]%R;
                  {| vertices := Some [VertexPos 0 0 0; VertexPos 1 0 0] |};
                  {| vertices := None |}])) =
  flat_map triangleCoords
    (flat_map faceTriangles
       [Example.cap 0 [(0, 0); (1, 0); (1, 1); (0, 1)]%R;
        {| vertices := Some [VertexPos 0 0 0; VertexPos 1 0 0] |};
        {| vertices := None |}]).
Proof.
  apply solid_position_buffer.
  repeat constructor; discriminate.
Defined.

(** Cutting a buffer down to whole vertices, and when that changes
    nothing. *)
Lemma wholeTriples_whole (positions : list R) :
  wholeVertices (wholeTriples positions).
Proof.
  unfold wholeVertices, wholeTriples. rewrite length_take.
  pose proof (Nat.Div0.mul_div_le (length positions) 3).
  rewrite Nat.min_l by lia.
  rewrite Nat.mul_comm. apply Nat.Div0.mod_mul.
Qed.

Lemma wholeTriples_id (positions : list R) :
  wholeVertices positions -> wholeTriples positions = positions.
Proof.
  unfold wholeVertices, wholeTriples. intros Hmod.
  apply take_ge.
  pose proof (Nat.div_mod_eq (length positions) 3). lia.
Qed.

Lemma concat_whole (parts : list (list R)) :
  Forall wholeVertices parts -> wholeVertices (concat parts).
Proof.
  unfold wholeVertices. induction parts as [|part parts IH]; intros Hk;
    [reflexivity|].
  apply Forall_cons in Hk as [Hpart Hparts]. cbn [concat].
  rewrite length_app, <- Nat.Div0.add_mod_idemp_l, Hpart. cbn [Nat.add].
  now apply IH.
Qed.

(** X14.  An array of geometries is merged by concatenating the buffers of
    its elements, each cut down to whole vertices first: the merged buffer
    always holds whole vertices, and it is the plain concatenation when the
    buffers of the elements do, as those of solids with known vertex shapes
    do. *)
Theorem array_position_buffer :
  (forall gs : list geom,
      wholeVertices (jscadToThreeGeometry (GeomArray gs)))
  /\ (forall gs : list geom,
         Forall (fun g => wholeVertices (jscadToThreeGeometry g)) gs ->
         jscadToThreeGeometry (GeomArray gs) =
         concat (map jscadToThreeGeometry gs))
  /\ (forall polys : list face,
         Forall knownFace polys ->
         wholeVertices (jscadToThreeGeometry (Geom3 (Some polys)))).
Proof.
  split; [|split].
  - intros gs. cbn [jscadToThreeGeometry]. apply concat_whole.
    apply Forall_map, Forall_forall. intros g _. apply wholeTriples_whole.
  - intros gs Hk. cbn [jscadToThreeGeometry]. f_equal.
    induction gs as [|g gs IH]; [reflexivity|].
    apply Forall_cons in Hk as [Hg Hgs]. cbn [List.map map].
    now rewrite wholeTriples_id, IH.
  - intros polys Hk. unfold wholeVertices.
    rewrite solid_buffer, solid_coords_length by assumption.
    replace (9 * length (flat_map faceTriangles polys))%nat
      with (3 * length (flat_map faceTriangles polys) * 3)%nat by lia.
    apply Nat.Div0.mod_mul.
Qed.

Lemma array_position_buffer_witness :
  jscadToThreeGeometry
    (GeomArray [Geom3 None;
                Geom3 (Some [Example.cap 0 [(0, 0); (1, 0); (1, 1)]%R])]) =
  concat (map jscadToThreeGeometry
              [Geom3 None;
               Geom3 (Some [Example.cap 0 [(0, 0); (1, 0); (1, 1)]%R])]).
Proof.
  apply array_position_buffer.
  repeat (apply List.Forall_cons; [reflexivity|]). apply List.Forall_nil.
Defined.

(** ** The meshes of the viewer *)

(** Deleting every key of a map leaves the empty map. *)
Lemma delete_all_keys {V : Type} (m : gmap string V) :
  foldr delete m (map fst (map_to_list m)) = ∅.
Proof.
  apply map_eq. intros k. rewrite lookup_empty.
  assert (Hfold : forall (keys : list string) (m' : gmap string V),
             foldr delete m' keys !! k =
             if bool_decide (k ∈ keys) then None else m' !! k).
  { induction keys as [|key keys IH]; intros m'; [reflexivity|].
    cbn [foldr]. destruct (decide (k = key)) as [->|Hne].
    - rewrite lookup_delete_eq. rewrite bool_decide_eq_true_2; [reflexivity|].
      apply elem_of_cons. now left.
    - rewrite lookup_delete_ne by congruence. rewrite IH.
      destruct (decide (k ∈ keys)) as [Hin|Hnin].
      + rewrite !bool_decide_eq_true_2; [reflexivity| |assumption].
        apply elem_of_cons. now right.
      + rewrite !bool_decide_eq_false_2; [reflexivity| |assumption].
        rewrite elem_of_cons. intros [?|?]; contradiction. }
  rewrite Hfold. destruct (m !! k) as [v|] eqn:Hk.
  - rewrite bool_decide_eq_true_2; [reflexivity|].
    apply list_elem_of_fmap. exists (k, v). split; [reflexivity|].
    now apply elem_of_map_to_list.
  - now destruct (bool_decide _).
Qed.

(** [loadGeometries] region by region: the group and the map in closed
    form. *)
Lemma loadGeometries_snoc (geometries : gmap string (option geom))
    (colorRegions : list Region) (region : Region)
    (colorMap : gmap string string) :
  loadGeometries geometries (colorRegions ++ [region]) colorMap =
  loadRegion geometries colorMap
    (loadGeometries geometries colorRegions colorMap) region.
Proof. unfold loadGeometries. now rewrite fold_left_app. Qed.

Lemma loadRegion_mesh (geometries : gmap string (option geom))
    (colorMap : gmap string string) (sc : Scene) (region : Region) :
  loadRegion geometries colorMap sc region =
  match regionMesh geometries colorMap region with
  | Some mesh =>
      {| meshMap := <[region_id region := mesh]> (meshMap sc);
         modelGroup := modelGroup sc ++ [mesh] |}
  | None => sc
  end.
Proof.
  unfold loadRegion, regionMesh.
  now destruct (geometries !! region_id region) as [[g|]|].
Qed.

Lemma regionsNamed_snoc (rid : string) (colorRegions : list Region)
    (region : Region) :
  regionsNamed rid (colorRegions ++ [region]) =
  regionsNamed rid colorRegions
  ++ (if bool_decide (region_id region = rid) then [region] else []).
Proof. unfold regionsNamed. now rewrite List.filter_app. Qed.

Lemma loadGeometries_group (geometries : gmap string (option geom))
    (colorRegions : list Region) (colorMap : gmap string string) :
  modelGroup (loadGeometries geometries colorRegions colorMap) =
  omap (regionMesh geometries colorMap) colorRegions.
Proof.
  induction colorRegions as [|region colorRegions IH] using rev_ind;
    [reflexivity|].
  rewrite loadGeometries_snoc, loadRegion_mesh, omap_app.
  cbn [omap list_omap].
  destruct (regionMesh geometries colorMap region) as [mesh|];
    cbn [modelGroup]; rewrite IH; [reflexivity | now rewrite app_nil_r].
Qed.

Lemma loadGeometries_lookup (geometries : gmap string (option geom))
    (colorRegions : list Region) (colorMap : gmap string string)
    (rid : string) :
  meshMap (loadGeometries geometries colorRegions colorMap) !! rid =
  last (omap (regionMesh geometries colorMap)
             (regionsNamed rid colorRegions)).
Proof.
  induction colorRegions as [|region colorRegions IH] using rev_ind;
    [reflexivity|].
  rewrite loadGeometries_snoc, loadRegion_mesh, regionsNamed_snoc, omap_app.
  destruct (decide (region_id region = rid)) as [Heq|Hne].
  - rewrite bool_decide_eq_true_2 by assumption. cbn [omap list_omap].
    destruct (regionMesh geometries colorMap region) as [mesh|].
    + cbn [meshMap]. rewrite Heq, lookup_insert_eq. now rewrite last_snoc.
    + now rewrite app_nil_r.
  - rewrite bool_decide_eq_false_2 by assumption. cbn [omap list_omap].
    rewrite app_nil_r.
    destruct (regionMesh geometries colorMap region) as [mesh|];
      [|exact IH].
    cbn [meshMap]. now rewrite lookup_insert_ne.
Qed.

Lemma regionsNamed_NoDup (colorRegions : list Region) (region : Region) :
  NoDup (map region_id colorRegions) -> region ∈ colorRegions ->
  regionsNamed (region_id region) colorRegions = [region].
Proof.
  induction colorRegions as [|r colorRegions IH]; intros Hnd Hin.
  - now apply elem_of_nil in Hin.
  - cbn [map] in Hnd. apply NoDup_cons in Hnd as [Hr Hnd].
    unfold regionsNamed in *. cbn [List.filter].
    apply elem_of_cons in Hin as [->|Hin].
    + rewrite bool_decide_eq_true_2 by reflexivity. f_equal.
      assert (Hnone : Forall (fun r' => region_id r' <> region_id r)
                             colorRegions).
      { apply Forall_forall. intros r' Hr' Heq. apply Hr.
        rewrite <- Heq. now apply list_elem_of_fmap_2. }
      clear -Hnone. induction Hnone as [|r' l Hne _ IH]; [reflexivity|].
      cbn [List.filter]. now rewrite bool_decide_eq_false_2.
    + rewrite bool_decide_eq_false_2; [now apply IH|].
      intros Heq. apply Hr. rewrite Heq.
      now apply list_elem_of_fmap_2.
Qed.

(** X15.  [loadGeometries] builds one mesh for each colour region that has
    a geometry, in the order of the colour regions: its position buffer is
    that of the geometry, its colour the entry of the colour map, or the
    default of the region where the map has none or an empty one, or
    #888888 where the region has none either.  The mesh registered under an
    identifier is the one of the last colour region with that identifier
    that has a geometry; with no identifier repeated, each region's own. *)
Theorem loadGeometries_meshes_and_colours
    (geometries : gmap string (option geom)) (colorRegions : list Region)
    (colorMap : gmap string string) :
  modelGroup (loadGeometries geometries colorRegions colorMap) =
    omap (regionMesh geometries colorMap) colorRegions
  /\ (forall rid : string,
         meshMap (loadGeometries geometries colorRegions colorMap) !! rid =
         last (omap (regionMesh geometries colorMap)
                    (regionsNamed rid colorRegions)))
  /\ (NoDup (map region_id colorRegions) ->
      forall region : Region,
        region ∈ colorRegions ->
        meshMap (loadGeometries geometries colorRegions colorMap)
          !! region_id region =
        regionMesh geometries colorMap region)
  /\ (forall (region : Region) (hex : string),
         colorMap !! region_id region = Some hex -> hex <> EmptyString ->
         regionColor colorMap region = hex)
  /\ (forall region : Region,
         colorMap !! region_id region = None
         \/ colorMap !! region_id region = Some EmptyString ->
         regionColor colorMap region =
         strOr (region_default region) "#888888").
Proof.
  split; [apply loadGeometries_group|].
  split; [apply loadGeometries_lookup|].
  split; [|split].
  - intros Hnd region Hin.
    rewrite loadGeometries_lookup, regionsNamed_NoDup by assumption.
    cbn [omap list_omap]. now destruct (regionMesh _ _ _).
  - intros region hex Hhex Hne. unfold regionColor. rewrite Hhex.
    cbn [strOr]. now rewrite bool_decide_eq_false_2.
  - intros region [Hnone|Hempty]; unfold regionColor.
    + now rewrite Hnone.
    + now rewrite Hempty.
Qed.

Lemma loadGeometries_meshes_and_colours_witness :
  meshMap (loadGeometries {["body" := Some (Geom3 None)]}
             (colorRegions Config.basketballJersey)
             {["body" := "#00FF00"]}) !! "body" =
  regionMesh {["body" := Some (Geom3 None)]} {["body" := "#00FF00"]}
    {| region_id := "body"; region_label := "Jersey Body";
       region_default := Some "#C8102E" |}.
Proof.
  destruct (loadGeometries_meshes_and_colours
              {["body" := Some (Geom3 None)]}
              (colorRegions Config.basketballJersey)
              {["body" := "#00FF00"]}) as (_ & _ & Hown & _).
  assert (Hnd : NoDup (map region_id (colorRegions Config.basketballJersey)))
    by (apply (bool_decide_unpack _); reflexivity).
  apply (Hown Hnd {| region_id := "body"; region_label := "Jersey Body";
                     region_default := Some "#C8102E" |}).
  apply elem_of_cons. now left.
Defined.

(** The closure keeps its meshes apart: every state the viewer reaches is
    well kept, and seen as a scene it is the scene of [Viewer]. *)
Lemma loadRegion_wellKept (geometries : gmap string (option geom))
    (colorMap : gmap string string) (st : ViewerApi.Closure) (region : Region) :
  wellKept st -> wellKept (ViewerApi.loadRegion geometries colorMap st region).
Proof.
  intros Hst. unfold ViewerApi.loadRegion.
  destruct (geometries !! region_id region) as [[g|]|]; try exact Hst.
  intros rid mesh. cbn [ViewerApi.meshMap ViewerApi.modelGroup].
  rewrite length_app. cbn [length].
  destruct (decide (region_id region = rid)) as [<-|Hne].
  - rewrite lookup_insert_eq. intros [= <-]. split; [lia|].
    intros rid'. destruct (decide (region_id region = rid')) as [|Hne'];
      [congruence|].
    rewrite lookup_insert_ne by assumption. intros Hrid'.
    apply Hst in Hrid' as [Hlt _]. lia.
  - rewrite lookup_insert_ne by assumption. intros Hrid.
    destruct (Hst _ _ Hrid) as [Hlt Hinj]. split; [lia|].
    intros rid'. destruct (decide (region_id region = rid')) as [<-|Hne'].
    + rewrite lookup_insert_eq. intros [= <-]. lia.
    + rewrite lookup_insert_ne by assumption. apply Hinj.
Qed.

Lemma load_loop_wellKept (geometries : gmap string (option geom))
    (colorMap : gmap string string) (colorRegions : list Region)
    (st : ViewerApi.Closure) :
  wellKept st ->
  wellKept (fold_left (ViewerApi.loadRegion geometries colorMap)
                      colorRegions st).
Proof.
  revert st. induction colorRegions as [|region colorRegions IH];
    intros st Hst; [exact Hst|].
  cbn [fold_left]. now apply IH, loadRegion_wellKept.
Qed.

Lemma reachable_wellKept (st : ViewerApi.Closure) :
  reachable st -> wellKept st.
Proof.
  induction 1 as [|st geometries colorRegions colorMap _ _
                  |st regionId hex _ IH].
  - intros rid mesh. cbn. now rewrite lookup_empty.
  - unfold ViewerApi.loadGeometries. cbv zeta.
    apply load_loop_wellKept. intros rid mesh. cbn [ViewerApi.meshMap].
    now rewrite delete_all_keys, lookup_empty.
  - unfold ViewerApi.setRegionColor.
    destruct (ViewerApi.meshMap st !! regionId) as [mesh|]; [|exact IH].
    intros rid mesh'. cbn [ViewerApi.meshMap ViewerApi.modelGroup].
    rewrite length_alter. apply IH.
Qed.

Lemma loadRegion_scene (geometries : gmap string (option geom))
    (colorMap : gmap string string) (st : ViewerApi.Closure) (region : Region) :
  wellKept st ->
  sceneOf (ViewerApi.loadRegion geometries colorMap st region) =
  loadRegion geometries colorMap (sceneOf st) region.
Proof.
  intros Hst. unfold ViewerApi.loadRegion, loadRegion.
  destruct (geometries !! region_id region) as [[g|]|]; try reflexivity.
  cbv zeta. unfold sceneOf.
  cbn [ViewerApi.meshMap ViewerApi.modelGroup meshMap modelGroup].
  f_equal. apply map_eq. intros rid. rewrite lookup_omap.
  destruct (decide (region_id region = rid)) as [<-|Hne].
  - rewrite !lookup_insert_eq. cbn [mbind option_bind].
    now rewrite list_lookup_middle.
  - rewrite !lookup_insert_ne, lookup_omap by assumption.
    destruct (ViewerApi.meshMap st !! rid) as [mesh|] eqn:Hrid;
      [|reflexivity].
    cbn [mbind option_bind]. apply lookup_app_l. now apply (Hst rid).
Qed.

Lemma load_loop_scene (geometries : gmap string (option geom))
    (colorMap : gmap string string) (colorRegions : list Region)
    (st : ViewerApi.Closure) :
  wellKept st ->
  sceneOf (fold_left (ViewerApi.loadRegion geometries colorMap)
                     colorRegions st) =
  fold_left (loadRegion geometries colorMap) colorRegions (sceneOf st).
Proof.
  revert st. induction colorRegions as [|region colorRegions IH];
    intros st Hst; [reflexivity|].
  cbn [fold_left]. rewrite IH by now apply loadRegion_wellKept.
  now rewrite loadRegion_scene.
Qed.

Lemma loadGeometries_scene (st : ViewerApi.Closure)
    (geometries : gmap string (option geom)) (colorRegions : list Region)
    (colorMap : gmap string string) :
  sceneOf (ViewerApi.loadGeometries st geometries colorRegions colorMap) =
  loadGeometries geometries colorRegions colorMap.
Proof.
  unfold ViewerApi.loadGeometries, loadGeometries. cbv zeta.
  rewrite delete_all_keys, load_loop_scene.
  - unfold sceneOf. cbn [ViewerApi.meshMap ViewerApi.modelGroup].
    now rewrite omap_empty.
  - intros rid mesh. cbn. now rewrite lookup_empty.
Qed.

(** X16.  [setRegionColor] recolours the mesh of one region and nothing
    else: in every state the viewer can be in, the meshes, their position
    buffers and the meshes of the other regions stay as they are, and a
    region without a mesh (no geometry, or an unknown identifier) leaves the
    state untouched.  [loadGeometries] starts afresh: the state it leads to
    does not depend on the one before, recolourings included. *)
Theorem setRegionColor_recolours_one_mesh (st : ViewerApi.Closure)
    (regionId hex : string) :
  reachable st ->
  let st' := ViewerApi.setRegionColor st regionId hex in
  ViewerApi.meshMap st' = ViewerApi.meshMap st
  /\ map mesh_positions (ViewerApi.modelGroup st') =
     map mesh_positions (ViewerApi.modelGroup st)
  /\ meshOf st' regionId = ViewerApi.setMeshColor hex <$> meshOf st regionId
  /\ (forall rid : string, rid <> regionId -> meshOf st' rid = meshOf st rid)
  /\ (meshOf st regionId = None -> st' = st)
  /\ (forall (geometries : gmap string (option geom))
             (colorRegions : list Region) (colorMap : gmap string string),
         ViewerApi.loadGeometries st' geometries colorRegions colorMap =
         ViewerApi.loadGeometries st geometries colorRegions colorMap
         /\ sceneOf (ViewerApi.loadGeometries st geometries colorRegions
                                               colorMap) =
            loadGeometries geometries colorRegions colorMap).
Proof.
  intros Hreach st'. pose proof (reachable_wellKept st Hreach) as Hst.
  subst st'. unfold ViewerApi.setRegionColor, meshOf.
  destruct (ViewerApi.meshMap st !! regionId) as [mesh|] eqn:Hmesh.
  - cbn [ViewerApi.meshMap ViewerApi.modelGroup].
    destruct (Hst _ _ Hmesh) as [Hlt Hinj].
    split; [reflexivity|]. split.
    { apply list_eq. intros i. rewrite !list_lookup_fmap, list_lookup_alter.
      destruct (decide (mesh = i)) as [->|]; [|reflexivity].
      now destruct (ViewerApi.modelGroup st !! i). }
    split.
    { rewrite Hmesh. cbn [mbind option_bind].
      rewrite list_lookup_alter. now destruct (decide (mesh = mesh)). }
    split.
    { intros rid Hne.
      destruct (ViewerApi.meshMap st !! rid) as [mesh'|] eqn:Hrid;
        [|reflexivity].
      cbn [mbind option_bind]. apply list_lookup_alter_ne.
      intros <-. apply Hne. now apply Hinj. }
    split.
    { cbn [mbind option_bind]. intros Hnone.
      apply lookup_ge_None in Hnone. lia. }
    intros geometries colorRegions colorMap. split.
    + unfold ViewerApi.loadGeometries. cbv zeta.
      cbn [ViewerApi.meshMap]. reflexivity.
    + apply loadGeometries_scene.
  - split; [reflexivity|]. split; [reflexivity|].
    split; [now rewrite Hmesh|]. split; [reflexivity|].
    split; [reflexivity|]. intros geometries colorRegions colorMap.
    split; [reflexivity | apply loadGeometries_scene].
Qed.

Lemma setRegionColor_recolours_one_mesh_witness :
  let st := ViewerApi.loadGeometries ViewerApi.initViewer
              {["body" := Some (Geom3 None)]}
              (colorRegions Config.basketballJersey) ∅ in
  meshOf (ViewerApi.setRegionColor st "body" "#00FF00") "body" =
    ViewerApi.setMeshColor "#00FF00" <$> meshOf st "body"
  /\ meshOf (ViewerApi.setRegionColor st "trim" "#00FF00") "body" =
     meshOf st "body".
Proof.
  intros st.
  assert (Hreach : reachable st) by (apply reach_load, reach_init).
  split.
  - now destruct (setRegionColor_recolours_one_mesh st "body" "#00FF00" Hreach)
      as (_ & _ & Hbody & _).
  - destruct (setRegionColor_recolours_one_mesh st "trim" "#00FF00" Hreach)
      as (_ & _ & _ & Hother & _).
    apply Hother. discriminate.
Defined.

(** ** The colour state *)

(** The colour of a region after [buildColorPanel]. *)
Lemma strOr_nonempty (a : option string) (d : string) :
  d <> EmptyString -> strOr a d <> EmptyString.
Proof.
  intros Hd. unfold strOr. destruct a as [s|]; [|exact Hd].
  destruct (decide (s = EmptyString)) as [->|Hs].
  - now rewrite bool_decide_eq_true_2.
  - now rewrite bool_decide_eq_false_2.
Qed.

Lemma initRegion_loop (colorRegions : list Region) (rid : string) :
  fold_left ColorManager.initRegion colorRegions ∅ !! rid =
  last (map (fun region => strOr (region_default region) "#888888")
            (regionsNamed rid colorRegions)).
Proof.
  induction colorRegions as [|region colorRegions IH] using rev_ind;
    [reflexivity|].
  rewrite fold_left_app, regionsNamed_snoc, map_app.
  change (fold_left ColorManager.initRegion [region]
            (fold_left ColorManager.initRegion colorRegions ∅))
    with (<[region_id region := strOr (region_default region) "#888888"]>
            (fold_left ColorManager.initRegion colorRegions ∅)).
  destruct (decide (region_id region = rid)) as [Heq|Hne].
  - rewrite bool_decide_eq_true_2 by assumption. cbn [map].
    rewrite Heq, last_snoc. apply lookup_insert_eq.
  - rewrite bool_decide_eq_false_2 by assumption. cbn [map].
    rewrite app_nil_r, <- IH. now apply lookup_insert_ne.
Qed.

Lemma buildColorPanel_fold (colorRegions : option (list Region))
    (colors : gmap string string) :
  ColorManager.buildColorPanel colorRegions colors =
  fold_left ColorManager.initRegion (default [] colorRegions) ∅.
Proof.
  unfold ColorManager.buildColorPanel. cbv zeta. rewrite delete_all_keys.
  now destruct colorRegions as [[|region regions]|].
Qed.

(** X17.  After [buildColorPanel] the colour map holds exactly the
    identifiers of the design's colour regions, each with the default colour
    of the last region of that identifier, #888888 where that region has no
    default or an empty one; no colour in it is empty.  Nothing of the state
    before is left: a design without colour regions leaves the map empty. *)
Theorem buildColorPanel_colours (colorRegions : option (list Region))
    (colors : gmap string string) :
  (forall rid : string,
      ColorManager.getColors
        (ColorManager.buildColorPanel colorRegions colors) !! rid =
      last (map (fun region => strOr (region_default region) "#888888")
                (regionsNamed rid (default [] colorRegions))))
  /\ (forall rid : string,
         is_Some (ColorManager.getColors
                    (ColorManager.buildColorPanel colorRegions colors) !! rid)
         <-> rid ∈ map region_id (default [] colorRegions))
  /\ (forall rid hex : string,
         ColorManager.getColors
           (ColorManager.buildColorPanel colorRegions colors) !! rid
           = Some hex ->
         hex <> EmptyString)
  /\ (colorRegions = None \/ colorRegions = Some [] ->
      ColorManager.getColors
        (ColorManager.buildColorPanel colorRegions colors) = ∅).
Proof.
  unfold ColorManager.getColors. rewrite buildColorPanel_fold.
  split; [apply initRegion_loop|]. split; [|split].
  - intros rid. rewrite initRegion_loop.
    set (regions := default [] colorRegions). clearbody regions.
    induction regions as [|region regions IH] using rev_ind.
    + cbn. rewrite elem_of_nil. split; [now intros []|now intros []].
    + rewrite regionsNamed_snoc, !map_app, elem_of_app. cbn [map].
      destruct (decide (region_id region = rid)) as [Heq|Hne].
      * rewrite bool_decide_eq_true_2 by assumption. cbn [map].
        rewrite last_snoc. split; [|now eexists].
        intros _. right. rewrite Heq. apply list_elem_of_singleton.
        reflexivity.
      * rewrite bool_decide_eq_false_2 by assumption. cbn [map].
        rewrite app_nil_r, IH, list_elem_of_singleton. intuition congruence.
  - intros rid hex. rewrite initRegion_loop. intros Hlast.
    apply last_Some_elem_of, list_elem_of_fmap in Hlast
      as (region & -> & _).
    now apply strOr_nonempty.
  - now intros [->| ->].
Qed.

Lemma buildColorPanel_colours_witness :
  ColorManager.getColors
    (ColorManager.buildColorPanel None {["body" := "#00FF00"]}) = ∅.
Proof.
  apply (buildColorPanel_colours None). now left.
Defined.

Lemma buildColorPanel_lookup (colorRegions : list Region)
    (colors : gmap string string) (region : Region) :
  NoDup (map region_id colorRegions) -> region ∈ colorRegions ->
  ColorManager.buildColorPanel (Some colorRegions) colors !! region_id region =
  Some (strOr (region_default region) "#888888").
Proof.
  intros Hnd Hin. rewrite buildColorPanel_fold. cbn [default from_option id].
  unfold Datatypes.id.
  now rewrite initRegion_loop, regionsNamed_NoDup.
Qed.

Lemma strOr_some (s d : string) : s <> EmptyString -> strOr (Some s) d = s.
Proof. intros Hs. unfold strOr. now rewrite bool_decide_eq_false_2. Qed.

(** X18.  The colour panel drives the colours of the meshes: loaded with
    the colour map that [buildColorPanel] built for the same colour regions
    (no identifier repeated), a region's mesh has the region's default
    colour, #888888 without one; after [setColor] for that region with a
    colour that is not empty it has that colour, and the same position
    buffer; [setColor] for another identifier changes nothing for it. *)
Theorem colour_panel_drives_mesh_colours
    (geometries : gmap string (option geom)) (colorRegions : list Region)
    (colors : gmap string string) (region : Region) (jscadGeom : geom) :
  NoDup (map region_id colorRegions) ->
  region ∈ colorRegions ->
  geometries !! region_id region = Some (Some jscadGeom) ->
  let panel := ColorManager.buildColorPanel (Some colorRegions) colors in
  meshMap (loadGeometries geometries colorRegions
             (ColorManager.getColors panel)) !! region_id region =
    Some {| mesh_positions := jscadToThreeGeometry jscadGeom;
            mesh_color := strOr (region_default region) "#888888" |}
  /\ (forall hex : string,
         hex <> EmptyString ->
         meshMap (loadGeometries geometries colorRegions
                    (ColorManager.getColors
                       (ColorManager.setColor panel (region_id region) hex)))
           !! region_id region =
         Some {| mesh_positions := jscadToThreeGeometry jscadGeom;
                 mesh_color := hex |})
  /\ (forall other hex : string,
         other <> region_id region ->
         meshMap (loadGeometries geometries colorRegions
                    (ColorManager.getColors
                       (ColorManager.setColor panel other hex)))
           !! region_id region =
         meshMap (loadGeometries geometries colorRegions
                    (ColorManager.getColors panel)) !! region_id region).
Proof.
  intros Hnd Hin Hgeom panel.
  assert (Hmesh : forall colorMap : gmap string string,
             meshMap (loadGeometries geometries colorRegions colorMap)
               !! region_id region =
             Some {| mesh_positions := jscadToThreeGeometry jscadGeom;
                     mesh_color := regionColor colorMap region |}).
  { intros colorMap.
    rewrite loadGeometries_lookup, regionsNamed_NoDup by assumption.
    cbn [omap list_omap]. unfold regionMesh. now rewrite Hgeom. }
  pose proof (buildColorPanel_lookup colorRegions colors region Hnd Hin)
    as Hpanel. fold panel in Hpanel.
  assert (Hdefault : strOr (region_default region) "#888888" <> EmptyString)
    by (apply strOr_nonempty; discriminate).
  unfold ColorManager.getColors, ColorManager.setColor.
  split; [|split].
  - rewrite Hmesh. unfold regionColor. now rewrite Hpanel, strOr_some.
  - intros hex Hhex. rewrite Hmesh. unfold regionColor.
    now rewrite lookup_insert_eq, strOr_some.
  - intros other hex Hother. rewrite !Hmesh. unfold regionColor.
    now rewrite lookup_insert_ne.
Qed.

Lemma colour_panel_drives_mesh_colours_witness :
  let regions := colorRegions Config.basketballJersey in
  let geometries : gmap string (option geom) :=
    {["body" := Some (Geom3 None)]} in
  meshMap (loadGeometries geometries regions
             (ColorManager.getColors
                (ColorManager.buildColorPanel (Some regions) ∅))) !! "body" =
    Some {| mesh_positions := []; mesh_color := "#C8102E" |}
  /\ meshMap (loadGeometries geometries regions
                (ColorManager.getColors
                   (ColorManager.setColor
                      (ColorManager.buildColorPanel (Some regions) ∅)
                      "body" "#00FF00"))) !! "body" =
     Some {| mesh_positions := []; mesh_color := "#00FF00" |}.
Proof.
  intros regions geometries.
  assert (Hnd : NoDup (map region_id regions))
    by (apply (bool_decide_unpack _); reflexivity).
  assert (Hin : {| region_id := "body"; region_label := "Jersey Body";
                   region_default := Some "#C8102E" |} ∈ regions)
    by (apply elem_of_cons; now left).
  destruct (colour_panel_drives_mesh_colours geometries regions ∅ _
              (Geom3 None) Hnd Hin eq_refl) as (Hdefault & Hset & _).
  split; [exact Hdefault|]. apply Hset. discriminate.
Defined.

(** ** The exported files *)

(** The names of the files the loop of [exportAllSTL] downloads. *)
Lemma export_loop_filenames (serialize : Serializer) (design : Design)
    (inputs : Inputs) (geometries : gmap string (option geom))
    (regions : list Region) (downloads : list Download) :
  map filename (fold_left (exportStep serialize design inputs geometries)
                          regions downloads) =
  map filename downloads
  ++ map (fun region => stlName design (region_id region))
         (List.filter (present geometries) regions).
Proof.
  revert downloads. induction regions as [|region regions IH];
    intros downloads.
  - cbn. now rewrite app_nil_r.
  - cbn [fold_left List.filter]. rewrite IH. unfold exportStep, present.
    destruct (geometries !! region_id region) as [[g|]|]; try reflexivity.
    destruct (exportRegionSTL_first_chunk serialize region g inputs design)
      as [solids ->].
    rewrite map_app. cbn [map filename]. now rewrite <- app_assoc.
Qed.

Lemma filter_ids_NoDup (keep : Region -> bool) (regions : list Region) :
  NoDup (map region_id regions) ->
  NoDup (map region_id (List.filter keep regions)).
Proof.
  induction regions as [|region regions IH]; intros Hnd; [constructor|].
  cbn [map] in Hnd. apply NoDup_cons in Hnd as [Hnot Hnd].
  cbn [List.filter]. destruct (keep region); [|now apply IH].
  cbn [map]. apply NoDup_cons. split; [|now apply IH].
  intros Hin. apply Hnot.
  apply list_elem_of_fmap in Hin as (region' & -> & Hin).
  apply list_elem_of_fmap_2. apply list_elem_of_In in Hin.
  apply List.filter_In in Hin as [Hin _]. now apply list_elem_of_In.
Qed.

Lemma jersey_file_names (bodyGeom : geom)
    (numberGeom nameGeom trimGeom : option geom) :
  map (fun region => stlName Config.basketballJersey (region_id region))
      (List.filter
         (present (<["body" := Some bodyGeom]>
                     (<["number" := numberGeom]>
                        (<["name" := nameGeom]> (<["trim" := trimGeom]> ∅)))))
         (colorRegions Config.basketballJersey)) =
  "basketball-jersey__body.stl"
  :: match numberGeom with
     | Some _ => ["basketball-jersey__number.stl"]
     | None => []
     end
  ++ match nameGeom with
     | Some _ => ["basketball-jersey__name.stl"]
     | None => []
     end
  ++ match trimGeom with
     | Some _ => ["basketball-jersey__trim.stl"]
     | None => []
     end.
Proof. destruct numberGeom, nameGeom, trimGeom; reflexivity. Qed.

Section ExportFiles.
Context `{Builtins}.

(** X19.  [exportAllSTL] downloads one file for each colour region that has
    a geometry, in the order of the colour regions, named
    <design-identifier>__<region-identifier>.stl; with no region identifier
    repeated no two files share a name.  When [generate] fails nothing is
    downloaded and the failure is passed on. *)
Theorem exportAllSTL_file_names (jscad : Modeling) (font : Font)
    (serialize : Serializer) (design : Design) (inputs : Inputs) :
  (forall geometries : gmap string (option geom),
      generate jscad font inputs = Ok geometries ->
      exists downloads : list Download,
        exportAllSTL jscad font serialize design inputs = Ok downloads
        /\ map filename downloads =
           map (fun region => stlName design (region_id region))
               (List.filter (present geometries) (colorRegions design))
        /\ (NoDup (map region_id (colorRegions design)) ->
            NoDup (map filename downloads)))
  /\ (generate jscad font inputs = Throws ->
      exportAllSTL jscad font serialize design inputs = Throws)
  /\ (generate jscad font inputs = NonFinite ->
      exportAllSTL jscad font serialize design inputs = NonFinite).
Proof.
  unfold exportAllSTL. split; [|split]; try (now intros ->).
  intros geometries ->. cbn [mbind outcome_bind].
  eexists. split; [reflexivity|].
  rewrite export_loop_filenames. cbn [map app].
  split; [reflexivity|]. intros Hnd.
  rewrite <- (map_map region_id (stlName design)).
  assert (Hinj : Inj eq eq (stlName design))
    by (intros a b; apply stlName_inj).
  apply (NoDup_fmap_2 (stlName design)). now apply filter_ids_NoDup.
Qed.

(** X20.  For the basketball-jersey design [exportAllSTL] downloads at most
    the four files basketball-jersey__body.stl, __number.stl, __name.stl and
    __trim.stl, in that order; the body file is always the first, and the
    trim file is among them exactly when [showTrim] is truthy (a missing
    [showTrim] counts as true). *)
Theorem exportAllSTL_jersey_files (jscad : Modeling) (font : Font)
    (serialize : Serializer) (inputs : Inputs) (downloads : list Download) :
  exportAllSTL jscad font serialize Config.basketballJersey inputs
    = Ok downloads ->
  (exists rest : list string,
      map filename downloads = "basketball-jersey__body.stl" :: rest)
  /\ sublist (map filename downloads)
       [ "basketball-jersey__body.stl"; "basketball-jersey__number.stl";
         "basketball-jersey__name.stl"; "basketball-jersey__trim.stl" ]
  /\ ("basketball-jersey__trim.stl" ∈ map filename downloads
      <-> trimWanted inputs = true).
Proof.
  unfold exportAllSTL. intros Hexport.
  apply bind_ok in Hexport as (geometries & Hgen & Hexport).
  assert (Hd : fold_left
                 (exportStep serialize Config.basketballJersey inputs
                             geometries)
                 (colorRegions Config.basketballJersey) [] = downloads)
    by congruence.
  rewrite <- Hd, export_loop_filenames. clear Hd Hexport. cbn [map app].
  apply generate_ok_inv in Hgen
    as (bodyGeom & numberGeom & nameGeom & trimGeom & -> & Htrim).
  rewrite jersey_file_names.
  split; [eexists; reflexivity|]. split.
  - destruct numberGeom, nameGeom, trimGeom; cbn [app];
      repeat first [ apply sublist_nil | apply sublist_skip
                   | apply sublist_cons ].
  - destruct trimGeom as [g|].
    + split.
      * intros _. destruct (trimWanted inputs); [reflexivity|].
        now destruct Htrim as [_ Habs]; discriminate Habs.
      * intros _. destruct numberGeom, nameGeom; cbn [app];
          rewrite !elem_of_cons; tauto.
    + rewrite (proj1 Htrim eq_refl). split; [|discriminate].
      intros Hin. exfalso.
      destruct numberGeom, nameGeom; cbn [app] in Hin;
        repeat (apply elem_of_cons in Hin as [Hin|Hin];
                [discriminate Hin|]);
        now apply elem_of_nil in Hin.
Qed.
End ExportFiles.

Lemma exportAllSTL_file_names_witness :
  exists geometries : gmap string (option geom),
    @generate Example.builtins Example.modeling Example.font
      Example.blankInputs = Ok geometries
    /\ exists downloads : list Download,
         @exportAllSTL Example.builtins Example.modeling Example.font
           (StlFormat.chunkedSerializer (fun _ => [])) Config.basketballJersey
           Example.blankInputs = Ok downloads
         /\ map filename downloads = ["basketball-jersey__body.stl"].
Proof.
  eexists. split; [reflexivity|].
  destruct (proj1 (@exportAllSTL_file_names Example.builtins Example.modeling
                     Example.font (StlFormat.chunkedSerializer (fun _ => []))
                     Config.basketballJersey Example.blankInputs)
                  _ eq_refl) as (downloads & Hd & Hnames & _).
  exists downloads. split; [exact Hd|]. rewrite Hnames. reflexivity.
Defined.

Lemma exportAllSTL_jersey_files_witness :
  exists downloads : list Download,
    @exportAllSTL Example.builtins Example.modeling Example.font
      (StlFormat.chunkedSerializer (fun _ => [])) Config.basketballJersey
      Example.blankInputs = Ok downloads
    /\ (exists rest : list string,
          map filename downloads = "basketball-jersey__body.stl" :: rest)
    /\ sublist (map filename downloads)
         [ "basketball-jersey__body.stl"; "basketball-jersey__number.stl";
           "basketball-jersey__name.stl"; "basketball-jersey__trim.stl" ]
    /\ ("basketball-jersey__trim.stl" ∈ map filename downloads
        <-> trimWanted Example.blankInputs = true).
Proof.
  eexists. split; [reflexivity|].
  apply (@exportAllSTL_jersey_files Example.builtins Example.modeling
           Example.font (StlFormat.chunkedSerializer (fun _ => []))
           Example.blankInputs).
  reflexivity.
Defined.

(** ** The preview and the export *)

(** A region gets a mesh exactly when the exporter finds a geometry for
    it. *)
Lemma regionMesh_present (geometries : gmap string (option geom))
    (colorMap : gmap string string) (region : Region) :
  is_Some (regionMesh geometries colorMap region) <->
  present geometries region = true.
Proof.
  unfold regionMesh, present.
  destruct (geometries !! region_id region) as [[g|]|];
    (split; [intros [mesh Hmesh] | intros Hp]);
    try discriminate; try reflexivity; now eexists.
Qed.

Lemma is_Some_last_omap {A B : Type} (f : A -> option B) (l : list A) :
  is_Some (last (omap f l)) <-> exists x : A, x ∈ l /\ is_Some (f x).
Proof.
  induction l as [|a l IH] using rev_ind.
  - cbn. split; [now intros [b Hb] | intros (x & Hx & _)].
    now apply elem_of_nil in Hx.
  - rewrite omap_app. cbn [omap list_omap].
    destruct (f a) as [b|] eqn:Hfa.
    + rewrite last_snoc. split; [|now eexists]. intros _. exists a.
      split; [apply elem_of_app; right; now apply list_elem_of_singleton|].
      rewrite Hfa. now eexists.
    + rewrite app_nil_r, IH. split.
      * intros (x & Hx & Hfx). exists x.
        split; [apply elem_of_app; now left | exact Hfx].
      * intros (x & Hx & Hfx). apply elem_of_app in Hx as [Hx|Hx].
        -- now exists x.
        -- apply list_elem_of_singleton in Hx as ->. rewrite Hfa in Hfx.
           now destruct Hfx.
Qed.

Section PreviewAndExport.
Context `{Builtins}.

(** X21.  The preview and the export agree: for the Region Map that
    [generate] returned, [exportAllSTL] downloads as many files as
    [loadGeometries] puts meshes into the scene, and a region identifier has
    a mesh in the scene exactly when its file is among the downloads,
    whatever the colour map. *)
Theorem preview_and_export_agree (jscad : Modeling) (font : Font)
    (serialize : Serializer) (design : Design) (inputs : Inputs)
    (colorMap : gmap string string) (geometries : gmap string (option geom)) :
  generate jscad font inputs = Ok geometries ->
  exists downloads : list Download,
    exportAllSTL jscad font serialize design inputs = Ok downloads
    /\ length downloads =
       length (modelGroup (loadGeometries geometries (colorRegions design)
                                          colorMap))
    /\ forall rid : string,
         is_Some (meshMap (loadGeometries geometries (colorRegions design)
                                          colorMap) !! rid)
         <-> stlName design rid ∈ map filename downloads.
Proof.
  intros Hgen. unfold exportAllSTL. rewrite Hgen. cbn [mbind outcome_bind].
  eexists. split; [reflexivity|]. split.
  - now rewrite export_loop_count, loadGeometries_meshes.
  - intros rid. rewrite export_loop_filenames, loadGeometries_lookup.
    cbn [map app]. rewrite is_Some_last_omap. split.
    + intros (region & Hin & Hmesh).
      apply list_elem_of_In, List.filter_In in Hin as [Hin Hid].
      apply bool_decide_eq_true in Hid as <-.
      apply regionMesh_present in Hmesh.
      apply (list_elem_of_fmap_2
               (fun region => stlName design (region_id region))).
      apply list_elem_of_In, List.filter_In. split; [exact Hin|exact Hmesh].
    + intros Hin. apply list_elem_of_fmap in Hin as (region & Hname & Hin).
      apply stlName_inj in Hname as ->.
      apply list_elem_of_In, List.filter_In in Hin as [Hin Hp].
      exists region. split.
      * apply list_elem_of_In, List.filter_In. split; [exact Hin|].
        now apply bool_decide_eq_true.
      * now apply regionMesh_present.
Qed.
End PreviewAndExport.

Lemma preview_and_export_agree_witness :
  exists (geometries : gmap string (option geom)) (downloads : list Download),
    @exportAllSTL Example.builtins Example.modeling Example.font
      (StlFormat.chunkedSerializer (fun _ => [])) Config.basketballJersey
      Example.blankInputs = Ok downloads
    /\ length downloads =
       length (modelGroup (loadGeometries geometries
                             (colorRegions Config.basketballJersey) ∅)).
Proof.
  destruct (@preview_and_export_agree Example.builtins Example.modeling
              Example.font (StlFormat.chunkedSerializer (fun _ => []))
              Config.basketballJersey Example.blankInputs ∅ _ eq_refl)
    as (downloads & Hd & Hlen & _).
  eexists _, downloads. split; [exact Hd | exact Hlen].
Defined.
